(** * Reference linking in changelog-from-release (reflink.go)

    A shallow embedding of [Reflinker] and of the Go library functions it
    calls, followed by the properties of the linking engine.

    Conventions of the embedding.
    - A Go [int] is a [Z]; a [[]byte] and a [string] are a [list byte].
    - A method that can panic returns a [result]; a method that appends to
      [l.links] returns the updated [Reflinker] next to its value.
    - A [for] loop whose trip count is not a constant is a [Fixpoint] on a
      fuel counter that keeps the loop test of the source; running out of
      fuel is the separate outcome [OutOfFuel], never a value.
    - [regexp.MustCompile] reads a fragment of the syntax of Go's patterns.
      On a pattern text beyond that fragment the embedding gives no answer:
      the outcome is [OutOfFuel] there too, never a value and never a panic.
    - goldmark is an imported library: the tree it returns is an argument
      of [Link], and [ast.Node] keeps what the walker of [Link] reads. *)

From Stdlib Require Import String.
From Stdlib Require Import Strings.Byte.
From Stdlib Require Import ZArith List Lia Bool Permutation Sorting.Sorted.
Import ListNotations.
Set Warnings "-register-all".
Local Open Scope Z_scope.

(** ** Go values and run-time checks *)

Definition bytes := list byte.

(** The bytes of a string literal. *)
Definition B (s : string) : bytes := list_byte_of_string s.

Definition len {A : Type} (s : list A) : Z := Z.of_nat (length s).

Definition code (b : byte) : Z := Z.of_N (Byte.to_N b).

Inductive panic : Type :=
| IndexOutOfRange   (* s[i] with i outside 0 <= i < len(s) *)
| SliceBounds       (* s[lo:hi] without 0 <= lo <= hi <= len(s) *)
| TypeAssertion     (* x.(T) on a value whose dynamic type is not T *)
| RegexpSyntax.     (* regexp.MustCompile on a text that is not a pattern *)

Inductive result (A : Type) : Type :=
| OK (a : A)
| Panic (p : panic)
| OutOfFuel.

Arguments OK {A} a.
Arguments Panic {A} p.
Arguments OutOfFuel {A}.

Definition bind {A C : Type} (r : result A) (f : A -> result C) : result C :=
  match r with
  | OK a => f a
  | Panic p => Panic p
  | OutOfFuel => OutOfFuel
  end.

Notation "x <- c ;; k" := (bind c (fun x => k))
  (at level 61, c at next level, right associativity).
Notation "' pat <- c ;; k" := (bind c (fun x => match x with pat => k end))
  (at level 61, pat pattern, c at next level, right associativity).

(** [a && b] where evaluating [b] can panic: [b] runs only when [a] holds. *)
Definition andThen (a : bool) (b : result bool) : result bool :=
  if a then b else OK false.

(** [s[lo:hi]] once its bounds are known to be fine. *)
Definition sub (s : bytes) (lo hi : Z) : bytes :=
  firstn (Z.to_nat (hi - lo)) (skipn (Z.to_nat lo) s).

(** [s[i]]. *)
Definition index (s : bytes) (i : Z) : result byte :=
  if (0 <=? i) && (i <? len s) then
    match nth_error s (Z.to_nat i) with
    | Some b => OK b
    | None => Panic IndexOutOfRange
    end
  else Panic IndexOutOfRange.

(** [s[lo:hi]]. The capacity of a slice is taken to be its length. *)
Definition slice (s : bytes) (lo hi : Z) : result bytes :=
  if (0 <=? lo) && (lo <=? hi) && (hi <=? len s) then OK (sub s lo hi)
  else Panic SliceBounds.

(** How many bytes at the head of [s] are in the class [cls]. *)
Fixpoint runLen (cls : byte -> bool) (s : bytes) : nat :=
  match s with
  | c :: s' => if cls c then S (runLen cls s') else O
  | [] => O
  end.

(** ** Package bytes and strings *)

Fixpoint HasPrefix (s prefix : bytes) {struct prefix} : bool :=
  match prefix, s with
  | [], _ => true
  | p :: ps, c :: cs => Byte.eqb c p && HasPrefix cs ps
  | _ :: _, [] => false
  end.

Fixpoint IndexFrom (s sep : bytes) (i : Z) : Z :=
  if HasPrefix s sep then i
  else match s with
       | [] => -1
       | _ :: s' => IndexFrom s' sep (i + 1)
       end.

(** [bytes.Index(s, sep)]: the first position of [sep] in [s], or -1. *)
Definition Index (s sep : bytes) : Z := IndexFrom s sep 0.

Fixpoint IndexAnyFrom (s chars : bytes) (i : Z) : Z :=
  match s with
  | [] => -1
  | c :: s' =>
      if existsb (Byte.eqb c) chars then i else IndexAnyFrom s' chars (i + 1)
  end.

(** [bytes.IndexAny(s, chars)] for ASCII [chars]: the first position of a
    byte of [chars] in [s], or -1. *)
Definition IndexAny (s chars : bytes) : Z := IndexAnyFrom s chars 0.

Fixpoint replaceAllSkip (s old new : bytes) (skip : nat) : bytes :=
  match s with
  | [] => []
  | c :: s' =>
      match skip with
      | S k => replaceAllSkip s' old new k
      | O =>
          if HasPrefix s old
          then new ++ replaceAllSkip s' old new (length old - 1)
          else c :: replaceAllSkip s' old new 0
      end
  end.

(** [strings.ReplaceAll(s, old, new)] for a non-empty [old]: the occurrences
    of [old] are replaced from left to right, without overlap. *)
Definition ReplaceAll (s old new : bytes) : bytes := replaceAllSkip s old new 0.

(** ** Package regexp

    The patterns of reflink.go use literals, repetitions of one byte
    class, [\b], [^], [$], alternation, an optional group and capturing
    groups. [matchAt] is a backtracking matcher for that fragment; Go's
    regexp returns the match a backtracking search finds first
    (leftmost-first), which is what [find] computes. The classes of the
    two path patterns are ASCII classes or the complement of one ASCII
    byte, so matching byte by byte finds the offsets matching rune by rune
    finds.

    The two path patterns are constants of the source and are written as
    [Regexp] values. The patterns of [AddExtRef] are built from a prefix
    that the caller gives: [MustCompile] reads their text. *)
Module regexp.

Inductive Regexp : Type :=
| Lit (bs : bytes)                      (* the bytes themselves *)
| One (cls : byte -> bool)              (* one byte of the class *)
| Rep (cls : byte -> bool) (min : nat)  (* [cls]{min,}, greedy *)
| WordB                                 (* \b *)
| Bol                                   (* ^ *)
| Eol                                   (* $ *)
| Seq (r1 r2 : Regexp)
| Alt (r1 r2 : Regexp)
| Opt (r : Regexp)                      (* r?, greedy *)
| Group (i : nat) (r : Regexp).         (* the i-th pair of parentheses *)

(** Offsets of the capturing groups that took part in the match. *)
Definition captures := list (nat * (nat * nat)).

Fixpoint lookup (i : nat) (c : captures) : option (nat * nat) :=
  match c with
  | [] => None
  | (j, se) :: c' => if Nat.eqb i j then Some se else lookup i c'
  end.

Definition isDigit (b : byte) : bool :=
  (code "0" <=? code b) && (code b <=? code "9").

Definition isLower (b : byte) : bool :=
  (code "a" <=? code b) && (code b <=? code "z").

Definition isUpper (b : byte) : bool :=
  (code "A" <=? code b) && (code b <=? code "Z").

(** [\w], which is also the class [a-zA-Z0-9_]. *)
Definition isWord (b : byte) : bool :=
  isDigit b || isLower b || isUpper b || Byte.eqb b "_".

(** [[:xdigit:]]. *)
Definition isXDigit (b : byte) : bool :=
  isDigit b
  || ((code "a" <=? code b) && (code b <=? code "f"))
  || ((code "A" <=? code b) && (code b <=? code "F")).

(** [[^/]]. *)
Definition notSlash (b : byte) : bool := negb (Byte.eqb b "/").

(** [.] without the s flag: anything but a line feed. *)
Definition anyChar (b : byte) : bool := negb (Byte.eqb b "010").

(** Greedy choice: [k (lo + n)] first, then shorter, down to [k lo]. *)
Fixpoint tryDown {R : Type} (k : nat -> option R) (lo n : nat) : option R :=
  match k (lo + n)%nat with
  | Some r => Some r
  | None =>
      match n with
      | O => None
      | S n' => tryDown k lo n'
      end
  end.

Definition wordAt (text : bytes) (pos : nat) : bool :=
  match nth_error text pos with
  | Some b => isWord b
  | None => false
  end.

Definition wordBefore (text : bytes) (pos : nat) : bool :=
  match pos with
  | O => false
  | S p => wordAt text p
  end.

Section Match.
Variable R : Type.
Variable text : bytes.

Fixpoint matchAt (r : Regexp) (pos : nat) (c : captures)
         (k : nat -> captures -> option R) : option R :=
  match r with
  | Lit bs =>
      if HasPrefix (skipn pos text) bs then k (pos + length bs)%nat c
      else None
  | One cls =>
      match nth_error text pos with
      | Some b => if cls b then k (S pos) c else None
      | None => None
      end
  | Rep cls min =>
      let m := runLen cls (skipn pos text) in
      if (m <? min)%nat then None
      else tryDown (fun j => k (pos + j)%nat c) min (m - min)
  | WordB => if xorb (wordBefore text pos) (wordAt text pos) then k pos c else None
  | Bol => if Nat.eqb pos 0 then k pos c else None
  | Eol => if Nat.eqb pos (length text) then k pos c else None
  | Seq r1 r2 => matchAt r1 pos c (fun p c' => matchAt r2 p c' k)
  | Alt r1 r2 =>
      match matchAt r1 pos c k with
      | Some x => Some x
      | None => matchAt r2 pos c k
      end
  | Opt r1 =>
      match matchAt r1 pos c k with
      | Some x => Some x
      | None => k pos c
      end
  | Group i r1 => matchAt r1 pos c (fun p c' => k p ((i, (pos, p)) :: c'))
  end.
End Match.

(** A match: where it starts, where it ends, and its groups. *)
Definition found := (nat * nat * captures)%type.

Fixpoint findFrom (r : Regexp) (text : bytes) (n s : nat) : option found :=
  match matchAt found text r s [] (fun e c => Some (s, e, c)) with
  | Some m => Some m
  | None =>
      match n with
      | O => None
      | S n' => findFrom r text n' (S s)
      end
  end.

(** The leftmost match of [r] in [text]. *)
Definition find (r : Regexp) (text : bytes) : option found :=
  findFrom r text (length text) 0.

(** [r.FindIndex(text)]: [Some (r[0], r[1])], or [None] for nil. *)
Definition FindIndex (r : Regexp) (text : bytes) : option (Z * Z) :=
  match find r text with
  | Some (s, e, _) => Some (Z.of_nat s, Z.of_nat e)
  | None => None
  end.

(** [m[i]] of [m := r.FindSubmatch(text)]; a group that took no part in
    the match is nil, of length 0. *)
Definition submatch (text : bytes) (m : found) (i : nat) : bytes :=
  match i with
  | O => let '(s, e, _) := m in sub text (Z.of_nat s) (Z.of_nat e)
  | _ =>
      let '(_, _, c) := m in
      match lookup i c with
      | Some (s, e) => sub text (Z.of_nat s) (Z.of_nat e)
      | None => []
      end
  end.

Definition FindSubmatch (r : Regexp) (text : bytes) : option found :=
  find r text.

(** *** [regexp.MustCompile]

    The fragment of the syntax that is read: bytes of ASCII that stand
    for themselves, [\b], [\d], [\w], a backslash before a punctuation
    byte, [^], [$], a class [[...]] of ASCII bytes and ranges that is not
    negated, the operators [*], [+] and [?] after one byte or one class,
    and [|]. Anything else is an error of the syntax where it is one
    whatever follows (a [)] that nothing opens, an operator that repeats
    an operator or nothing, a range that runs backwards, a class or an
    escape that the text ends in), and is beyond the fragment otherwise:
    [.], groups, counted and lazy repetitions, negated and named classes,
    the other escapes, an operator after [\b], [^] or [$], and every byte
    outside ASCII. The parser of Go reads a pattern from left to right
    and stops at the first error, and so do [lex] and [parse]. Texts of
    more than 1000 bytes are left out, far below the size at which Go
    refuses a pattern. *)

Inductive compiled : Type :=
| Compiled (r : Regexp)
| Invalid                 (* not a pattern *)
| Beyond.                 (* beyond the fragment *)

Definition isASCII (b : byte) : bool := code b <? 128.

Definition isAlnum (b : byte) : bool := isDigit b || isLower b || isUpper b.

(** The bytes that [regexp.QuoteMeta] escapes. *)
Definition isMeta (b : byte) : bool :=
  existsb (Byte.eqb b) (B "\.+*?()|[]{}^$").

(** The class of the one byte [c]. *)
Definition only (c : byte) (b : byte) : bool := Byte.eqb b c.

(** The class of the bytes from [lo] to [hi]. *)
Definition range (lo hi : byte) (b : byte) : bool :=
  (code lo <=? code b) && (code b <=? code hi).

Definition either (f g : byte -> bool) (b : byte) : bool := f b || g b.

Definition none (b : byte) : bool := false.

Inductive token : Type :=
| TByte (b : byte)             (* a byte that stands for itself *)
| TClass (cls : byte -> bool)  (* \d, \w or [...] *)
| TEmpty (r : Regexp)          (* \b, ^ or $ *)
| TStar
| TPlus
| TQuest
| TBar
| TClose.                      (* ) *)

Inductive lexed (A : Type) : Type :=
| Lexed (a : A) (rest : bytes)
| LexInvalid
| LexBeyond.

Arguments Lexed {A} a rest.
Arguments LexInvalid {A}.
Arguments LexBeyond {A}.

(** What follows a backslash outside a class. *)
Definition escape (e : byte) : option token :=
  if Byte.eqb e "b" then Some (TEmpty WordB)
  else if Byte.eqb e "d" then Some (TClass isDigit)
  else if Byte.eqb e "w" then Some (TClass isWord)
  else if isASCII e && negb (isAlnum e) then Some (TByte e)
  else None.

(** One byte of a class, written as itself or after a backslash. *)
Definition classChar (s : bytes) : lexed byte :=
  match s with
  | [] => LexInvalid
  | c :: rest =>
      if Byte.eqb c "\" then
        match rest with
        | [] => LexInvalid
        | e :: rest' =>
            if isASCII e && negb (isAlnum e) then Lexed e rest' else LexBeyond
        end
      else if isASCII c then Lexed c rest
      else LexBeyond
  end.

(** The items of a class up to its []]; [first] holds before the first
    item, where a []] stands for itself. *)
Fixpoint classBody (fuel : nat) (s : bytes) (first : bool) (acc : byte -> bool)
  : lexed (byte -> bool) :=
  match fuel with
  | O => LexBeyond
  | S fuel' =>
      match s with
      | [] => LexInvalid
      | c :: rest =>
          if Byte.eqb c "]" && negb first then Lexed acc rest
          else if Byte.eqb c "[" then LexBeyond
          else if HasPrefix s (B "\d") then
            classBody fuel' (skipn 2 s) false (either acc isDigit)
          else if HasPrefix s (B "\w") then
            classBody fuel' (skipn 2 s) false (either acc isWord)
          else
            match classChar s with
            | Lexed lo t =>
                match t with
                | dash :: h :: t' =>
                    if Byte.eqb dash "-" && negb (Byte.eqb h "]") then
                      match classChar (h :: t') with
                      | Lexed hi t'' =>
                          if code hi <? code lo then LexInvalid
                          else classBody fuel' t'' false (either acc (range lo hi))
                      | LexInvalid => LexInvalid
                      | LexBeyond => LexBeyond
                      end
                    else classBody fuel' t false (either acc (only lo))
                | _ => classBody fuel' t false (either acc (only lo))
                end
            | LexInvalid => LexInvalid
            | LexBeyond => LexBeyond
            end
      end
  end.

Definition andToken (t : token) (r : lexed (list token)) : lexed (list token) :=
  match r with
  | Lexed ts rest => Lexed (t :: ts) rest
  | LexInvalid => LexInvalid
  | LexBeyond => LexBeyond
  end.

Fixpoint lex (fuel : nat) (s : bytes) : lexed (list token) :=
  match s with
  | [] => Lexed [] []
  | c :: rest =>
      match fuel with
      | O => LexBeyond
      | S fuel' =>
          if negb (isASCII c) then LexBeyond
          else if Byte.eqb c "\" then
            match rest with
            | [] => LexInvalid
            | e :: rest' =>
                match escape e with
                | Some t => andToken t (lex fuel' rest')
                | None => LexBeyond
                end
            end
          else if Byte.eqb c "[" then
            if HasPrefix rest (B "^") then LexBeyond
            else
              match classBody fuel' rest true none with
              | Lexed cls rest' => andToken (TClass cls) (lex fuel' rest')
              | LexInvalid => LexInvalid
              | LexBeyond => LexBeyond
              end
          else if Byte.eqb c "(" || Byte.eqb c "{" || Byte.eqb c "." then LexBeyond
          else if Byte.eqb c ")" then andToken TClose (lex fuel' rest)
          else if Byte.eqb c "|" then andToken TBar (lex fuel' rest)
          else if Byte.eqb c "*" then andToken TStar (lex fuel' rest)
          else if Byte.eqb c "+" then andToken TPlus (lex fuel' rest)
          else if Byte.eqb c "?" then andToken TQuest (lex fuel' rest)
          else if Byte.eqb c "^" then andToken (TEmpty Bol) (lex fuel' rest)
          else if Byte.eqb c "$" then andToken (TEmpty Eol) (lex fuel' rest)
          else andToken (TByte c) (lex fuel' rest)
      end
  end.

(** [x*], [x+] or [x?] for the item [x] that the operator follows. *)
Definition repeated (op : token) (x : Regexp) : option Regexp :=
  match x, op with
  | Lit [b], TStar => Some (Rep (only b) 0)
  | Lit [b], TPlus => Some (Rep (only b) 1)
  | Lit [b], TQuest => Some (Opt (Lit [b]))
  | One cls, TStar => Some (Rep cls 0)
  | One cls, TPlus => Some (Rep cls 1)
  | One cls, TQuest => Some (Opt (One cls))
  | _, _ => None
  end.

(** Literals that follow one another make one literal. *)
Fixpoint merge (items : list Regexp) : list Regexp :=
  match items with
  | [] => []
  | Lit a :: rest =>
      match merge rest with
      | Lit b :: rest' => Lit (a ++ b) :: rest'
      | m => Lit a :: m
      end
  | r :: rest => r :: merge rest
  end.

Fixpoint sequence (items : list Regexp) : Regexp :=
  match items with
  | [] => Lit []
  | [r] => r
  | r :: rest => Seq r (sequence rest)
  end.

Definition concat (items : list Regexp) : Regexp := sequence (merge items).

Fixpoint alternate (first : Regexp) (more : list Regexp) : Regexp :=
  match more with
  | [] => first
  | r :: more' => Alt first (alternate r more')
  end.

(** The parser over the tokens: [alts] holds the alternatives that a [|]
    has closed, [cur] the items of the open one, the last one first, and
    [rep] tells that the token before was [*], [+] or [?]. *)
Fixpoint parse (ts : list token) (alts : list Regexp) (cur : list Regexp)
         (rep : bool) : compiled :=
  match ts with
  | [] =>
      match alts ++ [concat (rev cur)] with
      | [] => Beyond
      | r :: more => Compiled (alternate r more)
      end
  | t :: ts' =>
      match t with
      | TByte b => parse ts' alts (Lit [b] :: cur) false
      | TClass cls => parse ts' alts (One cls :: cur) false
      | TEmpty r => parse ts' alts (r :: cur) false
      | TBar => parse ts' (alts ++ [concat (rev cur)]) [] false
      | TClose => Invalid
      | TStar | TPlus | TQuest =>
          if rep then
            match t with
            | TQuest => Beyond    (* x*?, x+?, x??: lazy *)
            | _ => Invalid        (* x**, x+*, x?+, ... *)
            end
          else
            match cur with
            | [] => Invalid       (* nothing to repeat *)
            | x :: cur' =>
                match repeated t x with
                | Some r => parse ts' alts (r :: cur') true
                | None => Beyond
                end
            end
      end
  end.

Definition Compile (s : bytes) : compiled :=
  if (1000 <? length s)%nat then Beyond
  else
    match lex (length s) s with
    | Lexed ts _ => parse ts [] [] false
    | LexInvalid => Invalid
    | LexBeyond => Beyond
    end.

Definition MustCompile (s : bytes) : result Regexp :=
  match Compile s with
  | Compiled r => OK r
  | Invalid => Panic RegexpSyntax
  | Beyond => OutOfFuel
  end.

End regexp.

(** ** The part of goldmark's tree that [Link] reads *)

Module textm.
Record Segment : Type := { Start : Z; Stop : Z }.
End textm.

Module ast.

(** [Text] carries its segment of the source; [AutoLink] carries what
    [n.URL(source)] returns; [Other] stands for every other kind
    (Document, Paragraph, Emphasis, ...), which the walker enters. *)
Inductive Node : Type :=
| Text (Segment : textm.Segment)
| CodeSpan (children : list Node)
| Link (children : list Node)
| AutoLink (URL : bytes)
| Other (children : list Node).

Inductive WalkStatus : Type := WalkSkipChildren | WalkContinue.

End ast.

(** ** reflink.go *)

Record refLink : Type := { start : Z; end_ : Z; text : bytes }.

(** [byStart.Less]. *)
Definition Less (a b : refLink) : bool := start a <? start b.

Fixpoint insertByStart (r : refLink) (sorted : list refLink) : list refLink :=
  match sorted with
  | [] => [r]
  | x :: xs => if Less r x then r :: x :: xs else x :: insertByStart r xs
  end.

(** [sort.Sort(byStart(links))]. Package sort runs an insertion sort on
    fewer than 13 elements: each element moves left past the elements
    whose start is strictly greater. Longer slices are sorted by the same
    key, with the order of equal starts left open by the library. *)
Definition sortByStart (links : list refLink) : list refLink :=
  fold_left (fun acc r => insertByStart r acc) links [].

Definition isBoundary (b : byte) : bool :=
  if ((code "0" <=? code b) && (code b <=? code "9"))
     || ((code "a" <=? code b) && (code b <=? code "z"))
     || ((code "A" <=? code b) && (code b <=? code "Z"))
  then false
  else true.

Definition isUserNameChar (b : byte) : bool :=
  ((code "0" <=? code b) && (code b <=? code "9"))
  || ((code "a" <=? code b) && (code b <=? code "z"))
  || ((code "A" <=? code b) && (code b <=? code "Z"))
  || Byte.eqb b "-".

Record extRef : Type := {
  prefix : bytes;
  pat : regexp.Regexp;
  url : bytes
}.

Record Reflinker : Type := {
  repo : bytes;
  home : bytes;
  src : bytes;
  ext : list extRef;
  links : list refLink
}.

(** [l.links = append(l.links, r)]. *)
Definition appendLink (l : Reflinker) (r : refLink) : Reflinker :=
  {| repo := repo l; home := home l; src := src l; ext := ext l;
     links := links l ++ [r] |}.

Definition reset (l : Reflinker) (s : bytes) : Reflinker :=
  {| repo := repo l; home := home l; src := s; ext := ext l; links := [] |}.

Definition isBoundaryAt (l : Reflinker) (idx : Z) : bool :=
  if (idx <? 0) || (len (src l) <=? idx) then true
  else match nth_error (src l) (Z.to_nat idx) with
       | Some b => isBoundary b
       | None => true
       end.

Definition isDecimal (b : byte) : bool :=
  (code "0" <=? code b) && (code b <=? code "9").

(** The loop of [lastIndexIssueRef] from index [i] on, and what follows it. *)
Fixpoint issueRefLoop (l : Reflinker) (begin end' : Z) (fuel : nat) (i : Z)
  : result Z :=
  if begin + i <? end' then
    match fuel with
    | O => OutOfFuel
    | S fuel' =>
        b <- index (src l) (begin + i) ;;
        if isDecimal b then issueRefLoop l begin end' fuel' (i + 1)
        else if (i =? 1) || negb (isBoundary b) then OK (-1)
        else OK (begin + i)
    end
  else if negb (isBoundaryAt l end') then OK (-1)
  else OK end'.

Definition lastIndexIssueRef (l : Reflinker) (begin end' : Z) : result Z :=
  if negb (isBoundaryAt l (begin - 1)) then OK (-1)
  else issueRefLoop l begin end' (Z.to_nat (end' - begin)) 1.

Definition linkIssueRef (l : Reflinker) (begin end' : Z)
  : result (Z * Reflinker) :=
  e <- lastIndexIssueRef l begin end' ;;
  if e <? 0 then OK (begin + 1, l)
  else
    r <- slice (src l) begin e ;;
    r1 <- slice r 1 (len r) ;;
    OK (e, appendLink l
             {| start := begin; end_ := e;
                text := B "[" ++ r ++ B "](" ++ repo l ++ B "/issues/" ++ r1
                          ++ B ")" |}).

(** The loop of [lastIndexUserRef] from index [i] on, and what follows it. *)
Fixpoint userRefLoop (l : Reflinker) (begin end' : Z) (fuel : nat) (i : Z)
  : result Z :=
  if begin + i <? end' then
    match fuel with
    | O => OutOfFuel
    | S fuel' =>
        b <- index (src l) (begin + i) ;;
        if isUserNameChar b then userRefLoop l begin end' fuel' (i + 1)
        else if negb (isBoundary b) || Byte.eqb b "/" then OK (-1)
        else
          p <- index (src l) (begin + i - 1) ;;
          if Byte.eqb p "-" then OK (-1) else OK (begin + i)
    end
  else
    last <- index (src l) (end' - 1) ;;
    if Byte.eqb last "-" then OK (-1)
    else if end' <? len (src l) then
      b <- index (src l) end' ;;
      if negb (isBoundary b) || Byte.eqb b "/" then OK (-1) else OK end'
    else OK end'.

Definition lastIndexUserRef (l : Reflinker) (begin end' : Z) : result Z :=
  if negb (isBoundaryAt l (begin - 1)) then OK (-1)
  else
    b <- index (src l) (begin + 1) ;;
    if negb (isUserNameChar b) || Byte.eqb b "-" then OK (-1)
    else userRefLoop l begin end' (Z.to_nat (end' - begin)) 2.

Definition linkUserRef (l : Reflinker) (begin end' : Z)
  : result (Z * Reflinker) :=
  e <- lastIndexUserRef l begin end' ;;
  if e <? 0 then OK (begin + 1, l)
  else
    u <- slice (src l) begin e ;;
    u1 <- slice u 1 (len u) ;;
    OK (e, appendLink l
             {| start := begin; end_ := e;
                text := B "[" ++ u ++ B "](" ++ home l ++ B "/" ++ u1
                          ++ B ")" |}).

Definition hashLen : Z := 40.

Definition isLowerHex (b : byte) : bool :=
  ((code "0" <=? code b) && (code b <=? code "9"))
  || ((code "a" <=? code b) && (code b <=? code "f")).

(** The loop of [linkCommitSHA] from index [i] on: [Some o] when the loop
    returns [o], [None] when it runs to [hashLen]. *)
Fixpoint commitSHALoop (l : Reflinker) (begin end' : Z) (fuel : nat) (i : Z)
  : result (option Z) :=
  if i <? hashLen then
    match fuel with
    | O => OutOfFuel
    | S fuel' =>
        if begin + i >=? end' then OK (Some (begin + i))
        else
          b <- index (src l) (begin + i) ;;
          if isLowerHex b then commitSHALoop l begin end' fuel' (i + 1)
          else OK (Some (begin + i))
    end
  else OK None.

Definition linkCommitSHA (l : Reflinker) (begin end' : Z)
  : result (Z * Reflinker) :=
  o <- commitSHALoop l begin end' (Z.to_nat hashLen) 1 ;;
  match o with
  | Some o' => OK (o', l)
  | None =>
      if isBoundaryAt l (begin - 1) && isBoundaryAt l (begin + hashLen) then
        h <- slice (src l) begin (begin + hashLen) ;;
        h10 <- slice h 0 10 ;;
        OK (begin + hashLen,
            appendLink l
              {| start := begin; end_ := begin + hashLen;
                 text := B "[`" ++ h10 ++ B "`](" ++ repo l ++ B "/commit/"
                           ++ h ++ B ")" |})
      else OK (begin + hashLen, l)
  end.

(** The loop of [linkGitHubRefs] with the cursor at [o]. *)
Fixpoint gitHubRefsLoop (Stop : Z) (fuel : nat) (o : Z) (l : Reflinker)
  : result Reflinker :=
  if o <? Stop - 1 then
    match fuel with
    | O => OutOfFuel
    | S fuel' =>
        s <- slice (src l) o Stop ;;
        let i := IndexAny s (B "#@1234567890abcdef") in
        if (i <? 0) || (len s - 1 <=? i) then OK l
        else
          c <- index s i ;;
          '(o', l') <-
            (if Byte.eqb c "#" then linkIssueRef l (o + i) Stop
             else if Byte.eqb c "@" then linkUserRef l (o + i) Stop
             else linkCommitSHA l (o + i) Stop) ;;
          gitHubRefsLoop Stop fuel' o' l'
    end
  else OK l.

Definition linkGitHubRefs (l : Reflinker) (t : textm.Segment)
  : result Reflinker :=
  gitHubRefsLoop (textm.Stop t) (Z.to_nat (textm.Stop t - textm.Start t))
                 (textm.Start t) l.

(** The pattern text of [AddExtRef]: the prefix goes into it as it is. *)
Definition extRefPattern (prefix' : bytes) (alphanumeric : bool) : bytes :=
  if alphanumeric then B "\b" ++ prefix' ++ B "[a-zA-Z0-9_]+"
  else B "\b" ++ prefix' ++ B "\d+\b".

Definition AddExtRef (l : Reflinker) (prefix' url' : bytes) (alphanumeric : bool)
  : result Reflinker :=
  r <- regexp.MustCompile (extRefPattern prefix' alphanumeric) ;;
  OK {| repo := repo l; home := home l; src := src l;
        ext := ext l ++ [{| prefix := prefix'; pat := r; url := url' |}];
        links := links l |}.

(** [url.Parse(repoURL)], emptying [u.Path], [u.String()] for a repository URL
    of the form scheme://host/owner/repo, with no user, query or fragment:
    everything before the first [/] that follows [://]. *)
Definition homeOf (repoURL : bytes) : bytes :=
  let i := Index repoURL (B "://") in
  if i <? 0 then []
  else
    let rest := sub repoURL (i + 3) (len repoURL) in
    let j := Index rest (B "/") in
    if j <? 0 then repoURL else sub repoURL 0 (i + 3 + j).

(** [NewReflinker(repoURL)] for a repository URL that [url.Parse]
    accepts.  Where [url.Parse] rejects the URL the source panics
    (reflink.go:70-73) and makes no session; [url.Parse] is not embedded,
    so a statement about [NewReflinker repoURL = OK l] speaks of the URLs
    that [url.Parse] accepts only. *)
Definition NewReflinker (repoURL : bytes) : result Reflinker :=
  let l := {| repo := repoURL; home := homeOf repoURL; src := []; ext := [];
              links := [] |} in
  AddExtRef l (B "GH-") (repoURL ++ B "/issues/<num>") false.

(** The [for _, ext := range l.ext] of [linkExtRef]. *)
Fixpoint extRefLoop (l : Reflinker) (s : bytes) (start' end' : Z)
         (exts : list extRef) : result (Z * Reflinker) :=
  match exts with
  | [] => OK (end', l)
  | x :: exts' =>
      match regexp.FindIndex (pat x) s with
      | Some (s0, e0) =>
          ref <- slice s s0 e0 ;;
          num <- slice ref (len (prefix x)) (len ref) ;;
          let url' := ReplaceAll (url x) (B "<num>") num in
          OK (start' + e0,
              appendLink l
                {| start := start' + s0; end_ := start' + e0;
                   text := B "[" ++ ref ++ B "](" ++ url' ++ B ")" |})
      | None => extRefLoop l s start' end' exts'
      end
  end.

Definition linkExtRef (l : Reflinker) (start' end' : Z)
  : result (Z * Reflinker) :=
  s <- slice (src l) start' end' ;;
  extRefLoop l s start' end' (ext l).

Fixpoint extRefsLoop (Stop : Z) (fuel : nat) (o : Z) (l : Reflinker)
  : result Reflinker :=
  if o <? Stop - 1 then
    match fuel with
    | O => OutOfFuel
    | S fuel' =>
        '(o', l') <- linkExtRef l o Stop ;;
        extRefsLoop Stop fuel' o' l'
    end
  else OK l.

Definition linkExtRefs (l : Reflinker) (t : textm.Segment) : result Reflinker :=
  extRefsLoop (textm.Stop t) (Z.to_nat (textm.Stop t - textm.Start t))
              (textm.Start t) l.

(** [^/([^/]+/[^/]+)/commit/([[:xdigit:]]{7,})$] *)
Definition reGitHubCommitPath : regexp.Regexp :=
  regexp.Seq regexp.Bol
    (regexp.Seq (regexp.Lit (B "/"))
       (regexp.Seq
          (regexp.Group 1
             (regexp.Seq (regexp.Rep regexp.notSlash 1)
                (regexp.Seq (regexp.Lit (B "/"))
                   (regexp.Rep regexp.notSlash 1))))
          (regexp.Seq (regexp.Lit (B "/commit/"))
             (regexp.Seq (regexp.Group 2 (regexp.Rep regexp.isXDigit 7))
                regexp.Eol)))).

Definition linkCommitURL (l : Reflinker) (path : bytes) (m : regexp.found)
           (url' : bytes) (start' end' : Z) : result Reflinker :=
  let slug := regexp.submatch path m 1 in
  let hash := regexp.submatch path m 2 in
  hash' <- (if len hash >? 10 then slice hash 0 10 else OK hash) ;;
  let replaced :=
    if HasPrefix url' (repo l)
    then B "[`" ++ hash' ++ B "`](" ++ url' ++ B ")"
    else B "[" ++ slug ++ B "@`" ++ hash' ++ B "`](" ++ url' ++ B ")" in
  OK (appendLink l {| start := start'; end_ := end'; text := replaced |}).

(** [^/([^/]+/[^/]+)/(?:pull|issues)/(\d+)(#.+)?$] *)
Definition reGitHubIssuePath : regexp.Regexp :=
  regexp.Seq regexp.Bol
    (regexp.Seq (regexp.Lit (B "/"))
       (regexp.Seq
          (regexp.Group 1
             (regexp.Seq (regexp.Rep regexp.notSlash 1)
                (regexp.Seq (regexp.Lit (B "/"))
                   (regexp.Rep regexp.notSlash 1))))
          (regexp.Seq (regexp.Lit (B "/"))
             (regexp.Seq
                (regexp.Alt (regexp.Lit (B "pull")) (regexp.Lit (B "issues")))
                (regexp.Seq (regexp.Lit (B "/"))
                   (regexp.Seq (regexp.Group 2 (regexp.Rep regexp.isDigit 1))
                      (regexp.Seq
                         (regexp.Opt
                            (regexp.Group 3
                               (regexp.Seq (regexp.Lit (B "#"))
                                  (regexp.Rep regexp.anyChar 1))))
                         regexp.Eol))))))).

Definition linkIssueURL (l : Reflinker) (path : bytes) (m : regexp.found)
           (url' : bytes) (start' end' : Z) : Reflinker :=
  let slug := regexp.submatch path m 1 in
  let num := regexp.submatch path m 2 in
  let m3 := regexp.submatch path m 3 in
  let note :=
    if len m3 >? 0 then
      if HasPrefix m3 (B "#pullrequestreview-") then B " (review)"
      else B " (comment)"
    else [] in
  let replaced :=
    if HasPrefix url' (repo l)
    then B "[#" ++ num ++ note ++ B "](" ++ url' ++ B ")"
    else B "[" ++ slug ++ B "#" ++ num ++ note ++ B "](" ++ url' ++ B ")" in
  appendLink l {| start := start'; end_ := end'; text := replaced |}.

(** [linkURL(n)]; [p] is [n.PreviousSibling()] and [u] is [n.URL(l.src)].
    The type assertion on [p] has the one-value form, which panics on a
    sibling that is not a Text node; the [t == nil] that follows it then
    never holds for a tree built by the parser. *)
Definition linkURL (l : Reflinker) (p : option ast.Node) (u : bytes)
  : result Reflinker :=
  start0 <- match p with
            | None => OK 0
            | Some (ast.Text t) => OK (textm.Stop t)
            | Some _ => Panic TypeAssertion
            end ;;
  if negb (HasPrefix u (home l)) then OK l
  else
    tail <- slice (src l) start0 (len (src l)) ;;
    let offset := Index tail u in
    if offset <? 0 then OK l
    else
      let start' := start0 + offset in
      let end' := start' + len u in
      if (start' >=? len (src l)) || (end' >? len (src l)) then OK l
      else
        bracketed <-
          andThen (start' >? 0)
            (b <- index (src l) (start' - 1) ;;
             andThen (Byte.eqb b "<")
               (andThen (end' <? len (src l))
                  (a <- index (src l) end' ;; OK (Byte.eqb a ">")))) ;;
        if bracketed then OK l
        else
          path <- slice u (len (home l)) (len u) ;;
          match regexp.FindSubmatch reGitHubCommitPath path with
          | Some m => linkCommitURL l path m u start' end'
          | None =>
              match regexp.FindSubmatch reGitHubIssuePath path with
              | Some m => OK (linkIssueURL l path m u start' end')
              | None => OK l
              end
          end.

(** The loop of [buildLinkedText] over the sorted links; [out] is the
    builder and [i] the offset up to which the source is consumed. *)
Fixpoint buildLoop (s : bytes) (rs : list refLink) (i : Z) (out : bytes)
  : result bytes :=
  match rs with
  | [] =>
      rest <- slice s i (len s) ;;
      OK (out ++ rest)
  | r :: rs' =>
      gap <- slice s i (start r) ;;
      buildLoop s rs' (end_ r) (out ++ gap ++ text r)
  end.

Definition buildLinkedText (l : Reflinker) : result bytes :=
  buildLoop (src l) (sortByStart (links l)) 0 [].

Definition isLinkDetected (l : Reflinker) : bool := len (links l) >? 0.

(** The function handed to [ast.Walk] in [Link], on entering [n] whose
    previous sibling is [p]. On leaving a node it does nothing. *)
Definition visit (n : ast.Node) (p : option ast.Node) (l : Reflinker)
  : result (ast.WalkStatus * Reflinker) :=
  match n with
  | ast.CodeSpan _ | ast.Link _ => OK (ast.WalkSkipChildren, l)
  | ast.AutoLink u =>
      l' <- linkURL l p u ;;
      OK (ast.WalkSkipChildren, l')
  | ast.Text t =>
      l1 <- linkGitHubRefs l t ;;
      l2 <- linkExtRefs l1 t ;;
      OK (ast.WalkContinue, l2)
  | ast.Other _ => OK (ast.WalkContinue, l)
  end.

(** [ast.Walk]: the node, then its children from first to last unless the
    visitor asked to skip them. *)
Fixpoint Walk (n : ast.Node) (p : option ast.Node) (l : Reflinker)
  : result Reflinker :=
  let walkChildren :=
    fix walkChildren (cs : list ast.Node) (p : option ast.Node)
        (l : Reflinker) : result Reflinker :=
      match cs with
      | [] => OK l
      | c :: cs' =>
          l' <- Walk c p l ;;
          walkChildren cs' (Some c) l'
      end in
  '(st, l') <- visit n p l ;;
  match st with
  | ast.WalkSkipChildren => OK l'
  | ast.WalkContinue =>
      match n with
      | ast.Text _ | ast.AutoLink _ => OK l'
      | ast.CodeSpan cs | ast.Link cs | ast.Other cs => walkChildren cs None l'
      end
  end.

(** [Link(input)], with [t] the tree the parser returns for [input]. *)
Definition Link (l : Reflinker) (t : ast.Node) (input : bytes) : result bytes :=
  let l0 := reset l input in
  l1 <- Walk t None l0 ;;
  if negb (isLinkDetected l1) then OK input
  else buildLinkedText l1.

(** The tree of a document that is one paragraph of one line of plain
    text: a single Text node over the whole input. *)
Definition prose (input : bytes) : ast.Node :=
  ast.Other [ast.Other [ast.Text {| textm.Start := 0; textm.Stop := len input |}]].

(** The session that [NewReflinker] returns for https://github.com/o/r. *)
Definition gh : Reflinker :=
  {| repo := B "https://github.com/o/r";
     home := B "https://github.com";
     src := [];
     ext := [ {| prefix := B "GH-";
                 pat := regexp.Seq regexp.WordB
                          (regexp.Seq (regexp.Lit (B "GH-"))
                             (regexp.Seq (regexp.Rep regexp.isDigit 1) regexp.WordB));
                 url := B "https://github.com/o/r/issues/<num>" |} ];
     links := [] |}.

(** ** The vocabulary of the properties

    The definitions below state what the engine is to do. They do not
    follow the loops of the source: a matcher is described by the run of
    bytes it reads in the segment and by the bytes at the two ends. *)

Definition nl : bytes := ["010"%byte].

(** The issue matcher, called on a [#] at [begin] in the segment that ends
    at [end']: the digits that follow inside the segment. *)
Definition digitRun (l : Reflinker) (begin end' : Z) : Z :=
  Z.of_nat (runLen isDecimal (sub (src l) (begin + 1) end')).

(** Acceptance of an issue reference as the code decides it: a boundary
    before [#], at least one digit, and a boundary (or the end of the
    buffer) after the digits, also when the digits end the segment. *)
Definition issueRefAccepted (l : Reflinker) (begin end' : Z) : bool :=
  isBoundaryAt l (begin - 1)
  && (1 <=? digitRun l begin end')
  && isBoundaryAt l (begin + 1 + digitRun l begin end').

(** Acceptance of an issue reference in the words of the specification:
    digits that run to the end of the segment are accepted as they are. *)
Definition issueRefClaimed (l : Reflinker) (begin end' : Z) : bool :=
  isBoundaryAt l (begin - 1)
  && (1 <=? digitRun l begin end')
  && ((begin + 1 + digitRun l begin end' =? end')
      || isBoundaryAt l (begin + 1 + digitRun l begin end')).

Definition issueRefText (l : Reflinker) (digits : bytes) : bytes :=
  B "[#" ++ digits ++ B "](" ++ repo l ++ B "/issues/" ++ digits ++ B ")".

(** Whether the byte at offset [i] of the buffer exists and is in [cls]. *)
Definition classAt (cls : byte -> bool) (l : Reflinker) (i : Z) : bool :=
  if i <? 0 then false
  else match nth_error (src l) (Z.to_nat i) with
       | Some b => cls b
       | None => false
       end.

Definition isAlnum (b : byte) : bool := negb (isBoundary b).

Definition isByte (c : byte) (b : byte) : bool := Byte.eqb b c.

(** The mention matcher, called on an [@] at [begin]: the bytes of
    [0-9a-zA-Z-] that follow inside the segment. *)
Definition nameRun (l : Reflinker) (begin end' : Z) : Z :=
  Z.of_nat (runLen isUserNameChar (sub (src l) (begin + 1) end')).

(** Acceptance of a mention: a boundary before [@], an alphanumeric first
    byte, a run that does not end in [-], and after the run either the end
    of the buffer or a boundary other than [/]. *)
Definition userRefAccepted (l : Reflinker) (begin end' : Z) : bool :=
  let t := begin + 1 + nameRun l begin end' in
  isBoundaryAt l (begin - 1)
  && classAt isAlnum l (begin + 1)
  && negb (classAt (isByte "-") l (t - 1))
  && isBoundaryAt l t
  && negb (classAt (isByte "/") l t).

Definition userRefText (l : Reflinker) (name : bytes) : bytes :=
  B "[@" ++ name ++ B "](" ++ home l ++ B "/" ++ name ++ B ")".

(** The commit matcher, called on a byte of [0-9a-f] at [begin]: the bytes
    of [0-9a-f] from [begin] on inside the segment. *)
Definition hexRun (l : Reflinker) (begin end' : Z) : Z :=
  Z.of_nat (runLen isLowerHex (sub (src l) begin end')).

(** Acceptance of a commit hash: a run of exactly 40, with a boundary or a
    buffer edge on each side. *)
Definition commitAccepted (l : Reflinker) (begin end' : Z) : bool :=
  (hexRun l begin end' =? hashLen)
  && isBoundaryAt l (begin - 1)
  && isBoundaryAt l (begin + hashLen).

(** A hash of 40 hexadecimal digits, and its first 39. *)
Definition sha40 : bytes := B "0123456789abcdef0123456789abcdef01234567".

Definition sha39 : bytes := B "0123456789abcdef0123456789abcdef0123456".

Definition commitText (l : Reflinker) (h : bytes) : bytes :=
  B "[`" ++ sub h 0 10 ++ B "`](" ++ repo l ++ B "/commit/" ++ h ++ B ")".

(** A span that is not empty and lies in the buffer [s]. *)
Definition inBuffer (s : bytes) (r : refLink) : Prop :=
  0 <= start r /\ start r < end_ r /\ end_ r <= len s.

(** Two spans that share no byte. *)
Definition disjoint (a b : refLink) : Prop :=
  end_ a <= start b \/ end_ b <= start a.

Definition startsBefore (a b : refLink) : Prop := start a <= start b.

(** [g1 ++ f1 ++ g2 ++ f2 ++ ... ++ last]: the gaps [g] of a text with a
    filling [f] after each gap. *)
Fixpoint weave (gaps fills : list bytes) (last : bytes) : bytes :=
  match gaps, fills with
  | g :: gs, f :: fs => g ++ f ++ weave gs fs last
  | _, _ => last
  end.

(** The bytes of the source that the span [r] covers. *)
Definition covered (s : bytes) (r : refLink) : bytes := sub s (start r) (end_ r).

(** The source between the spans [rs], read from offset [i] on: what lies
    before the first span, then what lies between each span and the next. *)
Fixpoint gapsBefore (s : bytes) (i : Z) (rs : list refLink) : list bytes :=
  match rs with
  | [] => []
  | r :: rs' => sub s i (start r) :: gapsBefore s (end_ r) rs'
  end.

(** The source after the last of the spans [rs], or from [i] on when
    there is none. *)
Fixpoint restAfter (s : bytes) (i : Z) (rs : list refLink) : bytes :=
  match rs with
  | [] => sub s i (len s)
  | r :: rs' => restAfter s (end_ r) rs'
  end.

(** Spans laid out from offset [i] on, in order, without crossing. *)
Fixpoint chain (i : Z) (rs : list refLink) (n : Z) : Prop :=
  match rs with
  | [] => i <= n
  | r :: rs' => i <= start r /\ start r <= end_ r /\ chain (end_ r) rs' n
  end.

(** [\b], the prefix as literal text, and a run of the suffix class,
    closed by [\b] when the suffix is numeric. *)
Definition extPattern (prefix' : bytes) (alphanumeric : bool) : regexp.Regexp :=
  if alphanumeric then
    regexp.Seq regexp.WordB
      (regexp.Seq (regexp.Lit prefix') (regexp.Rep regexp.isWord 1))
  else
    regexp.Seq regexp.WordB
      (regexp.Seq (regexp.Lit prefix')
         (regexp.Seq (regexp.Rep regexp.isDigit 1) regexp.WordB)).

(** The class of the suffix of an external reference. *)
Definition suffixClass (alphanumeric : bool) : byte -> bool :=
  if alphanumeric then regexp.isWord else regexp.isDigit.

(** The pattern of the entry finds what [extPattern] finds for its
    prefix: it reads the prefix as literal text. *)
Definition registered (x : extRef) (alphanumeric : bool) : Prop :=
  forall s : bytes,
    regexp.FindIndex (pat x) s
    = regexp.FindIndex (extPattern (prefix x) alphanumeric) s.

(** A prefix that a pattern reads as literal text: bytes of ASCII, none
    of them one that [regexp.QuoteMeta] escapes, and 900 of them at most. *)
Definition literalPrefix (p : bytes) : bool :=
  (length p <=? 900)%nat
  && forallb (fun b => regexp.isASCII b && negb (regexp.isMeta b)) p.

(** An entry of [l.ext] that [AddExtRef] makes from a literal prefix: its
    pattern is what [regexp.MustCompile] returns for the pattern text. *)
Definition literalEntry (x : extRef) : Prop :=
  literalPrefix (prefix x) = true
  /\ exists alphanumeric : bool,
       regexp.MustCompile (extRefPattern (prefix x) alphanumeric) = OK (pat x).

(** Every entry of [l.ext] was made by [AddExtRef] from a literal prefix. *)
Definition literalEntries (l : Reflinker) : Prop :=
  Forall literalEntry (ext l).

(** [\b] holds at offset [pos] of [text]. *)
Definition wordBoundary (text : bytes) (pos : Z) : bool :=
  xorb (regexp.wordBefore text (Z.to_nat pos)) (regexp.wordAt text (Z.to_nat pos)).

Definition extRefText (x : extRef) (suffix : bytes) : bytes :=
  B "[" ++ prefix x ++ suffix ++ B "](" ++ ReplaceAll (url x) (B "<num>") suffix
    ++ B ")".





(** A path segment: not empty, without [/]. *)
Definition segmentName (s : bytes) : Prop :=
  s <> [] /\ forallb regexp.notSlash s = true.

(** [/<owner>/<repo>] and what follows it. *)
Definition slugPath (owner rp tail : bytes) : bytes :=
  B "/" ++ owner ++ B "/" ++ rp ++ tail.

(** The offset at which [/<owner>/<repo>] ends. *)
Definition slugEnd (owner rp : bytes) : nat :=
  (2 + length owner + length rp)%nat.

(** [/<owner>/<repo>/commit/<hash>]. *)
Definition commitPath (owner rp hash : bytes) : bytes :=
  B "/" ++ owner ++ B "/" ++ rp ++ B "/commit/" ++ hash.

(** [/<owner>/<repo>/<kind>/<number><fragment>]. *)
Definition issuePath (owner rp kind num frag : bytes) : bytes :=
  B "/" ++ owner ++ B "/" ++ rp ++ B "/" ++ kind ++ B "/" ++ num ++ frag.

(** No fragment, or [#] and at least one more byte, none a line feed. *)
Definition fragment (frag : bytes) : Prop :=
  frag = []
  \/ exists f : bytes,
       frag = B "#" ++ f /\ f <> [] /\ forallb regexp.anyChar f = true.

Definition fragmentNote (frag : bytes) : bytes :=
  match frag with
  | [] => []
  | _ => if HasPrefix frag (B "#pullrequestreview-") then B " (review)"
         else B " (comment)"
  end.

(** The URL at [start', end') of the buffer is written between [<] and [>]. *)
Definition bracketed (l : Reflinker) (start' end' : Z) : bool :=
  classAt (isByte "<") l (start' - 1) && classAt (isByte ">") l end'.

(** Where [linkURL] starts its search: the end of the previous sibling
    when that is a Text node, the start of the buffer without a sibling. *)
Definition siblingStop (p : option ast.Node) : option Z :=
  match p with
  | None => Some 0
  | Some (ast.Text t) => Some (textm.Stop t)
  | Some _ => None
  end.

(** [([^/]+/[^/]+)], the first group of both path patterns. *)
Definition slugGroup : regexp.Regexp :=
  regexp.Group 1
    (regexp.Seq (regexp.Rep regexp.notSlash 1)
       (regexp.Seq (regexp.Lit (B "/")) (regexp.Rep regexp.notSlash 1))).

(** What a matcher leaves of the session: everything but new links. *)
Definition extends (l l' : Reflinker) : Prop :=
  repo l' = repo l /\ home l' = home l /\ src l' = src l /\ ext l' = ext l
  /\ exists added : list refLink, links l' = links l ++ added.

(** A tree over the buffer [s] on which the walk meets no run-time check
    that fails: the segment of every Text node outside code spans and
    links lies in [s], and every AutoLink outside them has a Text node
    or nothing before it. [p] is the previous sibling of the node. *)
Fixpoint walkable (s : bytes) (n : ast.Node) (p : option ast.Node) : Prop :=
  let siblings :=
    fix siblings (cs : list ast.Node) (p : option ast.Node) : Prop :=
      match cs with
      | [] => True
      | c :: cs' => walkable s c p /\ siblings cs' (Some c)
      end in
  match n with
  | ast.Text t => 0 <= textm.Start t <= textm.Stop t /\ textm.Stop t <= len s
  | ast.AutoLink _ =>
      match p with
      | None => True
      | Some (ast.Text t) => 0 <= textm.Stop t <= len s
      | Some _ => False
      end
  | ast.CodeSpan _ | ast.Link _ => True
  | ast.Other cs => siblings cs None
  end.

(** The pattern of every entry of [l.ext] reads the prefix as literal
    text. *)
Definition allRegistered (l : Reflinker) : Prop :=
  Forall (fun x => exists alphanumeric : bool, registered x alphanumeric) (ext l).


(** ** The vocabulary of the properties of the passes and of the walk *)

(** The session [l] with the spans [more] appended to its links. *)
Definition withLinks (l : Reflinker) (more : list refLink) : Reflinker :=
  {| repo := repo l; home := home l; src := src l; ext := ext l;
     links := links l ++ more |}.

(** The span of an accepted issue reference whose [#] is at [begin]. *)
Definition issueSpan (l : Reflinker) (begin stop : Z) : refLink :=
  let e := begin + 1 + digitRun l begin stop in
  {| start := begin; end_ := e;
     text := issueRefText l (sub (src l) (begin + 1) e) |}.

(** The span of an accepted mention whose [@] is at [begin]. *)
Definition userSpan (l : Reflinker) (begin stop : Z) : refLink :=
  let e := begin + 1 + nameRun l begin stop in
  {| start := begin; end_ := e;
     text := userRefText l (sub (src l) (begin + 1) e) |}.

(** The span of an accepted commit hash that starts at [begin]. *)
Definition commitSpan (l : Reflinker) (begin : Z) : refLink :=
  {| start := begin; end_ := begin + hashLen;
     text := commitText l (sub (src l) begin (begin + hashLen)) |}.

(** The bytes at which the primary pass calls a matcher. *)
Definition triggers : bytes := B "#@1234567890abcdef".

(** The reference that starts at offset [p] of a segment that ends at
    [stop], with the span that links it: what the three matchers accept,
    the matcher chosen by the byte at [p]. *)
Definition referenceAt (l : Reflinker) (p stop : Z) : option refLink :=
  if classAt (isByte "#") l p then
    if issueRefAccepted l p stop then Some (issueSpan l p stop) else None
  else if classAt (isByte "@") l p then
    if userRefAccepted l p stop then Some (userSpan l p stop) else None
  else if commitAccepted l p stop then Some (commitSpan l p)
  else None.

(** The span [r] holds the byte at offset [p]. *)
Definition covers (r : refLink) (p : Z) : Prop := start r <= p < end_ r.

(** A span over a registered prefix and a suffix of its class, linked by
    the URL of that entry. *)
Definition extSpan (l : Reflinker) (r : refLink) : Prop :=
  exists (x : extRef) (alphanumeric : bool) (suffix : bytes),
    In x (ext l) /\ registered x alphanumeric
    /\ covered (src l) r = prefix x ++ suffix
    /\ end_ r - start r = len (prefix x) + len suffix
    /\ suffix <> [] /\ forallb (suffixClass alphanumeric) suffix = true
    /\ text r = extRefText x suffix.

(** The byte [c] does not occur in [s]. *)
Definition free (c : byte) (s : bytes) : Prop :=
  forallb (fun b => negb (Byte.eqb b c)) s = true.

(** The offset [i] is the first one, from [from] on, at which [u] occurs
    in [s]. *)
Definition firstOccurrence (s u : bytes) (from i : Z) : Prop :=
  from <= i /\ i + len u <= len s /\ sub s i (i + len u) = u
  /\ forall j : Z, from <= j < i -> HasPrefix (skipn (Z.to_nat j) s) u = false.








(** No issue reference, mention or commit hash starts in the segment [t]. *)
Definition noReference (l : Reflinker) (t : textm.Segment) : Prop :=
  forall p : Z,
    textm.Start t <= p < textm.Stop t -> referenceAt l p (textm.Stop t) = None.


(** What the walk meets, in its order: the Text nodes and the AutoLinks
    outside code spans and links, each AutoLink with its previous
    sibling. *)
Inductive item : Type :=
| TextItem (t : textm.Segment)
| URLItem (p : option ast.Node) (u : bytes).

Fixpoint visibleItems (n : ast.Node) (p : option ast.Node) : list item :=
  let many :=
    fix many (cs : list ast.Node) (p : option ast.Node) : list item :=
      match cs with
      | [] => []
      | c :: cs' => visibleItems c p ++ many cs' (Some c)
      end in
  match n with
  | ast.Text t => [TextItem t]
  | ast.AutoLink u => [URLItem p u]
  | ast.Other cs => many cs None
  | ast.CodeSpan _ | ast.Link _ => []
  end.

(** The engine recognizes no reference at the item: no issue reference,
    mention or commit hash starts in the Text segment and no pattern of
    [l.ext] matches in it; the URL of the AutoLink does not start with
    [l.home], or the path after [l.home] is neither a commit path nor an
    issue path. *)
Definition unrecognized (l : Reflinker) (i : item) : Prop :=
  match i with
  | TextItem t =>
      noReference l t
      /\ Forall (fun x => regexp.FindIndex (pat x)
                            (sub (src l) (textm.Start t) (textm.Stop t)) = None)
                (ext l)
  | URLItem _ u =>
      HasPrefix u (home l) = false
      \/ (regexp.FindSubmatch reGitHubCommitPath (sub u (len (home l)) (len u)) = None
          /\ regexp.FindSubmatch reGitHubIssuePath (sub u (len (home l)) (len u))
             = None)
  end.

(** The item meets no run-time check of the walk that fails: the
    segment of the Text node lies in the buffer [s], and the AutoLink has
    a Text node that ends in [s], or nothing, before it. *)
Definition placed (s : bytes) (i : item) : Prop :=
  match i with
  | TextItem t => 0 <= textm.Start t <= textm.Stop t /\ textm.Stop t <= len s
  | URLItem p _ =>
      exists start0 : Z, siblingStop p = Some start0 /\ 0 <= start0 <= len s
  end.






(** The handlers of the walk run over a list of items, one after the
    other: the two passes on a Text node, [linkURL] on an AutoLink. *)
Fixpoint runItems (items : list item) (l : Reflinker) : result Reflinker :=
  match items with
  | [] => OK l
  | TextItem t :: rest =>
      l1 <- linkGitHubRefs l t ;;
      l2 <- linkExtRefs l1 t ;;
      runItems rest l2
  | URLItem p u :: rest =>
      l' <- linkURL l p u ;;
      runItems rest l'
  end.

(** ** Slices and indices *)

Lemma len_nonneg {A : Type} (s : list A) : 0 <= len s.
Proof. unfold len. lia. Qed.

Lemma len_app {A : Type} (a b : list A) : len (a ++ b) = len a + len b.
Proof. unfold len. rewrite length_app. lia. Qed.

Lemma index_nth (s : bytes) (i : Z) :
  0 <= i < len s ->
  exists b, nth_error s (Z.to_nat i) = Some b /\ index s i = OK b.
Proof.
  intros Hi. unfold index.
  replace ((0 <=? i) && (i <? len s)) with true
    by (symmetry; apply andb_true_iff; split; [apply Z.leb_le | apply Z.ltb_lt]; lia).
  destruct (nth_error s (Z.to_nat i)) as [b|] eqn:E.
  - exists b. split; reflexivity.
  - apply nth_error_None in E. unfold len in Hi. lia.
Qed.

Lemma slice_sub (s : bytes) (lo hi : Z) :
  0 <= lo <= hi -> hi <= len s -> slice s lo hi = OK (sub s lo hi).
Proof.
  intros H1 H2. unfold slice.
  replace ((0 <=? lo) && (lo <=? hi) && (hi <=? len s)) with true; [reflexivity|].
  symmetry. rewrite !andb_true_iff. repeat split; apply Z.leb_le; lia.
Qed.

Lemma sub_empty (s : bytes) (lo hi : Z) : hi <= lo -> sub s lo hi = [].
Proof.
  intros H. unfold sub. replace (Z.to_nat (hi - lo)) with O by lia. reflexivity.
Qed.

Lemma sub_cons (s : bytes) (lo hi : Z) :
  0 <= lo < hi -> hi <= len s ->
  exists b, nth_error s (Z.to_nat lo) = Some b /\ sub s lo hi = b :: sub s (lo + 1) hi.
Proof.
  intros H1 H2.
  destruct (index_nth s lo) as [b [Hb _]]; [lia|].
  exists b. split; [exact Hb|].
  unfold sub.
  replace (Z.to_nat (hi - lo)) with (S (Z.to_nat (hi - (lo + 1)))) by lia.
  replace (Z.to_nat (lo + 1)) with (S (Z.to_nat lo)) by lia.
  revert Hb. generalize (Z.to_nat lo) as n. clear.
  induction s as [|c s IH]; intros n Hb.
  - destruct n; discriminate.
  - destruct n as [|n].
    + simpl in Hb. injection Hb as ->. reflexivity.
    + simpl in Hb. simpl skipn at 1. rewrite (IH n Hb). reflexivity.
Qed.

Lemma len_sub (s : bytes) (lo hi : Z) :
  0 <= lo <= hi -> hi <= len s -> len (sub s lo hi) = hi - lo.
Proof.
  intros H1 H2. unfold sub, len in *.
  rewrite length_firstn, length_skipn. lia.
Qed.


Lemma firstn_plus {A : Type} (a b : nat) (s : list A) :
  firstn (a + b) s = firstn a s ++ firstn b (skipn a s).
Proof.
  revert s. induction a as [|a IH]; intros s; [reflexivity|].
  destruct s as [|c s]; simpl.
  - now rewrite firstn_nil.
  - now rewrite IH.
Qed.

Lemma sub_split (s : bytes) (lo mid hi : Z) :
  0 <= lo <= mid -> mid <= hi ->
  sub s lo hi = sub s lo mid ++ sub s mid hi.
Proof.
  intros H1 H2. unfold sub.
  replace (Z.to_nat (hi - lo)) with (Z.to_nat (mid - lo) + Z.to_nat (hi - mid))%nat by lia.
  rewrite firstn_plus. f_equal. rewrite skipn_skipn.
  replace (Z.to_nat (mid - lo) + Z.to_nat lo)%nat with (Z.to_nat mid) by lia.
  reflexivity.
Qed.

Lemma nth_error_sub (s : bytes) (lo hi : Z) (j : nat) :
  0 <= lo -> lo + Z.of_nat j < hi ->
  nth_error (sub s lo hi) j = nth_error s (Z.to_nat (lo + Z.of_nat j)).
Proof.
  intros H1 H2. unfold sub.
  rewrite nth_error_firstn.
  replace (j <? Z.to_nat (hi - lo))%nat with true by (symmetry; apply Nat.ltb_lt; lia).
  rewrite nth_error_skipn. f_equal. lia.
Qed.

Lemma isBoundaryAt_nth (l : Reflinker) (i : Z) (b : byte) :
  0 <= i -> nth_error (src l) (Z.to_nat i) = Some b ->
  isBoundaryAt l i = isBoundary b.
Proof.
  intros Hi Hb. unfold isBoundaryAt.
  assert (i < len (src l)).
  { assert (Z.to_nat i < length (src l))%nat by (apply nth_error_Some; congruence).
    unfold len. lia. }
  replace ((i <? 0) || (len (src l) <=? i)) with false.
  - rewrite Hb. reflexivity.
  - symmetry. apply orb_false_iff. split; [apply Z.ltb_ge | apply Z.leb_gt]; lia.
Qed.

Lemma isBoundaryAt_outside (l : Reflinker) (i : Z) :
  i < 0 \/ len (src l) <= i -> isBoundaryAt l i = true.
Proof.
  intros H. unfold isBoundaryAt.
  replace ((i <? 0) || (len (src l) <=? i)) with true; [reflexivity|].
  symmetry. apply orb_true_iff.
  destruct H; [left; apply Z.ltb_lt | right; apply Z.leb_le]; lia.
Qed.

Lemma sub_tail (c : byte) (t : bytes) : sub (c :: t) 1 (len (c :: t)) = t.
Proof.
  unfold sub, len. simpl length.
  replace (Z.to_nat (Z.of_nat (S (length t)) - 1)) with (length t) by lia.
  simpl. apply firstn_all.
Qed.

Lemma runLen_le (cls : byte -> bool) (s : bytes) : (runLen cls s <= length s)%nat.
Proof. induction s as [|c s IH]; simpl; [lia|]. destruct (cls c); lia. Qed.

Lemma runLen_forallb (cls : byte -> bool) (s : bytes) :
  forallb cls (firstn (runLen cls s) s) = true.
Proof.
  induction s as [|c s IH]; simpl; [reflexivity|].
  destruct (cls c) eqn:E; simpl; [rewrite E; exact IH | reflexivity].
Qed.

Lemma runLen_sub_prefix (cls : byte -> bool) (s : bytes) (lo hi : Z) :
  0 <= lo <= hi ->
  let k := Z.of_nat (runLen cls (sub s lo hi)) in
  sub s lo (lo + k) = firstn (runLen cls (sub s lo hi)) (sub s lo hi).
Proof.
  intros H k. subst k.
  pose proof (runLen_le cls (sub s lo hi)) as Hle.
  remember (runLen cls (sub s lo hi)) as r eqn:Hr. clear Hr.
  unfold sub in *. rewrite length_firstn in Hle.
  rewrite firstn_firstn. f_equal. lia.
Qed.

Lemma runLen_class (cls : byte -> bool) (s : bytes) (j : nat) (b : byte) :
  (j < runLen cls s)%nat -> nth_error s j = Some b -> cls b = true.
Proof.
  revert j. induction s as [|c s IH]; intros j Hj Hn; simpl in Hj; [lia|].
  destruct (cls c) eqn:E; [|lia].
  destruct j as [|j]; simpl in Hn.
  - injection Hn as <-. exact E.
  - apply (IH j); [lia | exact Hn].
Qed.

Lemma runLen_stop (cls : byte -> bool) (s : bytes) (b : byte) :
  nth_error s (runLen cls s) = Some b -> cls b = false.
Proof.
  induction s as [|c s IH]; simpl; [discriminate|].
  destruct (cls c) eqn:E; simpl; [exact IH|].
  intros H. injection H as <-. exact E.
Qed.

Lemma classAt_nth (cls : byte -> bool) (l : Reflinker) (i : Z) (b : byte) :
  0 <= i -> nth_error (src l) (Z.to_nat i) = Some b -> classAt cls l i = cls b.
Proof.
  intros Hi Hb. unfold classAt.
  replace (i <? 0) with false by (symmetry; apply Z.ltb_ge; lia).
  rewrite Hb. reflexivity.
Qed.

Lemma classAt_outside (cls : byte -> bool) (l : Reflinker) (i : Z) :
  i < 0 \/ len (src l) <= i -> classAt cls l i = false.
Proof.
  intros H. unfold classAt.
  destruct (i <? 0) eqn:E; [reflexivity|]. apply Z.ltb_ge in E.
  destruct (nth_error (src l) (Z.to_nat i)) eqn:En; [|reflexivity].
  assert (Z.to_nat i < length (src l))%nat by (apply nth_error_Some; congruence).
  unfold len in H. lia.
Qed.

Lemma isUserNameChar_alnum (b : byte) :
  isUserNameChar b = isAlnum b || isByte "-" b.
Proof.
  unfold isUserNameChar, isAlnum, isBoundary, isByte.
  destruct (((code "0" <=? code b) && (code b <=? code "9"))
            || ((code "a" <=? code b) && (code b <=? code "z"))
            || ((code "A" <=? code b) && (code b <=? code "Z"))); reflexivity.
Qed.

Lemma isByte_eq (c b : byte) : isByte c b = true -> b = c.
Proof. unfold isByte. apply Byte.byte_dec_bl. Qed.

Lemma isLowerHex_alnum (b : byte) : isLowerHex b = true -> isBoundary b = false.
Proof.
  unfold isLowerHex, isBoundary. intros H.
  destruct ((code "0" <=? code b) && (code b <=? code "9")) eqn:E1; [reflexivity|].
  simpl in H. apply andb_true_iff in H as [H1 H2].
  apply Z.leb_le in H1, H2.
  replace ((code "a" <=? code b) && (code b <=? code "z")) with true; [reflexivity|].
  symmetry. apply andb_true_iff. change (code "f") with 102 in H2.
  change (code "z") with 122.
  split; apply Z.leb_le; lia.
Qed.

(** ** The matcher *)

Lemma tryDown_first {R : Type} (k : nat -> option R) (lo n : nat) (r : R) :
  k (lo + n)%nat = Some r -> regexp.tryDown k lo n = Some r.
Proof. intros H. destruct n; simpl; rewrite H; reflexivity. Qed.

Lemma tryDown_Some {R : Type} (k : nat -> option R) (lo n : nat) (r : R) :
  regexp.tryDown k lo n = Some r ->
  exists j : nat, (lo <= j <= lo + n)%nat /\ k j = Some r.
Proof.
  induction n as [|n IH]; simpl.
  - destruct (k (lo + 0)%nat) eqn:E; [|discriminate].
    intros H. injection H as <-. exists (lo + 0)%nat. split; [lia | exact E].
  - destruct (k (lo + S n)%nat) eqn:E.
    + intros H. injection H as <-. exists (lo + S n)%nat. split; [lia | exact E].
    + intros H. destruct (IH H) as [j [Hj Hk]]. exists j. split; [lia | exact Hk].
Qed.

Lemma tryDown_None {R : Type} (k : nat -> option R) (lo n : nat) :
  (forall j : nat, (lo <= j <= lo + n)%nat -> k j = None) ->
  regexp.tryDown k lo n = None.
Proof.
  induction n as [|n IH]; intros H; simpl.
  - rewrite H by lia. reflexivity.
  - rewrite H by lia. apply IH. intros j Hj. apply H. lia.
Qed.

(** Greedy repetition when every shorter choice fails: only the longest
    run is left. *)
Lemma tryDown_last {R : Type} (k : nat -> option R) (lo n : nat) :
  (forall j : nat, (lo <= j < lo + n)%nat -> k j = None) ->
  regexp.tryDown k lo n = k (lo + n)%nat.
Proof.
  intros H. destruct (k (lo + n)%nat) eqn:E.
  - apply tryDown_first. exact E.
  - apply tryDown_None. intros j Hj.
    destruct (Nat.eq_dec j (lo + n)) as [->|Hne]; [exact E | apply H; lia].
Qed.

Lemma findFrom_Some (r : regexp.Regexp) (text : bytes) (n s : nat) (m : regexp.found) :
  regexp.findFrom r text n s = Some m ->
  exists s' : nat,
    (s <= s' <= s + n)%nat
    /\ regexp.matchAt regexp.found text r s' [] (fun e c => Some (s', e, c)) = Some m
    /\ forall s'' : nat, (s <= s'' < s')%nat ->
         regexp.matchAt regexp.found text r s'' [] (fun e c => Some (s'', e, c)) = None.
Proof.
  revert s. induction n as [|n IH]; intros s; simpl.
  - destruct (regexp.matchAt _ text r s [] _) eqn:E; [|discriminate].
    intros H. injection H as <-. exists s. repeat split; [lia | lia | exact E |].
    intros; lia.
  - destruct (regexp.matchAt _ text r s [] _) eqn:E.
    + intros H. injection H as <-. exists s. repeat split; [lia | lia | exact E |].
      intros; lia.
    + intros H. destruct (IH _ H) as [s' [Hs [Hm Hleft]]].
      exists s'. repeat split; [lia | lia | exact Hm |].
      intros s'' Hs''. destruct (Nat.eq_dec s'' s) as [->|Hne]; [exact E|].
      apply Hleft. lia.
Qed.

Lemma findFrom_None (r : regexp.Regexp) (text : bytes) (n s : nat) :
  (forall s' : nat, (s <= s' <= s + n)%nat ->
     regexp.matchAt regexp.found text r s' [] (fun e c => Some (s', e, c)) = None) ->
  regexp.findFrom r text n s = None.
Proof.
  revert s. induction n as [|n IH]; intros s H; simpl.
  - rewrite H by lia. reflexivity.
  - rewrite H by lia. apply IH. intros s' Hs'. apply H. lia.
Qed.

Lemma find_at_start (r : regexp.Regexp) (text : bytes) (m : regexp.found) :
  regexp.matchAt regexp.found text r 0 [] (fun e c => Some (0%nat, e, c)) = Some m ->
  regexp.find r text = Some m.
Proof.
  intros H. unfold regexp.find. destruct (length text); simpl; rewrite H; reflexivity.
Qed.

(** ** Prefixes *)

Lemma HasPrefix_app (p s : bytes) : HasPrefix (p ++ s) p = true.
Proof.
  induction p as [|c p IH]; simpl; [reflexivity|].
  rewrite IH, andb_true_r. apply Byte.byte_dec_lb. reflexivity.
Qed.

Lemma HasPrefix_split (s p : bytes) :
  HasPrefix s p = true -> s = p ++ skipn (length p) s.
Proof.
  revert s. induction p as [|c p IH]; intros s H; simpl in *; [reflexivity|].
  destruct s as [|d s]; [discriminate|].
  apply andb_true_iff in H as [H1 H2].
  apply Byte.byte_dec_bl in H1. subst d. simpl. f_equal. apply IH. exact H2.
Qed.

Lemma HasPrefix_head (c d : byte) (s p : bytes) :
  Byte.eqb c d = false -> HasPrefix (c :: s) (d :: p) = false.
Proof. intros H. simpl. rewrite H. reflexivity. Qed.

Lemma runLen_app (cls : byte -> bool) (a b : bytes) :
  forallb cls a = true -> runLen cls (a ++ b) = (length a + runLen cls b)%nat.
Proof.
  induction a as [|c a IH]; simpl; [reflexivity|].
  intros H. apply andb_true_iff in H as [H1 H2]. rewrite H1, IH by exact H2.
  reflexivity.
Qed.

Lemma skipn_length_app {A : Type} (a b : list A) (n : nat) :
  n = length a -> skipn n (a ++ b) = b.
Proof.
  intros ->. rewrite skipn_app, skipn_all, Nat.sub_diag. reflexivity.
Qed.

Lemma skipn_step {A : Type} (text a b : list A) (pos : nat) :
  skipn pos text = a ++ b -> skipn (pos + length a) text = b.
Proof.
  intros H. rewrite Nat.add_comm, <- skipn_skipn, H.
  apply skipn_length_app. reflexivity.
Qed.

Lemma skipn_inside {A : Type} (text a b : list A) (pos j : nat) :
  skipn pos text = a ++ b -> (j <= length a)%nat ->
  skipn (pos + j) text = skipn j a ++ b.
Proof.
  intros H Hj. rewrite Nat.add_comm, <- skipn_skipn, H, skipn_app.
  replace (j - length a)%nat with O by lia. reflexivity.
Qed.

Section MatchSteps.
Variable R : Type.
Variable text : bytes.
Implicit Types (pos : nat) (c : regexp.captures)
         (k : nat -> regexp.captures -> option R).

Lemma matchAt_Seq r1 r2 pos c k :
  regexp.matchAt R text (regexp.Seq r1 r2) pos c k
  = regexp.matchAt R text r1 pos c (fun p c' => regexp.matchAt R text r2 p c' k).
Proof. reflexivity. Qed.

Lemma matchAt_Group i r pos c k :
  regexp.matchAt R text (regexp.Group i r) pos c k
  = regexp.matchAt R text r pos c (fun p c' => k p ((i, (pos, p)) :: c')).
Proof. reflexivity. Qed.

Lemma matchAt_Alt r1 r2 pos c k :
  regexp.matchAt R text (regexp.Alt r1 r2) pos c k
  = match regexp.matchAt R text r1 pos c k with
    | Some x => Some x
    | None => regexp.matchAt R text r2 pos c k
    end.
Proof. reflexivity. Qed.

Lemma matchAt_Opt r pos c k :
  regexp.matchAt R text (regexp.Opt r) pos c k
  = match regexp.matchAt R text r pos c k with
    | Some x => Some x
    | None => k pos c
    end.
Proof. reflexivity. Qed.

Lemma matchAt_Bol pos c k :
  regexp.matchAt R text regexp.Bol pos c k = if Nat.eqb pos 0 then k pos c else None.
Proof. reflexivity. Qed.

Lemma matchAt_Lit pos bs suf c k :
  skipn pos text = bs ++ suf ->
  regexp.matchAt R text (regexp.Lit bs) pos c k = k (pos + length bs)%nat c.
Proof. intros H. simpl. rewrite H, HasPrefix_app. reflexivity. Qed.

Lemma matchAt_Lit_fail pos bs c k :
  HasPrefix (skipn pos text) bs = false ->
  regexp.matchAt R text (regexp.Lit bs) pos c k = None.
Proof. intros H. simpl. rewrite H. reflexivity. Qed.

Lemma matchAt_Rep pos cls min a b c k :
  skipn pos text = a ++ b -> forallb cls a = true -> runLen cls b = O ->
  regexp.matchAt R text (regexp.Rep cls min) pos c k
  = if (length a <? min)%nat then None
    else regexp.tryDown (fun j => k (pos + j)%nat c) min (length a - min).
Proof.
  intros H Ha Hb. simpl. rewrite H, runLen_app, Hb, Nat.add_0_r by exact Ha.
  reflexivity.
Qed.

(** A repetition whose continuation fails after every shorter run takes
    the whole run or nothing. *)
Lemma matchAt_Rep_whole pos cls min a b c k :
  skipn pos text = a ++ b -> forallb cls a = true -> runLen cls b = O ->
  (min <= length a)%nat ->
  (forall j : nat, (min <= j < length a)%nat -> k (pos + j)%nat c = None) ->
  regexp.matchAt R text (regexp.Rep cls min) pos c k = k (pos + length a)%nat c.
Proof.
  intros H Ha Hb Hmin Hshort. rewrite (matchAt_Rep pos cls min a b) by assumption.
  replace (length a <? min)%nat with false by (symmetry; apply Nat.ltb_ge; lia).
  rewrite tryDown_last.
  - f_equal. lia.
  - intros j Hj. apply Hshort. lia.
Qed.

Lemma matchAt_Eol pos c k :
  skipn pos text = [] -> (pos <= length text)%nat ->
  regexp.matchAt R text regexp.Eol pos c k = k pos c.
Proof.
  intros H Hle. simpl.
  assert (length (skipn pos text) = 0)%nat by (rewrite H; reflexivity).
  rewrite length_skipn in *.
  replace (Nat.eqb pos (length text)) with true by (symmetry; apply Nat.eqb_eq; lia).
  reflexivity.
Qed.

Lemma matchAt_Eol_fail pos b suf c k :
  skipn pos text = b :: suf ->
  regexp.matchAt R text regexp.Eol pos c k = None.
Proof.
  intros H. simpl.
  assert (length (skipn pos text) = S (length suf)) by (rewrite H; reflexivity).
  rewrite length_skipn in *.
  replace (Nat.eqb pos (length text)) with false by (symmetry; apply Nat.eqb_neq; lia).
  reflexivity.
Qed.
End MatchSteps.

(** Inside a run of bytes other than [/], a literal that begins with [/]
    does not match. *)
Lemma slash_inside (a b q : bytes) (j : nat) :
  forallb regexp.notSlash a = true -> (j < length a)%nat ->
  HasPrefix (skipn j a ++ b) ("/"%byte :: q) = false.
Proof.
  intros Ha Hj.
  destruct (skipn j a) as [|d rest] eqn:E.
  - assert (length (skipn j a) = 0)%nat by (rewrite E; reflexivity).
    rewrite length_skipn in *. lia.
  - assert (Hd : regexp.notSlash d = true).
    { rewrite forallb_forall in Ha. apply Ha.
      rewrite <- (firstn_skipn j a), E. apply in_or_app. right. left. reflexivity. }
    simpl. unfold regexp.notSlash in Hd. apply negb_true_iff in Hd. rewrite Hd.
    reflexivity.
Qed.

(** ** What [regexp.MustCompile] returns for a literal prefix *)

Lemma lex_literal_byte (b : byte) (fuel : nat) (rest : bytes) :
  regexp.isASCII b && negb (regexp.isMeta b) = true ->
  regexp.lex (S fuel) (b :: rest)
  = regexp.andToken (regexp.TByte b) (regexp.lex fuel rest).
Proof.
  destruct b; intros H; try discriminate H; reflexivity.
Qed.

(** The bytes of a literal prefix are one token each. *)
Lemma lex_literal (p : bytes) (k : nat) (rest : bytes) :
  forallb (fun b => regexp.isASCII b && negb (regexp.isMeta b)) p = true ->
  regexp.lex (length p + k) (p ++ rest)
  = match regexp.lex k rest with
    | regexp.Lexed ts r => regexp.Lexed (map regexp.TByte p ++ ts) r
    | regexp.LexInvalid => regexp.LexInvalid
    | regexp.LexBeyond => regexp.LexBeyond
    end.
Proof.
  induction p as [|b p IH]; intros H.
  - change (length (@nil byte) + k)%nat with k. change ([] ++ rest) with rest.
    destruct (regexp.lex k rest); reflexivity.
  - cbn [forallb] in H. apply andb_true_iff in H as [Hb Hp].
    change (length (b :: p) + k)%nat with (S (length p + k)).
    change ((b :: p) ++ rest) with (b :: (p ++ rest)).
    rewrite (lex_literal_byte b _ _ Hb), (IH Hp).
    destruct (regexp.lex k rest); reflexivity.
Qed.

Lemma parse_literal (p : bytes) :
  forall (ts : list regexp.token) (alts cur : list regexp.Regexp),
    regexp.parse (map regexp.TByte p ++ ts) alts cur false
    = regexp.parse ts alts (rev (map (fun b => regexp.Lit [b]) p) ++ cur) false.
Proof.
  induction p as [|b p IH]; intros ts alts cur; [reflexivity|].
  cbn [map app regexp.parse rev]. rewrite IH, <- app_assoc. reflexivity.
Qed.

(** The literals of a prefix are merged into one. *)
Lemma merge_literal (p : bytes) (r : regexp.Regexp) (more : list regexp.Regexp) :
  (forall bs : bytes, r <> regexp.Lit bs) ->
  regexp.merge (r :: more) = r :: more ->
  regexp.merge (map (fun b => regexp.Lit [b]) p ++ r :: more)
  = match p with
    | [] => r :: more
    | _ :: _ => regexp.Lit p :: r :: more
    end.
Proof.
  intros Hr Hmore. induction p as [|b p IH]; [exact Hmore|].
  cbn [map app regexp.merge]. rewrite IH.
  destruct p as [|c p]; [|reflexivity].
  destruct r; try reflexivity. exfalso. apply (Hr bs). reflexivity.
Qed.

(** The class that [[a-zA-Z0-9_]] is read as. *)
Lemma alnum_class_word (b : byte) :
  regexp.either
    (regexp.either
       (regexp.either (regexp.either regexp.none (regexp.range "a" "z"))
          (regexp.range "A" "Z"))
       (regexp.range "0" "9"))
    (regexp.only "_") b
  = regexp.isWord b.
Proof. destruct b; reflexivity. Qed.

Lemma literalPrefix_length (p : bytes) :
  literalPrefix p = true -> (length p <= 900)%nat.
Proof.
  unfold literalPrefix. intros H. apply andb_true_iff in H as [H _].
  apply Nat.leb_le. exact H.
Qed.

(** The pattern that [regexp.Compile] builds for a literal prefix. *)
Lemma Compile_literal (p : bytes) (alnum : bool) :
  literalPrefix p = true ->
  exists tail : regexp.Regexp,
    regexp.Compile (extRefPattern p alnum)
    = regexp.Compiled
        (regexp.Seq regexp.WordB
           match p with
           | [] => tail
           | _ :: _ => regexp.Seq (regexp.Lit p) tail
           end)
    /\ (alnum = false
        -> tail = regexp.Seq (regexp.Rep regexp.isDigit 1) regexp.WordB)
    /\ (alnum = true
        -> exists cls : byte -> bool,
             tail = regexp.Rep cls 1 /\ forall b : byte, cls b = regexp.isWord b).
Proof.
  intros Hlit. pose proof (literalPrefix_length p Hlit) as Hlen.
  unfold literalPrefix in Hlit. apply andb_true_iff in Hlit as [_ Hlit].
  unfold regexp.Compile.
  destruct alnum; cbn [extRefPattern].
  - eexists. split; [|split; [discriminate|]].
    + replace (1000 <? length (B "\b" ++ p ++ B "[a-zA-Z0-9_]+"))%nat with false
        by (symmetry; apply Nat.ltb_ge; rewrite !length_app; simpl; lia).
      change (B "\b" ++ p ++ B "[a-zA-Z0-9_]+")
        with ("\"%byte :: "b"%byte :: (p ++ B "[a-zA-Z0-9_]+")).
      cbn [length]. rewrite length_app.
      change (length (B "[a-zA-Z0-9_]+")) with 13%nat.
      change (regexp.lex (S (S (length p + 13)))
                ("\"%byte :: "b"%byte :: (p ++ B "[a-zA-Z0-9_]+")))
        with (regexp.andToken (regexp.TEmpty regexp.WordB)
                (regexp.lex (S (length p + 13)) (p ++ B "[a-zA-Z0-9_]+"))).
      rewrite <- Nat.add_succ_r, (lex_literal p 14 _ Hlit).
      change (regexp.lex 14 (B "[a-zA-Z0-9_]+"))
        with (regexp.Lexed
                [regexp.TClass
                   (regexp.either
                      (regexp.either
                         (regexp.either
                            (regexp.either regexp.none (regexp.range "a" "z"))
                            (regexp.range "A" "Z"))
                         (regexp.range "0" "9"))
                      (regexp.only "_"));
                 regexp.TPlus] []).
      cbn [regexp.andToken regexp.parse].
      rewrite parse_literal.
      cbn [regexp.parse regexp.repeated app].
      unfold regexp.concat. cbn [rev]. rewrite !rev_app_distr, rev_involutive.
      cbn [rev app]. rewrite <- ?app_assoc. cbn [app regexp.merge].
      match goal with
      | |- context [regexp.merge (map _ p ++ [?r])] =>
          rewrite (merge_literal p r []) by (discriminate || reflexivity)
      end.
      destruct p; reflexivity.
    + intros _. eexists. split; [reflexivity | exact alnum_class_word].
  - eexists. split; [|split; [reflexivity | discriminate]].
    replace (1000 <? length (B "\b" ++ p ++ B "\d+\b"))%nat with false
      by (symmetry; apply Nat.ltb_ge; rewrite !length_app; simpl; lia).
    change (B "\b" ++ p ++ B "\d+\b")
      with ("\"%byte :: "b"%byte :: (p ++ B "\d+\b")).
    cbn [length]. rewrite length_app.
    change (length (B "\d+\b")) with 5%nat.
    change (regexp.lex (S (S (length p + 5)))
              ("\"%byte :: "b"%byte :: (p ++ B "\d+\b")))
      with (regexp.andToken (regexp.TEmpty regexp.WordB)
              (regexp.lex (S (length p + 5)) (p ++ B "\d+\b"))).
    rewrite <- Nat.add_succ_r, (lex_literal p 6 _ Hlit).
    change (regexp.lex 6 (B "\d+\b"))
      with (regexp.Lexed
              [regexp.TClass regexp.isDigit; regexp.TPlus;
               regexp.TEmpty regexp.WordB] []).
    cbn [regexp.andToken regexp.parse].
    rewrite parse_literal.
    cbn [regexp.parse regexp.repeated app].
    unfold regexp.concat. cbn [rev]. rewrite !rev_app_distr, rev_involutive.
    cbn [rev app]. rewrite <- ?app_assoc. cbn [app regexp.merge].
    match goal with
    | |- context [regexp.merge (map _ p ++ ?r :: ?m)] =>
        rewrite (merge_literal p r m) by (discriminate || reflexivity)
    end.
    destruct p; reflexivity.
Qed.

Lemma runLen_ext (f g : byte -> bool) (s : bytes) :
  (forall b : byte, f b = g b) -> runLen f s = runLen g s.
Proof.
  intros H. induction s as [|c s IH]; [reflexivity|].
  simpl. rewrite H, IH. reflexivity.
Qed.

Lemma findFrom_same (r r' : regexp.Regexp) (text : bytes) :
  (forall s : nat,
     regexp.matchAt regexp.found text r s [] (fun e c => Some (s, e, c))
     = regexp.matchAt regexp.found text r' s [] (fun e c => Some (s, e, c))) ->
  forall n s : nat, regexp.findFrom r text n s = regexp.findFrom r' text n s.
Proof.
  intros H. induction n as [|n IH]; intros s; simpl; rewrite H; [reflexivity|].
  destruct (regexp.matchAt _ _ _ _ _ _); [reflexivity | apply IH].
Qed.

(** The pattern of a literal prefix finds what [extPattern] finds. *)
Lemma MustCompile_literal (p : bytes) (alnum : bool) :
  literalPrefix p = true ->
  exists r : regexp.Regexp,
    regexp.MustCompile (extRefPattern p alnum) = OK r
    /\ forall s : bytes,
         regexp.FindIndex r s = regexp.FindIndex (extPattern p alnum) s.
Proof.
  intros Hlit.
  destruct (Compile_literal p alnum Hlit) as [tail [Hc [Hnum Halnum]]].
  eexists. split; [unfold regexp.MustCompile; rewrite Hc; reflexivity|].
  intros s. unfold regexp.FindIndex, regexp.find.
  rewrite (findFrom_same _ (extPattern p alnum) s); [reflexivity|].
  intros pos. destruct alnum.
  - destruct (Halnum eq_refl) as [cls [-> Hcls]].
    destruct p as [|b p]; cbn [extPattern regexp.matchAt];
      destruct (xorb (regexp.wordBefore s pos) (regexp.wordAt s pos)); try reflexivity.
    + cbn [HasPrefix length]. rewrite Nat.add_0_r.
      rewrite (runLen_ext cls regexp.isWord _ Hcls). reflexivity.
    + destruct (HasPrefix (skipn pos s) (b :: p)); [|reflexivity].
      rewrite (runLen_ext cls regexp.isWord _ Hcls). reflexivity.
  - rewrite (Hnum eq_refl).
    destruct p as [|b p]; cbn [extPattern regexp.matchAt];
      destruct (xorb (regexp.wordBefore s pos) (regexp.wordAt s pos)); try reflexivity.
    cbn [HasPrefix length]. rewrite Nat.add_0_r. reflexivity.
Qed.

(** An entry that [AddExtRef] makes from a literal prefix reads the prefix
    as literal text. *)
Lemma literalEntry_registered (x : extRef) :
  literalEntry x -> exists alnum : bool, registered x alnum.
Proof.
  intros [Hlit [alnum Hc]]. exists alnum.
  destruct (MustCompile_literal (prefix x) alnum Hlit) as [r [Hr Hsame]].
  rewrite Hr in Hc. injection Hc as Heq.
  unfold registered. rewrite <- Heq. exact Hsame.
Qed.

Lemma literalEntries_allRegistered (l : Reflinker) :
  literalEntries l -> allRegistered l.
Proof.
  unfold literalEntries, allRegistered. intros H.
  eapply Forall_impl; [|exact H]. intros x. apply literalEntry_registered.
Qed.

(** [AddExtRef] with a literal prefix returns, and appends one entry that
    reads the prefix as literal text. *)
Lemma AddExtRef_literal (l : Reflinker) (p u : bytes) (alnum : bool) :
  literalPrefix p = true ->
  exists r : regexp.Regexp,
    regexp.MustCompile (extRefPattern p alnum) = OK r
    /\ AddExtRef l p u alnum
       = OK {| repo := repo l; home := home l; src := src l;
               ext := ext l ++ [{| prefix := p; pat := r; url := u |}];
               links := links l |}
    /\ registered {| prefix := p; pat := r; url := u |} alnum.
Proof.
  intros Hlit.
  destruct (MustCompile_literal p alnum Hlit) as [r [Hr Hsame]].
  exists r. split; [exact Hr|]. split; [|exact Hsame].
  unfold AddExtRef. rewrite Hr. reflexivity.
Qed.

(** The session of [NewReflinker], for a URL that [url.Parse] accepts:
    the one entry is that of "GH-", with the pattern that
    [regexp.MustCompile] gives for it. *)
Lemma NewReflinker_returns (repoURL : bytes) :
  NewReflinker repoURL
  = OK {| repo := repoURL; home := homeOf repoURL; src := [];
          ext := [ {| prefix := B "GH-"; pat := extPattern (B "GH-") false;
                      url := repoURL ++ B "/issues/<num>" |} ];
          links := [] |}.
Proof. reflexivity. Qed.

Lemma NewReflinker_gh : NewReflinker (B "https://github.com/o/r") = OK gh.
Proof. reflexivity. Qed.

(** The session of https://github.com/o/r holds the entry of "GH-" only. *)
Lemma literalEntries_gh (s : bytes) : literalEntries (reset gh s).
Proof.
  constructor; [|constructor].
  split; [reflexivity | exists false; reflexivity].
Qed.
(** ** Issue references *)

Lemma issueRefLoop_run (l : Reflinker) (begin end' : Z) :
  0 <= begin -> end' <= len (src l) ->
  forall (fuel : nat) (i : Z),
    1 <= i -> begin + i <= end' ->
    (Z.to_nat (end' - (begin + i)) <= fuel)%nat ->
    issueRefLoop l begin end' fuel i =
    OK (let t := begin + i + Z.of_nat (runLen isDecimal (sub (src l) (begin + i) end')) in
        if t <? end' then
          if (t - begin =? 1) || negb (isBoundaryAt l t) then -1 else t
        else if isBoundaryAt l end' then end' else -1).
Proof.
  intros Hb He fuel.
  induction fuel as [|fuel IH]; intros i Hi Hie Hfuel.
  - assert (begin + i = end') by lia. subst end'.
    simpl. rewrite Z.ltb_irrefl. rewrite sub_empty by lia. simpl.
    rewrite Z.add_0_r, Z.ltb_irrefl.
    destruct (isBoundaryAt l (begin + i)); reflexivity.
  - simpl. destruct (begin + i <? end') eqn:Hlt.
    + apply Z.ltb_lt in Hlt.
      destruct (sub_cons (src l) (begin + i) end') as [b [Hnth Hsub]]; [lia|lia|].
      destruct (index_nth (src l) (begin + i)) as [b' [Hnth' Hidx]]; [lia|].
      rewrite Hnth in Hnth'. injection Hnth' as <-.
      rewrite Hidx. simpl. rewrite Hsub. simpl.
      destruct (isDecimal b) eqn:Hd.
      * rewrite IH by lia. cbv zeta.
        replace (begin + (i + 1)) with (begin + i + 1) by lia.
        replace (begin + i + 1
                 + Z.of_nat (runLen isDecimal (sub (src l) (begin + i + 1) end')))
          with (begin + i
                + Z.of_nat (S (runLen isDecimal (sub (src l) (begin + i + 1) end'))))
          by lia.
        reflexivity.
      * cbv zeta. simpl Z.of_nat. rewrite Z.add_0_r.
        replace (begin + i <? end') with true by (symmetry; apply Z.ltb_lt; lia).
        replace (begin + i - begin) with i by lia.
        rewrite (isBoundaryAt_nth l (begin + i) b) by (lia || assumption).
        destruct ((i =? 1) || negb (isBoundary b)); reflexivity.
    + apply Z.ltb_ge in Hlt. assert (begin + i = end') by lia. subst end'.
      rewrite sub_empty by lia. simpl. rewrite Z.add_0_r, Z.ltb_irrefl.
      destruct (isBoundaryAt l (begin + i)); reflexivity.
Qed.

Lemma digitRun_bounds (l : Reflinker) (begin end' : Z) :
  0 <= begin -> begin + 1 <= end' <= len (src l) ->
  0 <= digitRun l begin end' <= end' - (begin + 1).
Proof.
  intros Hb He. unfold digitRun.
  pose proof (runLen_le isDecimal (sub (src l) (begin + 1) end')) as H.
  pose proof (len_sub (src l) (begin + 1) end' ltac:(lia) ltac:(lia)) as H'.
  unfold len in H'. lia.
Qed.

Lemma lastIndexIssueRef_accepts (l : Reflinker) (begin end' : Z) :
  0 <= begin -> begin + 1 < end' <= len (src l) ->
  lastIndexIssueRef l begin end' =
  OK (if issueRefAccepted l begin end'
      then begin + 1 + digitRun l begin end' else -1).
Proof.
  intros Hb He. unfold lastIndexIssueRef, issueRefAccepted.
  pose proof (digitRun_bounds l begin end' Hb ltac:(lia)) as Hk.
  destruct (isBoundaryAt l (begin - 1)); simpl; [|reflexivity].
  rewrite (issueRefLoop_run l begin end') by lia. cbv zeta.
  fold (digitRun l begin end'). f_equal.
  destruct (begin + 1 + digitRun l begin end' <? end') eqn:Hlt.
  - replace (begin + 1 + digitRun l begin end' - begin =? 1)
      with (negb (1 <=? digitRun l begin end')).
    + destruct (1 <=? digitRun l begin end'),
        (isBoundaryAt l (begin + 1 + digitRun l begin end')); reflexivity.
    + destruct (1 <=? digitRun l begin end') eqn:E; simpl; symmetry;
        [apply Z.leb_le in E; apply Z.eqb_neq | apply Z.leb_gt in E; apply Z.eqb_eq]; lia.
  - apply Z.ltb_ge in Hlt.
    assert (begin + 1 + digitRun l begin end' = end') as -> by lia.
    replace (1 <=? digitRun l begin end') with true by (symmetry; apply Z.leb_le; lia).
    destruct (isBoundaryAt l end'); reflexivity.
Qed.

Lemma linkIssueRef_accepts (l : Reflinker) (begin end' : Z) :
  0 <= begin -> begin + 1 < end' <= len (src l) ->
  nth_error (src l) (Z.to_nat begin) = Some "#"%byte ->
  let e := begin + 1 + digitRun l begin end' in
  linkIssueRef l begin end' =
  OK (if issueRefAccepted l begin end'
      then (e, appendLink l {| start := begin; end_ := e;
                               text := issueRefText l (sub (src l) (begin + 1) e) |})
      else (begin + 1, l)).
Proof.
  intros Hb He Hhash e. unfold linkIssueRef.
  rewrite lastIndexIssueRef_accepts by lia. fold e.
  pose proof (digitRun_bounds l begin end' Hb ltac:(lia)) as Hk.
  destruct (issueRefAccepted l begin end'); simpl.
  - replace (e <? 0) with false by (symmetry; apply Z.ltb_ge; lia).
    rewrite slice_sub by lia. simpl.
    destruct (sub_cons (src l) begin e) as [b [Hnth Hsub]]; [lia|lia|].
    rewrite Hhash in Hnth. injection Hnth as <-.
    assert (Hlen : len (sub (src l) begin e) = e - begin) by (apply len_sub; lia).
    rewrite slice_sub by (rewrite ?Hlen; lia). simpl.
    rewrite Hsub, sub_tail. reflexivity.
  - reflexivity.
Qed.

(** C1, as the code decides it. For a [#] at [begin] in a Text segment
    that ends at [end'], with at least one byte of the segment after it
    (the scanner does not call the matcher otherwise), the issue matcher
    accepts exactly when the byte before [#] is a boundary (or [#] starts
    the buffer), at least one digit follows, and the byte after the
    digits is a boundary or the buffer ends there -- the same test whether
    the digits stop inside the segment or run to its end. On acceptance
    the span from [#] to the end of the digits is replaced by
    [[#NNN](<repo>/issues/NNN)], NNN being the digits; otherwise no span
    is added and scanning resumes one byte after [#]. With the repository
    https://github.com/o/r, "fixed #123" becomes
    "fixed [#123](https://github.com/o/r/issues/123)", and "#123abc" and
    "abc#123" are returned unchanged. *)
Theorem issue_ref_linked_iff_bounded (l : Reflinker) (begin end' : Z) :
  0 <= begin -> begin + 1 < end' <= len (src l) ->
  nth_error (src l) (Z.to_nat begin) = Some "#"%byte ->
  let e := begin + 1 + digitRun l begin end' in
  let digits := sub (src l) (begin + 1) e in
  lastIndexIssueRef l begin end'
  = OK (if issueRefAccepted l begin end' then e else -1)
  /\ linkIssueRef l begin end'
     = OK (if issueRefAccepted l begin end'
           then (e, appendLink l {| start := begin; end_ := e;
                                    text := issueRefText l digits |})
           else (begin + 1, l))
  /\ forallb isDecimal digits = true
  /\ Link gh (prose (B "fixed #123")) (B "fixed #123")
     = OK (B "fixed [#123](https://github.com/o/r/issues/123)")
  /\ Link gh (prose (B "#123abc")) (B "#123abc") = OK (B "#123abc")
  /\ Link gh (prose (B "abc#123")) (B "abc#123") = OK (B "abc#123").
Proof.
  intros Hb He Hhash e digits.
  split; [apply lastIndexIssueRef_accepts; lia|].
  split; [apply linkIssueRef_accepts; assumption|].
  split.
  - subst digits e. unfold digitRun.
    rewrite (runLen_sub_prefix isDecimal (src l) (begin + 1) end') by lia.
    apply runLen_forallb.
  - repeat split; vm_compute; reflexivity.
Qed.

Lemma issue_ref_linked_iff_bounded_witness :
  let l := reset gh (B "fixed #123") in
  lastIndexIssueRef l 6 10 = OK 10
  /\ linkIssueRef l 6 10
     = OK (10, appendLink l {| start := 6; end_ := 10;
                               text := B "[#123](https://github.com/o/r/issues/123)" |}).
Proof.
  intros l.
  pose proof (issue_ref_linked_iff_bounded l 6 10 ltac:(lia)
                ltac:(vm_compute; split; [reflexivity | discriminate])
                ltac:(reflexivity)) as [H1 [H2 _]].
  split; [exact H1 | exact H2].
Defined.

(** C1 as the specification words it fails on the segment [0,3) of
    "#12a": the digits run to the end of the segment, which the
    specification accepts, and the code rejects the reference because the
    byte after the segment is a letter. *)
Lemma issue_ref_segment_end_not_enough :
  let l := reset gh (B "#12a") in
  issueRefClaimed l 0 3 = true
  /\ lastIndexIssueRef l 0 3 = OK (-1)
  /\ linkIssueRef l 0 3 = OK (1, l).
Proof. vm_compute. repeat split; reflexivity. Qed.

(** ** User mentions *)

Lemma userRefLoop_run (l : Reflinker) (begin end' : Z) :
  0 <= begin -> end' <= len (src l) ->
  forall (fuel : nat) (i : Z),
    1 <= i -> begin + i <= end' ->
    (Z.to_nat (end' - (begin + i)) <= fuel)%nat ->
    userRefLoop l begin end' fuel i =
    OK (let t := begin + i
                 + Z.of_nat (runLen isUserNameChar (sub (src l) (begin + i) end')) in
        if negb (classAt (isByte "-") l (t - 1)) && isBoundaryAt l t
           && negb (classAt (isByte "/") l t)
        then t else -1).
Proof.
  intros Hb He.
  assert (Hexit : forall i, 1 <= i -> begin + i = end' ->
            (last <- index (src l) (end' - 1) ;;
             if Byte.eqb last "-" then OK (-1)
             else if end' <? len (src l) then
               b <- index (src l) end' ;;
               if negb (isBoundary b) || Byte.eqb b "/" then OK (-1) else OK end'
             else OK end')
            = OK (if negb (classAt (isByte "-") l (end' - 1)) && isBoundaryAt l end'
                     && negb (classAt (isByte "/") l end')
                  then end' else -1)).
  { intros i Hi Hie.
    destruct (index_nth (src l) (end' - 1)) as [p [Hp Hip]]; [lia|].
    rewrite Hip. simpl.
    rewrite (classAt_nth _ l (end' - 1) p) by (lia || assumption).
    unfold isByte at 1. destruct (Byte.eqb p "-"); [reflexivity|]. simpl.
    destruct (end' <? len (src l)) eqn:Hlt.
    - apply Z.ltb_lt in Hlt.
      destruct (index_nth (src l) end') as [b [Hnb Hib]]; [lia|].
      rewrite Hib. simpl.
      rewrite (isBoundaryAt_nth l end' b), (classAt_nth _ l end' b) by (lia || assumption).
      unfold isByte. destruct (isBoundary b), (Byte.eqb b "/"); reflexivity.
    - apply Z.ltb_ge in Hlt.
      rewrite isBoundaryAt_outside, classAt_outside by lia. reflexivity. }
  intros fuel.
  induction fuel as [|fuel IH]; intros i Hi Hie Hfuel.
  - assert (begin + i = end') by lia.
    simpl. replace (begin + i <? end') with false by (symmetry; apply Z.ltb_ge; lia).
    rewrite (Hexit i) by assumption.
    rewrite sub_empty by lia. simpl. rewrite Z.add_0_r. subst end'. reflexivity.
  - simpl. destruct (begin + i <? end') eqn:Hlt.
    + apply Z.ltb_lt in Hlt.
      destruct (sub_cons (src l) (begin + i) end') as [b [Hnth Hsub]]; [lia|lia|].
      destruct (index_nth (src l) (begin + i)) as [b' [Hnth' Hidx]]; [lia|].
      rewrite Hnth in Hnth'. injection Hnth' as <-.
      rewrite Hidx. simpl. rewrite Hsub. simpl.
      destruct (isUserNameChar b) eqn:Hd.
      * rewrite IH by lia. cbv zeta.
        replace (begin + (i + 1)) with (begin + i + 1) by lia.
        replace (begin + i + 1
                 + Z.of_nat (runLen isUserNameChar (sub (src l) (begin + i + 1) end')))
          with (begin + i
                + Z.of_nat (S (runLen isUserNameChar (sub (src l) (begin + i + 1) end'))))
          by lia.
        reflexivity.
      * cbv zeta. simpl Z.of_nat. rewrite Z.add_0_r.
        rewrite (isBoundaryAt_nth l (begin + i) b),
          (classAt_nth _ l (begin + i) b) by (lia || assumption).
        destruct (index_nth (src l) (begin + i - 1)) as [p [Hp Hip]]; [lia|].
        rewrite (classAt_nth _ l (begin + i - 1) p) by (lia || assumption).
        unfold isByte.
        destruct (isBoundary b), (Byte.eqb b "/"); simpl; try reflexivity;
          try (rewrite andb_false_r; reflexivity).
        rewrite Hip. simpl. destruct (Byte.eqb p "-"); reflexivity.
    + apply Z.ltb_ge in Hlt. assert (begin + i = end') by lia.
      rewrite (Hexit i) by assumption.
      rewrite sub_empty by lia. simpl. rewrite Z.add_0_r. subst end'. reflexivity.
Qed.

Lemma nameRun_bounds (l : Reflinker) (begin end' : Z) :
  0 <= begin -> begin + 1 <= end' <= len (src l) ->
  0 <= nameRun l begin end' <= end' - (begin + 1).
Proof.
  intros Hb He. unfold nameRun.
  pose proof (runLen_le isUserNameChar (sub (src l) (begin + 1) end')) as H.
  pose proof (len_sub (src l) (begin + 1) end' ltac:(lia) ltac:(lia)) as H'.
  unfold len in H'. lia.
Qed.

Lemma lastIndexUserRef_accepts (l : Reflinker) (begin end' : Z) :
  0 <= begin -> begin + 1 < end' <= len (src l) ->
  lastIndexUserRef l begin end' =
  OK (if userRefAccepted l begin end'
      then begin + 1 + nameRun l begin end' else -1).
Proof.
  intros Hb He. unfold lastIndexUserRef, userRefAccepted. cbv zeta.
  destruct (isBoundaryAt l (begin - 1)); simpl; [|reflexivity].
  destruct (sub_cons (src l) (begin + 1) end') as [b [Hnth Hsub]]; [lia|lia|].
  destruct (index_nth (src l) (begin + 1)) as [b' [Hnth' Hidx]]; [lia|].
  rewrite Hnth in Hnth'. injection Hnth' as <-.
  rewrite Hidx. simpl.
  rewrite (classAt_nth _ l (begin + 1) b) by (lia || assumption).
  rewrite isUserNameChar_alnum.
  destruct (isAlnum b) eqn:Ha; simpl.
  - assert (Hdash : Byte.eqb b "-" = false).
    { destruct (Byte.eqb b "-") eqn:E; [|reflexivity].
      apply Byte.byte_dec_bl in E. subst b. discriminate Ha. }
    rewrite Hdash.
    rewrite (userRefLoop_run l begin end') by lia. cbv zeta.
    unfold nameRun. rewrite Hsub. simpl runLen.
    rewrite isUserNameChar_alnum, Ha. simpl orb. cbv iota.
    replace (begin + 1 + Z.of_nat (S (runLen isUserNameChar (sub (src l) (begin + 1 + 1) end'))))
      with (begin + 2 + Z.of_nat (runLen isUserNameChar (sub (src l) (begin + 2) end'))).
    + reflexivity.
    + replace (begin + 1 + 1) with (begin + 2) by lia. lia.
  - unfold isByte. destruct (Byte.eqb b "-"); reflexivity.
Qed.

Lemma linkUserRef_accepts (l : Reflinker) (begin end' : Z) :
  0 <= begin -> begin + 1 < end' <= len (src l) ->
  nth_error (src l) (Z.to_nat begin) = Some "@"%byte ->
  let e := begin + 1 + nameRun l begin end' in
  linkUserRef l begin end' =
  OK (if userRefAccepted l begin end'
      then (e, appendLink l {| start := begin; end_ := e;
                               text := userRefText l (sub (src l) (begin + 1) e) |})
      else (begin + 1, l)).
Proof.
  intros Hb He Hat e. unfold linkUserRef.
  rewrite lastIndexUserRef_accepts by lia. fold e.
  pose proof (nameRun_bounds l begin end' Hb ltac:(lia)) as Hk.
  destruct (userRefAccepted l begin end'); simpl.
  - replace (e <? 0) with false by (symmetry; apply Z.ltb_ge; lia).
    rewrite slice_sub by lia. simpl.
    destruct (sub_cons (src l) begin e) as [b [Hnth Hsub]]; [lia|lia|].
    rewrite Hat in Hnth. injection Hnth as <-.
    assert (Hlen : len (sub (src l) begin e) = e - begin) by (apply len_sub; lia).
    rewrite slice_sub by (rewrite ?Hlen; lia). simpl.
    rewrite Hsub, sub_tail. reflexivity.
  - reflexivity.
Qed.

(** C4. For an [@] at [begin] in a Text segment that ends at [end'], with
    at least one byte of the segment after it (the scanner does not call
    the matcher otherwise), the mention matcher accepts exactly when the
    byte before [@] is a boundary (or [@] starts the buffer), the first
    byte after [@] is alphanumeric (so not [-]), the run of alphanumerics
    and hyphens that follows in the segment does not end in [-], and the
    byte that ends the run, if the buffer has one, is a boundary other
    than [/]. On acceptance the span is replaced by
    [[@name](<home>/name)]; otherwise no span is added. With the home
    https://github.com, "@foo-bar" becomes
    "[@foo-bar](https://github.com/foo-bar)" and "@-foo" is returned
    unchanged. *)
Theorem user_ref_linked_iff_wellformed (l : Reflinker) (begin end' : Z) :
  0 <= begin -> begin + 1 < end' <= len (src l) ->
  nth_error (src l) (Z.to_nat begin) = Some "@"%byte ->
  let e := begin + 1 + nameRun l begin end' in
  let name := sub (src l) (begin + 1) e in
  lastIndexUserRef l begin end'
  = OK (if userRefAccepted l begin end' then e else -1)
  /\ linkUserRef l begin end'
     = OK (if userRefAccepted l begin end'
           then (e, appendLink l {| start := begin; end_ := e;
                                    text := userRefText l name |})
           else (begin + 1, l))
  /\ forallb isUserNameChar name = true
  /\ home gh = B "https://github.com"
  /\ Link gh (prose (B "@foo-bar")) (B "@foo-bar")
     = OK (B "[@foo-bar](https://github.com/foo-bar)")
  /\ Link gh (prose (B "@-foo")) (B "@-foo") = OK (B "@-foo").
Proof.
  intros Hb He Hat e name.
  split; [apply lastIndexUserRef_accepts; lia|].
  split; [apply linkUserRef_accepts; assumption|].
  split.
  - subst name e. unfold nameRun.
    rewrite (runLen_sub_prefix isUserNameChar (src l) (begin + 1) end') by lia.
    apply runLen_forallb.
  - repeat split; vm_compute; reflexivity.
Qed.

Lemma user_ref_linked_iff_wellformed_witness :
  let l := reset gh (B "by @foo-bar, thanks") in
  lastIndexUserRef l 3 19 = OK 11
  /\ linkUserRef l 3 19
     = OK (11, appendLink l {| start := 3; end_ := 11;
                               text := B "[@foo-bar](https://github.com/foo-bar)" |}).
Proof.
  intros l.
  pose proof (user_ref_linked_iff_wellformed l 3 19 ltac:(lia)
                ltac:(vm_compute; split; [reflexivity | discriminate])
                ltac:(reflexivity)) as [H1 [H2 _]].
  split; [exact H1 | exact H2].
Defined.

(** ** Commit hashes *)

Lemma commitSHALoop_run (l : Reflinker) (begin end' : Z) :
  0 <= begin -> end' <= len (src l) ->
  forall (fuel : nat) (i : Z),
    1 <= i <= hashLen ->
    (Z.to_nat (hashLen - i) <= fuel)%nat ->
    commitSHALoop l begin end' fuel i =
    OK (let r := Z.of_nat (runLen isLowerHex (sub (src l) (begin + i) end')) in
        if hashLen <=? i + r then None else Some (begin + i + r)).
Proof.
  intros Hb He fuel. unfold hashLen.
  induction fuel as [|fuel IH]; intros i Hi Hfuel.
  - assert (i = 40) by lia. subst i. cbn [commitSHALoop].
    change (40 <? hashLen) with false. cbv iota zeta.
    destruct (Z.leb_spec 40 (40 + Z.of_nat (runLen isLowerHex (sub (src l) (begin + 40) end'))));
      [reflexivity | lia].
  - cbn [commitSHALoop]. unfold hashLen. cbv zeta. destruct (i <? 40) eqn:Hlt.
    + apply Z.ltb_lt in Hlt.
      destruct (begin + i >=? end') eqn:Hge.
      * apply Z.geb_le in Hge. rewrite sub_empty by lia. cbn [runLen Z.of_nat].
        rewrite !Z.add_0_r.
        replace (40 <=? i) with false by (symmetry; apply Z.leb_gt; lia).
        reflexivity.
      * assert (begin + i < end').
        { destruct (Z.ltb_spec (begin + i) end'); [assumption|].
          assert ((begin + i >=? end') = true) by (apply Z.geb_le; lia). congruence. }
        destruct (sub_cons (src l) (begin + i) end') as [b [Hnth Hsub]]; [lia|lia|].
        destruct (index_nth (src l) (begin + i)) as [b' [Hnth' Hidx]]; [lia|].
        rewrite Hnth in Hnth'. injection Hnth' as <-.
        rewrite Hidx. cbn [bind]. rewrite Hsub. cbn [runLen].
        destruct (isLowerHex b) eqn:Hd.
        -- rewrite IH by lia. cbv zeta.
           replace (begin + (i + 1)) with (begin + i + 1) by lia.
           replace (i + 1 + Z.of_nat (runLen isLowerHex (sub (src l) (begin + i + 1) end')))
             with (i + Z.of_nat (S (runLen isLowerHex (sub (src l) (begin + i + 1) end'))))
             by lia.
           replace (begin + i + 1 + Z.of_nat (runLen isLowerHex (sub (src l) (begin + i + 1) end')))
             with (begin + i + Z.of_nat (S (runLen isLowerHex (sub (src l) (begin + i + 1) end'))))
             by lia.
           reflexivity.
        -- cbn [Z.of_nat]. rewrite !Z.add_0_r.
           replace (40 <=? i) with false by (symmetry; apply Z.leb_gt; lia).
           reflexivity.
    + apply Z.ltb_ge in Hlt.
      destruct (Z.leb_spec 40 (i + Z.of_nat (runLen isLowerHex (sub (src l) (begin + i) end'))));
        [reflexivity | lia].
Qed.

Lemma hexRun_bounds (l : Reflinker) (begin end' : Z) :
  0 <= begin <= end' -> end' <= len (src l) ->
  0 <= hexRun l begin end' <= end' - begin.
Proof.
  intros Hb He. unfold hexRun.
  pose proof (runLen_le isLowerHex (sub (src l) begin end')) as H.
  pose proof (len_sub (src l) begin end' ltac:(lia) ltac:(lia)) as H'.
  unfold len in H'. lia.
Qed.

(** A run longer than 40 has a hexadecimal digit, not a boundary, at 40. *)
Lemma hexRun_long (l : Reflinker) (begin end' : Z) :
  0 <= begin <= end' -> end' <= len (src l) ->
  hashLen < hexRun l begin end' -> isBoundaryAt l (begin + hashLen) = false.
Proof.
  intros Hb He Hlong. pose proof (hexRun_bounds l begin end' Hb He) as Hk.
  unfold hexRun, hashLen in *.
  destruct (index_nth (src l) (begin + 40)) as [b [Hnb _]]; [lia|].
  rewrite (isBoundaryAt_nth l (begin + 40) b) by (lia || assumption).
  apply isLowerHex_alnum.
  apply (runLen_class isLowerHex (sub (src l) begin end') 40); [lia|].
  rewrite nth_error_sub by lia. exact Hnb.
Qed.

Lemma linkCommitSHA_accepts (l : Reflinker) (begin end' : Z) :
  0 <= begin < end' -> end' <= len (src l) ->
  classAt isLowerHex l begin = true ->
  linkCommitSHA l begin end' =
  OK (begin + Z.min (hexRun l begin end') hashLen,
      if commitAccepted l begin end'
      then appendLink l {| start := begin; end_ := begin + hashLen;
                           text := commitText l (sub (src l) begin (begin + hashLen)) |}
      else l).
Proof.
  intros Hb He Hhex. unfold linkCommitSHA.
  rewrite (commitSHALoop_run l begin end') by (unfold hashLen; lia). cbv zeta.
  destruct (sub_cons (src l) begin end') as [b [Hnth Hsub]]; [lia|lia|].
  rewrite (classAt_nth _ l begin b) in Hhex by (lia || assumption).
  assert (Hrun : hexRun l begin end'
                 = 1 + Z.of_nat (runLen isLowerHex (sub (src l) (begin + 1) end'))).
  { unfold hexRun. rewrite Hsub. simpl runLen. rewrite Hhex. lia. }
  rewrite <- Hrun. simpl bind.
  pose proof (hexRun_bounds l begin end' ltac:(lia) He) as Hk.
  unfold commitAccepted.
  destruct (hashLen <=? hexRun l begin end') eqn:Hfull.
  - apply Z.leb_le in Hfull. rewrite Z.min_r by lia.
    destruct (hexRun l begin end' =? hashLen) eqn:Hexact.
    + simpl andb.
      destruct (isBoundaryAt l (begin - 1) && isBoundaryAt l (begin + hashLen)); [|reflexivity].
      unfold hashLen in *.
      rewrite slice_sub by lia. simpl bind.
      rewrite slice_sub by (rewrite ?len_sub by lia; lia). reflexivity.
    + apply Z.eqb_neq in Hexact.
      rewrite (hexRun_long l begin end') by lia.
      rewrite andb_false_r. reflexivity.
  - apply Z.leb_gt in Hfull. rewrite Z.min_l by lia.
    replace (hexRun l begin end' =? hashLen) with false
      by (symmetry; apply Z.eqb_neq; lia).
    simpl. f_equal. f_equal. lia.
Qed.

(** C3. For a byte of [0-9a-f] at [begin] in a Text segment, the commit
    matcher adds a span exactly when the run of [0-9a-f] bytes from [begin]
    on in the segment is exactly 40 long and has a boundary byte or a
    buffer edge on each side. The span covers the 40 bytes and its
    replacement shows the first 10 of them and links to [<repo>/commit/]
    followed by all 40. In both cases scanning resumes after the bytes
    examined. A token of 40 hexadecimal digits is linked; a token of 39
    is not. *)
Theorem commit_sha_linked_iff_forty (l : Reflinker) (begin end' : Z) :
  0 <= begin < end' -> end' <= len (src l) ->
  classAt isLowerHex l begin = true ->
  let h := sub (src l) begin (begin + hashLen) in
  linkCommitSHA l begin end'
  = OK (begin + Z.min (hexRun l begin end') hashLen,
        if commitAccepted l begin end'
        then appendLink l {| start := begin; end_ := begin + hashLen;
                             text := B "[`" ++ sub h 0 10 ++ B "`](" ++ repo l
                                       ++ B "/commit/" ++ h ++ B ")" |}
        else l)
  /\ Link gh (prose (B "see " ++ sha40 ++ B ".")) (B "see " ++ sha40 ++ B ".")
     = OK (B "see [`0123456789`](https://github.com/o/r/commit/" ++ sha40 ++ B ").")
  /\ Link gh (prose (B "see " ++ sha39 ++ B ".")) (B "see " ++ sha39 ++ B ".")
     = OK (B "see " ++ sha39 ++ B ".").
Proof.
  intros Hb He Hhex h.
  split; [apply linkCommitSHA_accepts; assumption|].
  split; vm_compute; reflexivity.
Qed.

Lemma commit_sha_linked_iff_forty_witness :
  let l := reset gh sha40 in
  linkCommitSHA l 0 40
  = OK (40, appendLink l
              {| start := 0; end_ := 40;
                 text := B "[`0123456789`](https://github.com/o/r/commit/" ++ sha40
                           ++ B ")" |}).
Proof.
  intros l.
  pose proof (commit_sha_linked_iff_forty l 0 40 ltac:(lia)
                ltac:(vm_compute; discriminate) ltac:(reflexivity)) as [H _].
  exact H.
Defined.

(** ** Rebuilding the text *)

Lemma insertByStart_Forall (P : refLink -> Prop) (r : refLink) (acc : list refLink) :
  P r -> Forall P acc -> Forall P (insertByStart r acc).
Proof.
  intros Hr Hacc. induction Hacc as [|x xs Hx Hxs IH]; simpl.
  - constructor; [exact Hr | constructor].
  - destruct (Less r x); repeat constructor; assumption.
Qed.

Lemma insertByStart_length (r : refLink) (acc : list refLink) :
  length (insertByStart r acc) = S (length acc).
Proof.
  induction acc as [|x xs IH]; simpl; [reflexivity|].
  destruct (Less r x); simpl; [reflexivity | now rewrite IH].
Qed.

Lemma disjoint_sym (a b : refLink) : disjoint a b -> disjoint b a.
Proof. unfold disjoint. tauto. Qed.

Lemma insertByStart_pairwise (r : refLink) (acc : list refLink) :
  Forall (disjoint r) acc -> ForallOrdPairs disjoint acc ->
  ForallOrdPairs disjoint (insertByStart r acc).
Proof.
  intros Hr Hacc. induction Hacc as [|x xs Hx Hxs IH]; simpl.
  - repeat constructor.
  - inversion Hr as [|? ? Hrx Hrxs]; subst.
    destruct (Less r x).
    + constructor; [constructor; assumption | constructor; assumption].
    + constructor; [|apply IH; assumption].
      apply insertByStart_Forall; [apply disjoint_sym; exact Hrx | exact Hx].
Qed.

Lemma insertByStart_sorted (r : refLink) (acc : list refLink) :
  StronglySorted startsBefore acc ->
  StronglySorted startsBefore (insertByStart r acc).
Proof.
  intros Hacc. induction Hacc as [|x xs Hxs IH Hx]; simpl.
  - repeat constructor.
  - unfold Less. destruct (start r <? start x) eqn:E.
    + apply Z.ltb_lt in E. constructor; [constructor; assumption|].
      constructor; [unfold startsBefore; lia|].
      eapply Forall_impl; [|exact Hx]. unfold startsBefore. intros; lia.
    + apply Z.ltb_ge in E. constructor; [exact IH|].
      apply insertByStart_Forall; [exact E | exact Hx].
Qed.

Lemma sortByStart_invariant (s : bytes) (rest : list refLink) :
  forall acc : list refLink,
    Forall (inBuffer s) rest -> Forall (inBuffer s) acc ->
    ForallOrdPairs disjoint rest -> ForallOrdPairs disjoint acc ->
    Forall (fun r => Forall (disjoint r) acc) rest ->
    StronglySorted startsBefore acc ->
    let out := fold_left (fun acc r => insertByStart r acc) rest acc in
    Forall (inBuffer s) out /\ ForallOrdPairs disjoint out
    /\ StronglySorted startsBefore out
    /\ length out = (length acc + length rest)%nat.
Proof.
  induction rest as [|r rest IH]; intros acc Hin Hacc Hpr Hpa Hcross Hsorted; simpl.
  - repeat split; try assumption. lia.
  - inversion Hin as [|? ? Hr Hrest]; subst.
    inversion Hpr as [|? ? Hrr Hprest]; subst.
    inversion Hcross as [|? ? Hra Hcrest]; subst.
    destruct (IH (insertByStart r acc)) as [H1 [H2 [H3 H4]]].
    + exact Hrest.
    + apply insertByStart_Forall; assumption.
    + exact Hprest.
    + apply insertByStart_pairwise; assumption.
    + rewrite Forall_forall in *. intros y Hy.
      apply insertByStart_Forall.
      * apply disjoint_sym. apply Hrr. exact Hy.
      * apply Hcrest. exact Hy.
    + apply insertByStart_sorted. exact Hsorted.
    + repeat split; try assumption.
      rewrite H4, insertByStart_length. lia.
Qed.

Lemma sorted_disjoint_chain (s : bytes) (rs : list refLink) :
  Forall (inBuffer s) rs -> ForallOrdPairs disjoint rs ->
  StronglySorted startsBefore rs ->
  forall i : Z, i <= len s -> Forall (fun r => i <= start r) rs ->
  chain i rs (len s).
Proof.
  intros Hin. induction Hin as [|r rs Hr Hrs IH]; intros Hp Hs i Hi Hlo; simpl.
  - exact Hi.
  - inversion Hp as [|? ? Hrd Hp']; subst.
    apply StronglySorted_inv in Hs as [Hs' Hrle].
    inversion Hlo as [|? ? Hir Hlo']; subst.
    destruct Hr as [H0 [Hne Hend]].
    repeat split; [exact Hir | lia |].
    apply IH; try assumption.
    rewrite Forall_forall in *. intros y Hy.
    specialize (Hrd y Hy). specialize (Hrle y Hy). specialize (Hrs y Hy).
    unfold disjoint, startsBefore, inBuffer in *. lia.
Qed.

(** The loop of the rebuilder over spans laid out in order: it writes
    the source between the spans as it is and the text of each span in
    the place of the span. *)
Lemma buildLoop_chain (s : bytes) (rs : list refLink) :
  forall (i : Z) (out : bytes),
    0 <= i -> chain i rs (len s) ->
    sub s i (len s)
    = weave (gapsBefore s i rs) (map (covered s) rs) (restAfter s i rs)
    /\ buildLoop s rs i out
       = OK (out ++ weave (gapsBefore s i rs) (map text rs) (restAfter s i rs)).
Proof.
  induction rs as [|r rs IH]; intros i out Hi Hc; simpl in Hc.
  - simpl. rewrite slice_sub by lia. split; reflexivity.
  - destruct Hc as [H1 [H2 H3]].
    assert (Hend : end_ r <= len s).
    { clear - H3. revert H3. generalize (end_ r). induction rs as [|x xs IHx]; simpl; intros z Hz.
      - exact Hz.
      - destruct Hz as [Ha [Hb Hc]]. specialize (IHx _ Hc). lia. }
    destruct (IH (end_ r) (out ++ sub s i (start r) ++ text r)) as [Hs Hb];
      [lia | exact H3 |].
    cbn [gapsBefore restAfter map weave]. split.
    + rewrite (sub_split s i (start r) (len s)) by lia.
      rewrite (sub_split s (start r) (end_ r) (len s)) by lia.
      rewrite Hs. reflexivity.
    + cbn [buildLoop]. rewrite slice_sub by lia. simpl bind. rewrite Hb.
      rewrite <- !app_assoc. reflexivity.
Qed.




(** ** External references *)

Lemma extPattern_matchAt (text p : bytes) (alnum : bool) (s : nat) (m : regexp.found) :
  regexp.matchAt regexp.found text (extPattern p alnum) s []
    (fun e c => Some (s, e, c)) = Some m ->
  exists n : nat,
    m = (s, (s + length p + n)%nat, [])
    /\ xorb (regexp.wordBefore text s) (regexp.wordAt text s) = true
    /\ HasPrefix (skipn s text) p = true
    /\ (1 <= n <= runLen (suffixClass alnum) (skipn (s + length p) text))%nat
    /\ (alnum = true -> n = runLen regexp.isWord (skipn (s + length p) text)).
Proof.
  destruct alnum; cbn [extPattern regexp.matchAt suffixClass];
    destruct (xorb (regexp.wordBefore text s) (regexp.wordAt text s)); try discriminate;
    destruct (HasPrefix (skipn s text) p); try discriminate.
  - set (run := runLen regexp.isWord (skipn (s + length p) text)).
    destruct (run <? 1)%nat eqn:E; [discriminate|]. apply Nat.ltb_ge in E.
    intros H. erewrite tryDown_first in H by reflexivity.
    injection H as <-. exists run.
    replace (S (run - 1)) with run by lia.
    repeat split; auto; lia.
  - set (run := runLen regexp.isDigit (skipn (s + length p) text)).
    destruct (run <? 1)%nat eqn:E; [discriminate|]. apply Nat.ltb_ge in E.
    intros H. apply tryDown_Some in H as [j [Hj Hk]].
    destruct (xorb _ _) in Hk; [|discriminate].
    injection Hk as <-. exists j.
    repeat split; try reflexivity; try lia.
Qed.

Lemma length_skipn_prefix (s p : bytes) :
  HasPrefix s p = true -> (length p <= length s)%nat.
Proof.
  intros H. apply HasPrefix_split in H.
  rewrite H, length_app. lia.
Qed.

(** What a match of an external pattern looks like. *)
Lemma FindIndex_extPattern (text p : bytes) (alnum : bool) (s0 e0 : Z) :
  regexp.FindIndex (extPattern p alnum) text = Some (s0, e0) ->
  0 <= s0 /\ s0 + len p < e0 /\ e0 <= len text
  /\ wordBoundary text s0 = true
  /\ sub text s0 e0 = p ++ sub text (s0 + len p) e0
  /\ forallb (suffixClass alnum) (sub text (s0 + len p) e0) = true
  /\ (alnum = true -> regexp.wordAt text (Z.to_nat e0) = false).
Proof.
  unfold regexp.FindIndex, regexp.find.
  destruct (regexp.findFrom _ text (length text) 0) as [[[s e] c]|] eqn:E; [|discriminate].
  intros H. injection H as <- <-.
  apply findFrom_Some in E as [s' [Hs [Hm _]]].
  apply extPattern_matchAt in Hm as [n [Hm [Hwb [Hp [Hn Hmax]]]]].
  injection Hm as <- -> ->.
  pose proof (length_skipn_prefix _ _ Hp) as Hlp. rewrite length_skipn in Hlp.
  pose proof (runLen_le (suffixClass alnum) (skipn (s + length p) text)) as Hrl.
  rewrite length_skipn in Hrl.
  assert (Hsuffix : sub text (Z.of_nat s + len p) (Z.of_nat (s + length p + n))
                    = firstn n (skipn (s + length p) text)).
  { unfold sub, len. f_equal; [lia | f_equal; lia]. }
  unfold len in *. split; [lia|]. split; [lia|]. split; [lia|].
  split; [unfold wordBoundary; rewrite Nat2Z.id; exact Hwb|].
  split; [|split].
  - rewrite Hsuffix. unfold sub. rewrite Nat2Z.id.
    replace (Z.to_nat (Z.of_nat (s + length p + n) - Z.of_nat s))
      with (length p + n)%nat by lia.
    rewrite (HasPrefix_split _ _ Hp) at 1.
    rewrite firstn_app_2, skipn_skipn. f_equal. f_equal. f_equal. lia.
  - rewrite Hsuffix.
    pose proof (runLen_forallb (suffixClass alnum) (skipn (s + length p) text)) as Hall.
    rewrite <- (firstn_skipn n (firstn _ _)) in Hall.
    rewrite forallb_app in Hall. apply andb_true_iff in Hall as [Hall _].
    rewrite firstn_firstn in Hall.
    replace (Nat.min n (runLen (suffixClass alnum) (skipn (s + length p) text)))
      with n in Hall by lia.
    exact Hall.
  - intros Ha. specialize (Hmax Ha). subst alnum. cbn [suffixClass] in *.
    rewrite Nat2Z.id. unfold regexp.wordAt.
    destruct (nth_error text (s + length p + n)) as [b|] eqn:Eb; [|reflexivity].
    apply (runLen_stop regexp.isWord (skipn (s + length p) text)).
    rewrite nth_error_skipn, <- Hmax. exact Eb.
Qed.

(** The loop over the patterns stops at the first one that matches. *)
Lemma extRefLoop_first (l : Reflinker) (s : bytes) (start' end' : Z)
      (before after : list extRef) (x : extRef) (alnum : bool) (s0 e0 : Z) :
  registered x alnum ->
  Forall (fun y => regexp.FindIndex (pat y) s = None) before ->
  regexp.FindIndex (pat x) s = Some (s0, e0) ->
  extRefLoop l s start' end' (before ++ x :: after)
  = OK (start' + e0,
        appendLink l {| start := start' + s0; end_ := start' + e0;
                        text := extRefText x (sub s (s0 + len (prefix x)) e0) |}).
Proof.
  intros Hreg Hbefore Hx.
  induction Hbefore as [|y ys Hy Hys IH]; simpl.
  - rewrite Hx. unfold registered in Hreg. rewrite Hreg in Hx.
    apply FindIndex_extPattern in Hx as [H0 [H1 [H2 [_ [Href _]]]]].
    pose proof (len_nonneg (prefix x)) as Hp.
    rewrite slice_sub by lia. simpl bind.
    assert (Hlen : len (sub s s0 e0) = e0 - s0) by (apply len_sub; lia).
    rewrite slice_sub by (rewrite ?Hlen; lia). simpl bind.
    assert (Hnum : sub (sub s s0 e0) (len (prefix x)) (len (sub s s0 e0))
                   = sub s (s0 + len (prefix x)) e0).
    { rewrite Hlen, Href. unfold sub at 1.
      rewrite skipn_length_app by (unfold len; lia).
      apply firstn_all2.
      pose proof (len_sub s (s0 + len (prefix x)) e0 ltac:(lia) ltac:(lia)) as Hl.
      unfold len in *. lia. }
    rewrite Hnum. unfold extRefText. rewrite Href.
    rewrite <- !app_assoc. reflexivity.
  - rewrite Hy. exact IH.
Qed.

Lemma extRefLoop_none (l : Reflinker) (s : bytes) (start' end' : Z)
      (exts : list extRef) :
  Forall (fun y => regexp.FindIndex (pat y) s = None) exts ->
  extRefLoop l s start' end' exts = OK (end', l).
Proof.
  intros H. induction H as [|y ys Hy Hys IH]; simpl; [reflexivity|].
  rewrite Hy. exact IH.
Qed.

(** C6 does not hold of the code. [AddExtRef] puts the prefix into the
    text of the pattern as it is, with no [regexp.QuoteMeta], so a prefix
    that holds an operator of the pattern syntax is read as a pattern and
    matches other texts than itself, while [linkExtRef] still takes the
    suffix to be what follows the first [len(prefix)] bytes of the match.
    With the prefix [[A-Z]+-], of seven bytes, the reference AB-12 is
    matched and the cut [ref[7:]] of its five bytes is out of bounds.
    With the prefix [JIRA-?], of six bytes, the reference JIRA-12 is
    linked to the issue 2. *)
Theorem ext_prefix_read_as_pattern :
  let u := B "https://jira.example/browse/<num>" in
  (exists l : Reflinker,
     AddExtRef gh (B "[A-Z]+-") u false = OK l
     /\ Link l (prose (B "AB-12")) (B "AB-12") = Panic SliceBounds)
  /\ (exists l : Reflinker,
        AddExtRef gh (B "JIRA-?") u false = OK l
        /\ Link l (prose (B "JIRA-12")) (B "JIRA-12")
           = OK (B "[JIRA-12](https://jira.example/browse/2)")).
Proof.
  intros u. split; eexists; (split; [reflexivity | vm_compute; reflexivity]).
Qed.

(** X23. For an entry that [AddExtRef] has made from a literal prefix,
    the claim C6 holds. In the window from [start'] to [end'] of a Text
    segment the patterns are tried in the order of registration, and the
    first one that matches anywhere in the window wins. Its match begins
    at a word boundary, is the prefix followed by a non-empty suffix of
    digits or, for an alphanumeric pattern, of [a-zA-Z0-9_]; the span is
    replaced by [[prefix+suffix](url)], the url being the template with
    the suffix in place of [<num>], and scanning resumes at the end of the
    match. When no pattern matches no span is added and the cursor moves
    to the end of the window. The session that [NewReflinker] makes for
    https://github.com/o/r holds the one prefix "GH-" with a numeric
    suffix and the template https://github.com/o/r/issues/<num>, so
    "GH-9" becomes "[GH-9](https://github.com/o/r/issues/9)". *)
Theorem ext_ref_first_pattern_wins (l : Reflinker) (start' end' : Z)
        (before after : list extRef) (x : extRef) (alnum : bool) (s0 e0 : Z) :
  0 <= start' <= end' -> end' <= len (src l) ->
  ext l = before ++ x :: after ->
  literalPrefix (prefix x) = true ->
  regexp.MustCompile (extRefPattern (prefix x) alnum) = OK (pat x) ->
  Forall (fun y => regexp.FindIndex (pat y) (sub (src l) start' end') = None) before ->
  regexp.FindIndex (pat x) (sub (src l) start' end') = Some (s0, e0) ->
  let window := sub (src l) start' end' in
  let suffix := sub window (s0 + len (prefix x)) e0 in
  linkExtRef l start' end'
  = OK (start' + e0,
        appendLink l {| start := start' + s0; end_ := start' + e0;
                        text := B "[" ++ prefix x ++ suffix ++ B "]("
                                  ++ ReplaceAll (url x) (B "<num>") suffix
                                  ++ B ")" |})
  /\ wordBoundary window s0 = true
  /\ sub window s0 e0 = prefix x ++ suffix
  /\ suffix <> []
  /\ forallb (suffixClass alnum) suffix = true
  /\ (forall (l' : Reflinker) (a b : Z),
        0 <= a <= b -> b <= len (src l') ->
        Forall (fun y => regexp.FindIndex (pat y) (sub (src l') a b) = None) (ext l') ->
        linkExtRef l' a b = OK (b, l'))
  /\ NewReflinker (B "https://github.com/o/r") = OK gh
  /\ Link gh (prose (B "GH-9")) (B "GH-9")
     = OK (B "[GH-9](https://github.com/o/r/issues/9)").
Proof.
  intros Hs He Hext Hlit Hpat Hbefore Hx window suffix.
  assert (Hreg : registered x alnum).
  { destruct (MustCompile_literal (prefix x) alnum Hlit) as [r [Hr Hsame]].
    rewrite Hr in Hpat. injection Hpat as Heq.
    unfold registered. rewrite <- Heq. exact Hsame. }
  pose proof Hx as Hx'. unfold registered in Hreg. rewrite Hreg in Hx'.
  apply FindIndex_extPattern in Hx' as [H0 [H1 [H2 [Hwb [Href [Hcls _]]]]]].
  split.
  - unfold linkExtRef. rewrite slice_sub by lia. simpl bind. rewrite Hext.
    rewrite (extRefLoop_first l _ start' end' before after x alnum s0 e0 Hreg Hbefore Hx).
    reflexivity.
  - split; [exact Hwb|]. split; [exact Href|]. split; [|split; [exact Hcls|]].
    + subst suffix window. intros Hnil.
      pose proof (len_nonneg (prefix x)).
      pose proof (len_sub (sub (src l) start' end') (s0 + len (prefix x)) e0
                    ltac:(lia) ltac:(lia)) as Hl.
      rewrite Hnil in Hl. unfold len at 1 in Hl. simpl in Hl. lia.
    + split; [|split; [reflexivity | vm_compute; reflexivity]].
      intros l' a b Hab Hb Hnone. unfold linkExtRef.
      rewrite slice_sub by lia. simpl bind. apply extRefLoop_none. exact Hnone.
Qed.

Lemma ext_ref_first_pattern_wins_witness :
  exists l : Reflinker,
    AddExtRef (reset gh (B "see JIRA-7 and GH-12."))
      (B "JIRA-") (B "https://jira.example/browse/<num>") true = OK l
    /\ linkExtRef l 0 21
       = OK (20, appendLink l {| start := 15; end_ := 20;
                                 text := B "[GH-12](https://github.com/o/r/issues/12)" |}).
Proof.
  eexists. split; [reflexivity|].
  match goal with
  | |- linkExtRef ?l _ _ = _ =>
      pose proof (ext_ref_first_pattern_wins l 0 21 [] (tl (ext l))
                    {| prefix := B "GH-"; pat := extPattern (B "GH-") false;
                       url := B "https://github.com/o/r/issues/<num>" |}
                    false 15 20
                    ltac:(lia) ltac:(vm_compute; discriminate) ltac:(reflexivity)
                    ltac:(reflexivity) ltac:(reflexivity) ltac:(constructor)
                    ltac:(vm_compute; reflexivity))
        as [H _]
  end.
  exact H.
Defined.

(** ** The two notions of boundary *)

Lemma classAt_window (cls : byte -> bool) (l : Reflinker) (o Stop' : Z) (j : nat) :
  0 <= o -> o + Z.of_nat j < Stop' ->
  match nth_error (sub (src l) o Stop') j with
  | Some b => cls b
  | None => false
  end = classAt cls l (o + Z.of_nat j).
Proof.
  intros Ho Hj. rewrite nth_error_sub by lia. unfold classAt.
  replace (o + Z.of_nat j <? 0) with false by (symmetry; apply Z.ltb_ge; lia).
  reflexivity.
Qed.




Lemma classAt_same_src (cls : byte -> bool) (l l' : Reflinker) (i : Z) :
  src l' = src l -> classAt cls l' i = classAt cls l i.
Proof. intros H. unfold classAt. rewrite H. reflexivity. Qed.







(** ** URLs of the forge *)

Lemma sub_at (text a b : bytes) (lo hi : Z) :
  0 <= lo -> skipn (Z.to_nat lo) text = a ++ b -> hi - lo = len a ->
  sub text lo hi = a.
Proof.
  intros Hlo H Hlen. unfold sub. rewrite H.
  replace (Z.to_nat (hi - lo)) with (length a + 0)%nat by (unfold len in Hlen; lia).
  rewrite firstn_app_2. simpl. apply app_nil_r.
Qed.

Section Slug.
Variable R : Type.
Variables (owner rp tail : bytes).
Hypothesis Howner : segmentName owner.
Hypothesis Hrp : segmentName rp.
Hypothesis Htail : runLen regexp.notSlash tail = O.

Lemma slug_skip1 :
  skipn 1 (slugPath owner rp tail) = owner ++ ("/"%byte :: rp ++ tail).
Proof. reflexivity. Qed.

Lemma slug_skip2 :
  skipn (1 + length owner) (slugPath owner rp tail) = "/"%byte :: rp ++ tail.
Proof. apply (skipn_step (slugPath owner rp tail) owner _ 1). exact slug_skip1. Qed.

Lemma slug_skip3 :
  skipn (2 + length owner) (slugPath owner rp tail) = rp ++ tail.
Proof.
  replace (2 + length owner)%nat with (1 + length owner + length (B "/"))%nat
    by (simpl; lia).
  apply (skipn_step (slugPath owner rp tail) (B "/") _ (1 + length owner)).
  exact slug_skip2.
Qed.

Lemma slug_skip4 : skipn (slugEnd owner rp) (slugPath owner rp tail) = tail.
Proof.
  apply (skipn_step (slugPath owner rp tail) rp _ (2 + length owner)).
  exact slug_skip3.
Qed.

(** Both path patterns begin [^/([^/]+/[^/]+)] and go on with a literal
    that begins with [/]: on a path that begins [/owner/repo] the group
    takes [owner/repo] and nothing else. *)
Lemma slug_match (q : bytes) (rest : regexp.Regexp) (c : regexp.captures)
      (k : nat -> regexp.captures -> option R) :
  regexp.matchAt R (slugPath owner rp tail)
    (regexp.Seq regexp.Bol
       (regexp.Seq (regexp.Lit (B "/"))
          (regexp.Seq slugGroup
             (regexp.Seq (regexp.Lit ("/"%byte :: q)) rest)))) 0 c k
  = regexp.matchAt R (slugPath owner rp tail)
      (regexp.Seq (regexp.Lit ("/"%byte :: q)) rest) (slugEnd owner rp)
      ((1%nat, (1%nat, slugEnd owner rp)) :: c) k.
Proof.
  destruct Howner as [Ho1 Ho2]. destruct Hrp as [Hr1 Hr2].
  assert (Hol : (1 <= length owner)%nat) by (destruct owner; [congruence | simpl; lia]).
  assert (Hrl : (1 <= length rp)%nat) by (destruct rp; [congruence | simpl; lia]).
  set (text := slugPath owner rp tail).
  unfold slugGroup.
  rewrite matchAt_Seq, matchAt_Bol. change (Nat.eqb 0 0) with true. cbv iota beta.
  rewrite matchAt_Seq, (matchAt_Lit R text 0 (B "/") (owner ++ B "/" ++ rp ++ tail))
    by reflexivity.
  cbv beta. change (0 + length (B "/"))%nat with 1%nat.
  rewrite matchAt_Seq, matchAt_Group, matchAt_Seq.
  (* the owner *)
  rewrite (matchAt_Rep_whole R text 1 regexp.notSlash 1 owner ("/"%byte :: rp ++ tail));
    [| exact slug_skip1 | exact Ho2 | reflexivity | exact Hol |].
  2:{ intros j Hj. rewrite matchAt_Seq. apply matchAt_Lit_fail.
      rewrite (skipn_inside text owner _ 1 j slug_skip1) by lia.
      apply slash_inside; [assumption | lia]. }
  rewrite matchAt_Seq, (matchAt_Lit R text (1 + length owner) (B "/") (rp ++ tail))
    by exact slug_skip2.
  cbv beta. change (length (B "/")) with 1%nat.
  replace (1 + length owner + 1)%nat with (2 + length owner)%nat by lia.
  (* the repository *)
  rewrite (matchAt_Rep_whole R text (2 + length owner) regexp.notSlash 1 rp tail);
    [| exact slug_skip3 | exact Hr2 | exact Htail | exact Hrl |].
  - reflexivity.
  - intros j Hj. rewrite matchAt_Seq. apply matchAt_Lit_fail.
    rewrite (skipn_inside text rp _ (2 + length owner) j slug_skip3) by lia.
    apply slash_inside; [assumption | lia].
Qed.
End Slug.

Lemma find_anchored_None (r : regexp.Regexp) (text : bytes) :
  regexp.matchAt regexp.found text (regexp.Seq regexp.Bol r) 0 []
    (fun e c => Some (0%nat, e, c)) = None ->
  regexp.find (regexp.Seq regexp.Bol r) text = None.
Proof.
  intros H. apply findFrom_None. intros s' _.
  destruct s' as [|s']; [exact H | reflexivity].
Qed.

Lemma reGitHubCommitPath_shape :
  reGitHubCommitPath
  = regexp.Seq regexp.Bol
      (regexp.Seq (regexp.Lit (B "/"))
         (regexp.Seq slugGroup
            (regexp.Seq (regexp.Lit ("/"%byte :: B "commit/"))
               (regexp.Seq (regexp.Group 2 (regexp.Rep regexp.isXDigit 7))
                  regexp.Eol)))).
Proof. reflexivity. Qed.

Lemma reGitHubIssuePath_shape :
  reGitHubIssuePath
  = regexp.Seq regexp.Bol
      (regexp.Seq (regexp.Lit (B "/"))
         (regexp.Seq slugGroup
            (regexp.Seq (regexp.Lit ("/"%byte :: []))
               (regexp.Seq
                  (regexp.Alt (regexp.Lit (B "pull")) (regexp.Lit (B "issues")))
                  (regexp.Seq (regexp.Lit (B "/"))
                     (regexp.Seq (regexp.Group 2 (regexp.Rep regexp.isDigit 1))
                        (regexp.Seq
                           (regexp.Opt
                              (regexp.Group 3
                                 (regexp.Seq (regexp.Lit (B "#"))
                                    (regexp.Rep regexp.anyChar 1))))
                           regexp.Eol))))))).
Proof. reflexivity. Qed.

(** The commit pattern on [/owner/repo/commit/hash]. *)
Lemma commit_path_found (owner rp hash : bytes) :
  segmentName owner -> segmentName rp ->
  forallb regexp.isXDigit hash = true -> (7 <= length hash)%nat ->
  exists m : regexp.found,
    regexp.FindSubmatch reGitHubCommitPath (commitPath owner rp hash) = Some m
    /\ regexp.submatch (commitPath owner rp hash) m 1 = owner ++ B "/" ++ rp
    /\ regexp.submatch (commitPath owner rp hash) m 2 = hash.
Proof.
  intros Ho Hr Hx Hlen.
  set (p4 := slugEnd owner rp).
  set (p5 := (p4 + 8)%nat).
  set (text := commitPath owner rp hash).
  assert (Hs4 : skipn p4 text = B "/commit/" ++ hash)
    by (apply slug_skip4; reflexivity).
  assert (Hs5 : skipn p5 text = hash ++ [])
    by (rewrite app_nil_r; apply (skipn_step text (B "/commit/") hash p4 Hs4)).
  assert (Hs6 : skipn (p5 + length hash) text = [])
    by (apply (skipn_step text hash [] p5 Hs5)).
  assert (Hlt : length text = (p5 + length hash)%nat).
  { unfold text, commitPath, p5, p4, slugEnd. rewrite !length_app. simpl. lia. }
  exists (0%nat, (p5 + length hash)%nat,
          [(2%nat, (p5, (p5 + length hash)%nat)); (1%nat, (1%nat, p4))]).
  split; [|split].
  - unfold regexp.FindSubmatch. apply find_at_start.
    rewrite reGitHubCommitPath_shape.
    pose proof (slug_match regexp.found owner rp (B "/commit/" ++ hash)
                  Ho Hr eq_refl) as Hslug.
    change (slugPath owner rp (B "/commit/" ++ hash)) with text in Hslug.
    change (slugEnd owner rp) with p4 in Hslug.
    rewrite Hslug. clear Hslug.
    rewrite matchAt_Seq, (matchAt_Lit _ text p4 ("/"%byte :: B "commit/") hash) by exact Hs4.
    cbv beta. change (p4 + length ("/"%byte :: B "commit/"))%nat with p5.
    rewrite matchAt_Seq, matchAt_Group.
    rewrite (matchAt_Rep _ text p5 regexp.isXDigit 7 hash []) by (assumption || reflexivity).
    replace (length hash <? 7)%nat with false by (symmetry; apply Nat.ltb_ge; lia).
    apply tryDown_first. cbv beta.
    replace (7 + (length hash - 7))%nat with (length hash) by lia.
    rewrite matchAt_Eol by (assumption || lia). reflexivity.
  - unfold regexp.submatch. cbn [regexp.lookup Nat.eqb]. cbv iota.
    apply (sub_at text _ (B "/commit/" ++ hash)); [lia | |].
    + change (Z.to_nat (Z.of_nat 1)) with 1%nat.
      unfold text, commitPath. simpl. rewrite <- !app_assoc. reflexivity.
    + unfold p4, slugEnd, len. rewrite !length_app. simpl length. lia.
  - unfold regexp.submatch. cbn [regexp.lookup Nat.eqb]. cbv iota.
    apply (sub_at text _ []); [lia | |].
    + rewrite Nat2Z.id. exact Hs5.
    + unfold len. lia.
Qed.

(** A commit path that goes on after the hash, as with a fragment, is
    matched by neither pattern. *)
Lemma commit_path_fragment_unmatched (owner rp hash more : bytes) (b : byte) :
  segmentName owner -> segmentName rp ->
  forallb regexp.isXDigit hash = true -> regexp.isXDigit b = false ->
  regexp.FindSubmatch reGitHubCommitPath
    (commitPath owner rp (hash ++ b :: more)) = None
  /\ regexp.FindSubmatch reGitHubIssuePath
       (commitPath owner rp (hash ++ b :: more)) = None.
Proof.
  intros Ho Hr Hx Hb.
  set (p4 := slugEnd owner rp).
  set (p5 := (p4 + 8)%nat).
  set (text := commitPath owner rp (hash ++ b :: more)).
  assert (Hs4 : skipn p4 text = B "/commit/" ++ hash ++ b :: more)
    by (apply slug_skip4; reflexivity).
  assert (Hs5 : skipn p5 text = hash ++ b :: more)
    by (apply (skipn_step text (B "/commit/") _ p4 Hs4)).
  split; unfold regexp.FindSubmatch.
  - rewrite reGitHubCommitPath_shape. apply find_anchored_None.
    pose proof (slug_match regexp.found owner rp (B "/commit/" ++ hash ++ b :: more)
                  Ho Hr eq_refl) as Hslug.
    change (slugPath owner rp (B "/commit/" ++ hash ++ b :: more)) with text in Hslug.
    change (slugEnd owner rp) with p4 in Hslug.
    rewrite Hslug. clear Hslug.
    rewrite matchAt_Seq,
      (matchAt_Lit _ text p4 ("/"%byte :: B "commit/") (hash ++ b :: more)) by exact Hs4.
    cbv beta. change (p4 + length ("/"%byte :: B "commit/"))%nat with p5.
    rewrite matchAt_Seq, matchAt_Group.
    rewrite (matchAt_Rep _ text p5 regexp.isXDigit 7 hash (b :: more));
      [| exact Hs5 | exact Hx | simpl; rewrite Hb; reflexivity].
    destruct (length hash <? 7)%nat eqn:E; [reflexivity|]. apply Nat.ltb_ge in E.
    apply tryDown_None. intros j Hj. cbv beta.
    destruct (skipn j hash ++ b :: more) as [|d rest] eqn:Ed.
    + destruct (skipn j hash); discriminate Ed.
    + apply (matchAt_Eol_fail _ text (p5 + j) d rest).
      rewrite (skipn_inside text hash _ p5 j Hs5) by lia. exact Ed.
  - rewrite reGitHubIssuePath_shape. apply find_anchored_None.
    pose proof (slug_match regexp.found owner rp (B "/commit/" ++ hash ++ b :: more)
                  Ho Hr eq_refl) as Hslug.
    change (slugPath owner rp (B "/commit/" ++ hash ++ b :: more)) with text in Hslug.
    change (slugEnd owner rp) with p4 in Hslug.
    rewrite Hslug. clear Hslug.
    rewrite matchAt_Seq,
      (matchAt_Lit _ text p4 ["/"%byte] (B "commit/" ++ hash ++ b :: more)) by exact Hs4.
    cbv beta. rewrite matchAt_Seq, matchAt_Alt.
    assert (Hs : skipn (p4 + length ["/"%byte]) text = B "commit/" ++ hash ++ b :: more)
      by (apply (skipn_step text ["/"%byte] _ p4 Hs4)).
    rewrite !matchAt_Lit_fail by (rewrite Hs; reflexivity). reflexivity.
Qed.

(** [(#.+)?$] at the end of the number. *)
Lemma fragment_match (text frag : bytes) (pe : nat) (c : regexp.captures) :
  skipn pe text = frag -> (pe <= length text)%nat -> fragment frag ->
  regexp.matchAt regexp.found text
    (regexp.Seq
       (regexp.Opt
          (regexp.Group 3
             (regexp.Seq (regexp.Lit (B "#")) (regexp.Rep regexp.anyChar 1))))
       regexp.Eol) pe c (fun e c' => Some (0%nat, e, c'))
  = Some (0%nat, length text,
          match frag with
          | [] => c
          | _ => (3%nat, (pe, length text)) :: c
          end).
Proof.
  intros Hs Hle Hfrag.
  assert (Hlen : (pe + length frag = length text /\ pe <= length text)%nat).
  { pose proof (f_equal (@length byte) Hs) as Hl. rewrite length_skipn in Hl. lia. }
  rewrite matchAt_Seq, matchAt_Opt, matchAt_Group, matchAt_Seq.
  destruct Hfrag as [->|[f [-> [Hne Hany]]]].
  - rewrite matchAt_Lit_fail by (rewrite Hs; reflexivity).
    rewrite matchAt_Eol by (assumption || lia).
    simpl in Hlen. replace (length text) with pe by lia. reflexivity.
  - assert (Hfl : (1 <= length f)%nat) by (destruct f; [congruence | simpl; lia]).
    rewrite (matchAt_Lit _ text pe (B "#") f) by exact Hs. cbv beta.
    assert (Hs' : skipn (pe + length (B "#")) text = f ++ [])
      by (rewrite app_nil_r; apply (skipn_step text (B "#") f pe Hs)).
    rewrite (matchAt_Rep _ text _ regexp.anyChar 1 f []) by (assumption || reflexivity).
    replace (length f <? 1)%nat with false by (symmetry; apply Nat.ltb_ge; lia).
    assert (Hend : (pe + length (B "#") + (1 + (length f - 1)) = length text)%nat).
    { destruct Hlen as [Hl _]. rewrite length_app in Hl. simpl in *. lia. }
    erewrite tryDown_first; [reflexivity|]. cbv beta.
    rewrite Hend. rewrite matchAt_Eol; [reflexivity | | lia].
    apply skipn_all2. lia.
Qed.

Lemma fragment_no_digit (frag : bytes) :
  fragment frag -> runLen regexp.isDigit frag = O.
Proof. intros [->|[f [-> _]]]; reflexivity. Qed.

(** The two patterns on [/owner/repo/pull/N] and [/owner/repo/issues/N],
    with or without a fragment: the commit pattern does not match, the
    issue pattern does. *)
Lemma issue_path_found (owner rp kind num frag : bytes) :
  segmentName owner -> segmentName rp ->
  kind = B "pull" \/ kind = B "issues" ->
  num <> [] -> forallb regexp.isDigit num = true -> fragment frag ->
  regexp.FindSubmatch reGitHubCommitPath (issuePath owner rp kind num frag) = None
  /\ exists m : regexp.found,
       regexp.FindSubmatch reGitHubIssuePath (issuePath owner rp kind num frag) = Some m
       /\ regexp.submatch (issuePath owner rp kind num frag) m 1 = owner ++ B "/" ++ rp
       /\ regexp.submatch (issuePath owner rp kind num frag) m 2 = num
       /\ regexp.submatch (issuePath owner rp kind num frag) m 3 = frag.
Proof.
  intros Ho Hr Hkind Hne Hnum Hfrag.
  set (p4 := slugEnd owner rp).
  set (pk := (p4 + 1 + length kind)%nat).
  set (pn := (pk + 1)%nat).
  set (pe := (pn + length num)%nat).
  set (text := issuePath owner rp kind num frag).
  assert (Hnl : (1 <= length num)%nat) by (destruct num; [congruence | simpl; lia]).
  assert (Hs4 : skipn p4 text = B "/" ++ kind ++ B "/" ++ num ++ frag).
  { apply slug_skip4. reflexivity. }
  assert (Hs4' : skipn (p4 + 1) text = kind ++ B "/" ++ num ++ frag)
    by (apply (skipn_step text (B "/") _ p4 Hs4)).
  assert (Hsk : skipn pk text = B "/" ++ num ++ frag)
    by (apply (skipn_step text kind _ (p4 + 1) Hs4')).
  assert (Hsn : skipn pn text = num ++ frag)
    by (apply (skipn_step text (B "/") _ pk Hsk)).
  assert (Hse : skipn pe text = frag)
    by (apply (skipn_step text num _ pn Hsn)).
  assert (Hlt : length text = (pe + length frag)%nat).
  { unfold text, issuePath, pe, pn, pk, p4, slugEnd. rewrite !length_app. simpl. lia. }
  split; unfold regexp.FindSubmatch.
  - rewrite reGitHubCommitPath_shape. apply find_anchored_None.
    pose proof (slug_match regexp.found owner rp (B "/" ++ kind ++ B "/" ++ num ++ frag)
                  Ho Hr eq_refl) as Hslug.
    change (slugPath owner rp (B "/" ++ kind ++ B "/" ++ num ++ frag)) with text in Hslug.
    change (slugEnd owner rp) with p4 in Hslug.
    rewrite Hslug. clear Hslug.
    rewrite matchAt_Seq. apply matchAt_Lit_fail. rewrite Hs4.
    destruct Hkind as [->| ->]; reflexivity.
  - exists (0%nat, length text,
            match frag with
            | [] => [(2%nat, (pn, pe)); (1%nat, (1%nat, p4))]
            | _ => [(3%nat, (pe, length text)); (2%nat, (pn, pe)); (1%nat, (1%nat, p4))]
            end).
    split; [|split; [|split]].
    + apply find_at_start. rewrite reGitHubIssuePath_shape.
      pose proof (slug_match regexp.found owner rp (B "/" ++ kind ++ B "/" ++ num ++ frag)
                    Ho Hr eq_refl) as Hslug.
      change (slugPath owner rp (B "/" ++ kind ++ B "/" ++ num ++ frag)) with text in Hslug.
      change (slugEnd owner rp) with p4 in Hslug.
      rewrite Hslug. clear Hslug.
      rewrite matchAt_Seq,
        (matchAt_Lit _ text p4 ["/"%byte] (kind ++ B "/" ++ num ++ frag)) by exact Hs4.
      cbv beta. change (p4 + length ["/"%byte])%nat with (p4 + 1)%nat.
      rewrite matchAt_Seq, matchAt_Alt.
      assert (Hk : forall K : nat -> regexp.captures -> option regexp.found,
                 match regexp.matchAt regexp.found text (regexp.Lit (B "pull")) (p4 + 1)
                         [(1%nat, (1%nat, p4))] K with
                 | Some x => Some x
                 | None => regexp.matchAt regexp.found text (regexp.Lit (B "issues"))
                             (p4 + 1) [(1%nat, (1%nat, p4))] K
                 end
                 = match K pk [(1%nat, (1%nat, p4))] with
                   | Some x => Some x
                   | None => if Nat.eqb (length kind) 4 then
                               regexp.matchAt regexp.found text (regexp.Lit (B "issues"))
                                 (p4 + 1) [(1%nat, (1%nat, p4))] K
                             else None
                   end).
      { intros K. unfold pk. destruct Hkind as [Hk| Hk]; rewrite Hk in *.
        - rewrite (matchAt_Lit _ text (p4 + 1) (B "pull") (B "/" ++ num ++ frag)) by exact Hs4'.
          reflexivity.
        - rewrite (matchAt_Lit_fail _ text (p4 + 1) (B "pull")) by (rewrite Hs4'; reflexivity).
          rewrite (matchAt_Lit _ text (p4 + 1) (B "issues") (B "/" ++ num ++ frag)) by exact Hs4'.
          destruct (K _ _); reflexivity. }
      rewrite Hk. clear Hk.
      rewrite matchAt_Seq, (matchAt_Lit _ text pk (B "/") (num ++ frag)) by exact Hsk.
      cbv beta. change (pk + length (B "/"))%nat with pn.
      rewrite matchAt_Seq, matchAt_Group.
      rewrite (matchAt_Rep _ text pn regexp.isDigit 1 num frag)
        by (assumption || apply fragment_no_digit; assumption).
      replace (length num <? 1)%nat with false by (symmetry; apply Nat.ltb_ge; lia).
      erewrite tryDown_first; [reflexivity|]. cbv beta.
      replace (pn + (1 + (length num - 1)))%nat with pe by (unfold pe; lia).
      rewrite (fragment_match text frag pe) by (assumption || lia).
      destruct frag; reflexivity.
    + assert (H1 : regexp.submatch text
                     (0%nat, length text,
                      match frag with
                      | [] => [(2%nat, (pn, pe)); (1%nat, (1%nat, p4))]
                      | _ => [(3%nat, (pe, length text)); (2%nat, (pn, pe));
                              (1%nat, (1%nat, p4))]
                      end) 1
                   = sub text 1 (Z.of_nat p4)) by (destruct frag; reflexivity).
      rewrite H1.
      apply (sub_at text _ (B "/" ++ kind ++ B "/" ++ num ++ frag)); [lia | |].
      * change (Z.to_nat 1) with 1%nat.
        unfold text, issuePath. simpl. rewrite <- !app_assoc. reflexivity.
      * unfold p4, slugEnd, len. rewrite !length_app. simpl length. lia.
    + assert (H2 : regexp.submatch text
                     (0%nat, length text,
                      match frag with
                      | [] => [(2%nat, (pn, pe)); (1%nat, (1%nat, p4))]
                      | _ => [(3%nat, (pe, length text)); (2%nat, (pn, pe));
                              (1%nat, (1%nat, p4))]
                      end) 2
                   = sub text (Z.of_nat pn) (Z.of_nat pe)) by (destruct frag; reflexivity).
      rewrite H2.
      apply (sub_at text _ frag); [lia | |].
      * rewrite Nat2Z.id. exact Hsn.
      * unfold pe, len. lia.
    + destruct Hfrag as [Hf|[f [Hf _]]].
      * rewrite Hf. reflexivity.
      * rewrite Hf at 1. change (B "#" ++ f) with ("#"%byte :: f). cbv iota.
        rewrite Hlt. unfold regexp.submatch. cbn [regexp.lookup Nat.eqb]. cbv iota.
        apply (sub_at text _ []); [lia | |].
        -- rewrite Nat2Z.id, app_nil_r. exact Hse.
        -- unfold len. lia.
Qed.

Lemma IndexFrom_bounds (s sep : bytes) (i : Z) :
  IndexFrom s sep i = -1
  \/ (i <= IndexFrom s sep i /\ IndexFrom s sep i - i + len sep <= len s).
Proof.
  revert i. induction s as [|c s IH]; intros i; simpl.
  - destruct (HasPrefix [] sep) eqn:E; [|left; reflexivity].
    right. apply length_skipn_prefix in E. unfold len. simpl in *. lia.
  - destruct (HasPrefix (c :: s) sep) eqn:E.
    + right. apply length_skipn_prefix in E. unfold len. simpl in *. lia.
    + destruct (IH (i + 1)) as [H|[H1 H2]]; [left; exact H|].
      right. unfold len in *. simpl length. lia.
Qed.

Lemma Index_bounds (s sep : bytes) :
  0 <= Index s sep -> Index s sep + len sep <= len s.
Proof.
  intros H. unfold Index in *.
  destruct (IndexFrom_bounds s sep 0) as [E|[_ E]]; lia.
Qed.

(** The test for a URL written between [<] and [>]. *)
Lemma bracket_check (l : Reflinker) (start' end' : Z) :
  0 <= start' < len (src l) -> start' <= end' <= len (src l) ->
  andThen (start' >? 0)
    (b <- index (src l) (start' - 1) ;;
     andThen (Byte.eqb b "<")
       (andThen (end' <? len (src l))
          (a <- index (src l) end' ;; OK (Byte.eqb a ">"))))
  = OK (bracketed l start' end').
Proof.
  intros Hs He. unfold bracketed.
  destruct (start' >? 0) eqn:E0; simpl.
  - assert (0 < start') by (apply Z.gtb_lt; exact E0).
    destruct (index_nth (src l) (start' - 1)) as [b [Hb Hib]]; [lia|].
    rewrite Hib. simpl. rewrite (classAt_nth _ l (start' - 1) b) by (lia || assumption).
    unfold isByte at 1. destruct (Byte.eqb b "<"); simpl; [|reflexivity].
    destruct (end' <? len (src l)) eqn:E1; simpl.
    + apply Z.ltb_lt in E1.
      destruct (index_nth (src l) end') as [a [Ha Hia]]; [lia|].
      rewrite Hia. simpl. rewrite (classAt_nth _ l end' a) by (lia || assumption).
      reflexivity.
    + apply Z.ltb_ge in E1. rewrite (classAt_outside _ l end') by lia. reflexivity.
  - assert (start' = 0).
    { destruct (Z.gtb_spec start' 0); [discriminate | lia]. }
    subst start'.
    assert (Hout : classAt (isByte "<") l (0 - 1) = false)
      by (apply classAt_outside; lia).
    rewrite Hout. reflexivity.
Qed.

Lemma short_hash (hash : bytes) :
  (if len hash >? 10 then slice hash 0 10 else OK hash) = OK (firstn 10 hash).
Proof.
  destruct (len hash >? 10) eqn:E.
  - assert (10 < len hash) by (apply Z.gtb_lt; exact E).
    rewrite slice_sub by lia. reflexivity.
  - assert (len hash <= 10).
    { destruct (Z.gtb_spec (len hash) 10); [discriminate | lia]. }
    rewrite firstn_all2 by (unfold len in *; lia). reflexivity.
Qed.

(** [linkURL] up to the two patterns: with a Text sibling or none, a URL
    of the forge that is found in the buffer and is not between [<] and
    [>], what is left is the classification of the path. *)
Lemma linkURL_classifies (l : Reflinker) (p : option ast.Node) (u path : bytes)
      (start0 : Z) :
  siblingStop p = Some start0 -> 0 <= start0 <= len (src l) ->
  u = home l ++ path -> path <> [] ->
  let offset := Index (sub (src l) start0 (len (src l))) u in
  let start' := start0 + offset in
  let end' := start' + len u in
  0 <= offset -> bracketed l start' end' = false ->
  linkURL l p u
  = match regexp.FindSubmatch reGitHubCommitPath path with
    | Some m => linkCommitURL l path m u start' end'
    | None =>
        match regexp.FindSubmatch reGitHubIssuePath path with
        | Some m => OK (linkIssueURL l path m u start' end')
        | None => OK l
        end
    end.
Proof.
  intros Hp Hs0 Hu Hpath offset start' end' Hoff Hbr.
  unfold linkURL.
  assert (Hstart : match p with
                   | None => OK 0
                   | Some (ast.Text t) => OK (textm.Stop t)
                   | Some _ => Panic TypeAssertion
                   end = OK start0).
  { destruct p as [[t|cs|cs|v|cs]|]; simpl in Hp; try discriminate;
      injection Hp as <-; reflexivity. }
  rewrite Hstart. simpl bind.
  rewrite Hu at 1. rewrite HasPrefix_app. simpl negb. cbv iota.
  rewrite slice_sub by lia. simpl bind. fold offset.
  replace (offset <? 0) with false by (symmetry; apply Z.ltb_ge; lia).
  fold start'. fold end'.
  pose proof (Index_bounds (sub (src l) start0 (len (src l))) u Hoff) as Hb.
  fold offset in Hb. rewrite len_sub in Hb by lia.
  assert (Hul : 0 < len u).
  { rewrite Hu, len_app. pose proof (len_nonneg (home l)).
    destruct path; [congruence|]. unfold len at 2. simpl. lia. }
  replace ((start' >=? len (src l)) || (end' >? len (src l))) with false.
  2:{ symmetry. apply orb_false_iff. split.
      - destruct (Z.geb_spec start' (len (src l))); [unfold start' in *; lia | reflexivity].
      - destruct (Z.gtb_spec end' (len (src l)));
          [unfold end', start' in *; lia | reflexivity]. }
  rewrite bracket_check by (unfold end', start'; lia).
  simpl bind. rewrite Hbr.
  pose proof (len_nonneg (home l)).
  rewrite slice_sub by (rewrite ?Hu, ?len_app; pose proof (len_nonneg path); lia).
  simpl bind.
  replace (sub u (len (home l)) (len u)) with path; [reflexivity|].
  symmetry. apply (sub_at u path []).
  - lia.
  - unfold len. rewrite Nat2Z.id, app_nil_r, Hu. apply skipn_length_app. reflexivity.
  - rewrite Hu, len_app. lia.
Qed.

Lemma note_of_fragment (frag : bytes) :
  (if len frag >? 0 then
     if HasPrefix frag (B "#pullrequestreview-") then B " (review)"
     else B " (comment)"
   else []) = fragmentNote frag.
Proof. destruct frag; reflexivity. Qed.

Lemma own_repo_prefix (h owner rp rest : bytes) :
  HasPrefix (h ++ B "/" ++ owner ++ B "/" ++ rp ++ rest)
            (h ++ B "/" ++ owner ++ B "/" ++ rp) = true.
Proof.
  replace (h ++ B "/" ++ owner ++ B "/" ++ rp ++ rest)
    with ((h ++ B "/" ++ owner ++ B "/" ++ rp) ++ rest).
  - apply HasPrefix_app.
  - repeat (rewrite <- app_assoc; simpl). reflexivity.
Qed.

(** C5, as the code decides it. Take an AutoLink whose URL starts with the
    home of the session, whose previous sibling is a Text node or absent,
    whose URL is found in the buffer from the end of that sibling on, and
    which is not written between [<] and [>]. If the path is
    [/owner/repo/commit/hash] with at least 7 hexadecimal digits, the URL
    is replaced by a link that shows the first 10 digits of the hash at
    most: [[`short`](url)] when the repository of the session is
    [home/owner/repo], [[owner/repo@`short`](url)] when the URL does not
    start with the repository of the session. If the commit path goes on
    with a fragment, no span is added. If the path is
    [/owner/repo/pull/N] or [/owner/repo/issues/N] with an optional
    fragment, the URL is replaced by [[#N](url)] for the repository of the
    session and by [[owner/repo#N](url)] for a URL that does not start with
    it; after the number comes " (review)" when the fragment starts with
    [#pullrequestreview-] and " (comment)" for another fragment. *)
Theorem forge_url_classified (l : Reflinker) (p : option ast.Node)
        (u path : bytes) (start0 : Z) :
  siblingStop p = Some start0 -> 0 <= start0 <= len (src l) ->
  u = home l ++ path ->
  let offset := Index (sub (src l) start0 (len (src l))) u in
  let start' := start0 + offset in
  let end' := start' + len u in
  0 <= offset -> bracketed l start' end' = false ->
  let span := fun t : bytes =>
    OK (appendLink l {| start := start'; end_ := end'; text := t |}) in
  (forall owner rp hash : bytes,
     segmentName owner -> segmentName rp ->
     forallb regexp.isXDigit hash = true -> (7 <= length hash)%nat ->
     path = commitPath owner rp hash ->
     (repo l = home l ++ B "/" ++ owner ++ B "/" ++ rp ->
      linkURL l p u = span (B "[`" ++ firstn 10 hash ++ B "`](" ++ u ++ B ")"))
     /\ (HasPrefix u (repo l) = false ->
         linkURL l p u
         = span (B "[" ++ owner ++ B "/" ++ rp ++ B "@`" ++ firstn 10 hash
                   ++ B "`](" ++ u ++ B ")")))
  /\ (forall owner rp hash frag : bytes,
        segmentName owner -> segmentName rp ->
        forallb regexp.isXDigit hash = true ->
        path = commitPath owner rp (hash ++ B "#" ++ frag) ->
        linkURL l p u = OK l)
  /\ (forall owner rp kind num frag : bytes,
        segmentName owner -> segmentName rp ->
        kind = B "pull" \/ kind = B "issues" ->
        num <> [] -> forallb regexp.isDigit num = true -> fragment frag ->
        path = issuePath owner rp kind num frag ->
        (repo l = home l ++ B "/" ++ owner ++ B "/" ++ rp ->
         linkURL l p u
         = span (B "[#" ++ num ++ fragmentNote frag ++ B "](" ++ u ++ B ")"))
        /\ (HasPrefix u (repo l) = false ->
            linkURL l p u
            = span (B "[" ++ owner ++ B "/" ++ rp ++ B "#" ++ num
                      ++ fragmentNote frag ++ B "](" ++ u ++ B ")")))
  /\ fragmentNote [] = []
  /\ (forall f : bytes,
        fragmentNote (B "#pullrequestreview-" ++ f) = B " (review)")
  /\ (forall frag : bytes,
        frag <> [] -> HasPrefix frag (B "#pullrequestreview-") = false ->
        fragmentNote frag = B " (comment)")
  /\ Link gh (ast.Other [ast.Other
                [ast.AutoLink (B "https://github.com/o/r/pull/15#pullrequestreview-1")]])
          (B "https://github.com/o/r/pull/15#pullrequestreview-1")
     = OK (B "[#15 (review)](https://github.com/o/r/pull/15#pullrequestreview-1)")
  /\ Link gh (ast.Other [ast.Other
                [ast.AutoLink (B "https://github.com/a/b/pull/15#pullrequestreview-1")]])
          (B "https://github.com/a/b/pull/15#pullrequestreview-1")
     = OK (B "[a/b#15 (review)](https://github.com/a/b/pull/15#pullrequestreview-1)")
  /\ Link gh (ast.Other [ast.Other
                [ast.AutoLink (B "https://github.com/o/r/commit/0123456789abcdef#diff-0")]])
          (B "https://github.com/o/r/commit/0123456789abcdef#diff-0")
     = OK (B "https://github.com/o/r/commit/0123456789abcdef#diff-0").
Proof.
  intros Hp Hs0 Hu offset start' end' Hoff Hbr span.
  split; [|split; [|split]].
  - intros owner rp hash Ho Hr Hx Hlen Hpath.
    assert (Hrun : linkURL l p u
                   = span (if HasPrefix u (repo l)
                           then B "[`" ++ firstn 10 hash ++ B "`](" ++ u ++ B ")"
                           else B "[" ++ (owner ++ B "/" ++ rp) ++ B "@`"
                                  ++ firstn 10 hash ++ B "`](" ++ u ++ B ")")).
    { rewrite (linkURL_classifies l p u path start0 Hp Hs0 Hu)
        by (assumption || (rewrite Hpath; discriminate)).
      destruct (commit_path_found owner rp hash Ho Hr Hx Hlen) as [m [Hm [H1 H2]]].
      rewrite Hpath, Hm. unfold linkCommitURL. rewrite H1, H2, short_hash.
      reflexivity. }
    split.
    + intros Hrepo. rewrite Hrun. f_equal.
      replace (HasPrefix u (repo l)) with true; [reflexivity|].
      symmetry. rewrite Hu, Hpath, Hrepo. unfold commitPath.
      apply own_repo_prefix.
    + intros Hforeign. rewrite Hrun, Hforeign. rewrite <- !app_assoc. reflexivity.
  - intros owner rp hash frag Ho Hr Hx Hpath.
    rewrite (linkURL_classifies l p u path start0 Hp Hs0 Hu)
      by (assumption || (rewrite Hpath; discriminate)).
    destruct (commit_path_fragment_unmatched owner rp hash frag "#"%byte Ho Hr Hx eq_refl)
      as [H1 H2].
    rewrite Hpath. change (B "#" ++ frag) with ("#"%byte :: frag).
    rewrite H1, H2. reflexivity.
  - intros owner rp kind num frag Ho Hr Hkind Hne Hnum Hfrag Hpath.
    assert (Hrun : linkURL l p u
                   = span (if HasPrefix u (repo l)
                           then B "[#" ++ num ++ fragmentNote frag ++ B "](" ++ u ++ B ")"
                           else B "[" ++ (owner ++ B "/" ++ rp) ++ B "#" ++ num
                                  ++ fragmentNote frag ++ B "](" ++ u ++ B ")")).
    { rewrite (linkURL_classifies l p u path start0 Hp Hs0 Hu)
        by (assumption || (rewrite Hpath; discriminate)).
      destruct (issue_path_found owner rp kind num frag Ho Hr Hkind Hne Hnum Hfrag)
        as [Hc [m [Hm [H1 [H2 H3]]]]].
      rewrite Hpath, Hc, Hm. unfold linkIssueURL. rewrite H1, H2, H3, note_of_fragment.
      reflexivity. }
    split.
    + intros Hrepo. rewrite Hrun. f_equal.
      replace (HasPrefix u (repo l)) with true; [reflexivity|].
      symmetry. rewrite Hu, Hpath, Hrepo. unfold issuePath.
      apply own_repo_prefix.
    + intros Hforeign. rewrite Hrun, Hforeign. rewrite <- !app_assoc. reflexivity.
  - split; [reflexivity|]. split; [|split].
    + intros f. unfold fragmentNote.
      change (B "#pullrequestreview-" ++ f) with ("#"%byte :: B "pullrequestreview-" ++ f).
      cbv iota.
      change ("#"%byte :: B "pullrequestreview-" ++ f) with (B "#pullrequestreview-" ++ f).
      rewrite HasPrefix_app. reflexivity.
    + intros frag Hne Hpre. destruct frag; [congruence|].
      unfold fragmentNote. rewrite Hpre. reflexivity.
    + repeat split; vm_compute; reflexivity.
Qed.

Lemma forge_url_classified_witness :
  let u := B "https://github.com/o/r/commit/0123456789abcdef" in
  let l := reset gh (B "see " ++ u) in
  linkURL l (Some (ast.Text {| textm.Start := 0; textm.Stop := 4 |})) u
  = OK (appendLink l
          {| start := 4; end_ := 50;
             text := B "[`0123456789`](https://github.com/o/r/commit/0123456789abcdef)" |}).
Proof.
  intros u l.
  pose proof (forge_url_classified l
                (Some (ast.Text {| textm.Start := 0; textm.Stop := 4 |}))
                u (B "/o/r/commit/0123456789abcdef") 4
                ltac:(reflexivity)
                ltac:(vm_compute; split; discriminate)
                ltac:(reflexivity)
                ltac:(vm_compute; discriminate)
                ltac:(vm_compute; reflexivity)) as [H _].
  destruct (H (B "o") (B "r") (B "0123456789abcdef")
              ltac:(split; [discriminate | reflexivity])
              ltac:(split; [discriminate | reflexivity])
              ltac:(reflexivity) ltac:(simpl; lia) ltac:(reflexivity)) as [Hown _].
  exact (Hown eq_refl).
Defined.

(** C5 as the specification words it fails on an autolink written
    between [<] and [>]: its URL starts with the home of the session and
    has a commit path, and the code leaves it as it is. It also fails on
    a repository whose URL begins with the URL of the session's
    repository: the pull request of o/r2 is shown as one of o/r. *)
Lemma forge_url_in_angle_brackets_kept :
  let u := B "https://github.com/o/r/commit/0123456" in
  let input := B "<" ++ u ++ B ">" in
  HasPrefix u (home gh) = true
  /\ u = home gh ++ commitPath (B "o") (B "r") (B "0123456")
  /\ Link gh (ast.Other [ast.Other [ast.AutoLink u]]) input = OK input
  /\ Link gh (ast.Other [ast.Other
                [ast.AutoLink (B "https://github.com/o/r2/pull/15")]])
          (B "https://github.com/o/r2/pull/15")
     = OK (B "[#15](https://github.com/o/r2/pull/15)").
Proof. vm_compute. repeat split; reflexivity. Qed.

(** ** The primary pass over a Text segment *)

Lemma IndexAnyFrom_spec (s chars : bytes) (i : Z) :
  IndexAnyFrom s chars i = -1
  \/ (i <= IndexAnyFrom s chars i < i + len s
      /\ exists c : byte,
           nth_error s (Z.to_nat (IndexAnyFrom s chars i - i)) = Some c
           /\ existsb (Byte.eqb c) chars = true).
Proof.
  revert i. induction s as [|c s IH]; intros i; simpl; [left; reflexivity|].
  destruct (existsb (Byte.eqb c) chars) eqn:E.
  - right. unfold len. simpl length. split; [lia|].
    exists c. rewrite Z.sub_diag. split; [reflexivity | exact E].
  - destruct (IH (i + 1)) as [H|[H [d [Hd He]]]]; [left; exact H|].
    right. unfold len in *. simpl length. split; [lia|].
    exists d. split; [|exact He].
    replace (Z.to_nat (IndexAnyFrom s chars (i + 1) - i))
      with (S (Z.to_nat (IndexAnyFrom s chars (i + 1) - (i + 1)))) by lia.
    exact Hd.
Qed.

(** A trigger byte that is neither [#] nor [@] is a digit or one of [a-f]. *)
Lemma trigger_hex (c : byte) :
  existsb (Byte.eqb c) (B "#@1234567890abcdef") = true ->
  Byte.eqb c "#" = false -> Byte.eqb c "@" = false -> isLowerHex c = true.
Proof. destruct c; vm_compute; congruence. Qed.

Lemma hexRun_positive (l : Reflinker) (begin end' : Z) :
  0 <= begin < end' -> end' <= len (src l) ->
  classAt isLowerHex l begin = true -> 1 <= hexRun l begin end'.
Proof.
  intros Hb He Hhex.
  destruct (sub_cons (src l) begin end') as [b [Hnth Hsub]]; [lia|lia|].
  rewrite (classAt_nth _ l begin b) in Hhex by (lia || assumption).
  unfold hexRun. rewrite Hsub. simpl runLen. rewrite Hhex. lia.
Qed.

Lemma extends_refl (l : Reflinker) : extends l l.
Proof. repeat split. exists []. now rewrite app_nil_r. Qed.

Lemma extends_append (l : Reflinker) (r : refLink) : extends l (appendLink l r).
Proof. repeat split. exists [r]. reflexivity. Qed.

Lemma extends_trans (l l' l'' : Reflinker) :
  extends l l' -> extends l' l'' -> extends l l''.
Proof.
  intros [H1 [H2 [H3 [H4 [a Ha]]]]] [K1 [K2 [K3 [K4 [b Hb]]]]].
  repeat split; try congruence.
  exists (a ++ b). rewrite Hb, Ha, app_assoc. reflexivity.
Qed.

(** One dispatch of the primary pass: the matcher returns, the cursor
    moves forward and stays in the segment. *)
Lemma dispatch_advances (l : Reflinker) (begin Stop' : Z) (c : byte) :
  0 <= begin -> begin + 1 < Stop' <= len (src l) ->
  nth_error (src l) (Z.to_nat begin) = Some c ->
  existsb (Byte.eqb c) (B "#@1234567890abcdef") = true ->
  exists (o' : Z) (l' : Reflinker),
    (if Byte.eqb c "#" then linkIssueRef l begin Stop'
     else if Byte.eqb c "@" then linkUserRef l begin Stop'
     else linkCommitSHA l begin Stop') = OK (o', l')
    /\ begin < o' <= Stop' /\ extends l l'.
Proof.
  intros Hb He Hc Htrig.
  destruct (Byte.eqb c "#") eqn:E1; [|destruct (Byte.eqb c "@") eqn:E2].
  - apply Byte.byte_dec_bl in E1. subst c.
    rewrite (linkIssueRef_accepts l begin Stop') by assumption.
    pose proof (digitRun_bounds l begin Stop' Hb ltac:(lia)) as Hk.
    destruct (issueRefAccepted l begin Stop'); eexists _, _;
      (split; [reflexivity|]); (split; [lia|]);
      [apply extends_append | apply extends_refl].
  - apply Byte.byte_dec_bl in E2. subst c.
    rewrite (linkUserRef_accepts l begin Stop') by assumption.
    pose proof (nameRun_bounds l begin Stop' Hb ltac:(lia)) as Hk.
    destruct (userRefAccepted l begin Stop'); eexists _, _;
      (split; [reflexivity|]); (split; [lia|]);
      [apply extends_append | apply extends_refl].
  - assert (Hhex : classAt isLowerHex l begin = true).
    { rewrite (classAt_nth _ l begin c) by (lia || assumption).
      apply trigger_hex; assumption. }
    rewrite (linkCommitSHA_accepts l begin Stop') by (lia || assumption).
    pose proof (hexRun_bounds l begin Stop' ltac:(lia) ltac:(lia)) as Hk.
    pose proof (hexRun_positive l begin Stop' ltac:(lia) ltac:(lia) Hhex) as Hpos.
    unfold hashLen in *.
    destruct (commitAccepted l begin Stop'); eexists _, _;
      (split; [reflexivity|]); (split; [lia|]);
      [apply extends_append | apply extends_refl].
Qed.

Lemma gitHubRefsLoop_total (Stop' : Z) :
  forall (fuel : nat) (o : Z) (l : Reflinker),
    0 <= o -> Stop' <= len (src l) ->
    (Z.to_nat (Stop' - o) <= fuel)%nat ->
    exists l' : Reflinker,
      gitHubRefsLoop Stop' fuel o l = OK l' /\ extends l l'.
Proof.
  induction fuel as [|fuel IH]; intros o l Ho Hstop Hfuel.
  - exists l. simpl.
    replace (o <? Stop' - 1) with false by (symmetry; apply Z.ltb_ge; lia).
    split; [reflexivity | apply extends_refl].
  - simpl. destruct (o <? Stop' - 1) eqn:Hlt;
      [|exists l; split; [reflexivity | apply extends_refl]].
    apply Z.ltb_lt in Hlt.
    rewrite slice_sub by lia. simpl bind.
    assert (Hwin : len (sub (src l) o Stop') = Stop' - o) by (apply len_sub; lia).
    unfold IndexAny.
    destruct (IndexAnyFrom_spec (sub (src l) o Stop') (B "#@1234567890abcdef") 0)
      as [Hnone|[Hi [c [Hc Htrig]]]].
    + rewrite Hnone. simpl. exists l. split; [reflexivity | apply extends_refl].
    + set (i := IndexAnyFrom (sub (src l) o Stop') (B "#@1234567890abcdef") 0) in *.
      rewrite Z.sub_0_r in Hc.
      replace (i <? 0) with false by (symmetry; apply Z.ltb_ge; lia).
      rewrite Hwin. simpl orb.
      destruct (Stop' - o - 1 <=? i) eqn:Hlast;
        [exists l; split; [reflexivity | apply extends_refl]|].
      apply Z.leb_gt in Hlast.
      destruct (index_nth (sub (src l) o Stop') i) as [c' [Hc' Hidx]]; [lia|].
      rewrite Hc in Hc'. injection Hc' as <-. rewrite Hidx. simpl bind.
      assert (Hsrc : nth_error (src l) (Z.to_nat (o + i)) = Some c).
      { rewrite <- Hc. rewrite nth_error_sub by lia. f_equal. lia. }
      destruct (dispatch_advances l (o + i) Stop' c ltac:(lia) ltac:(lia) Hsrc Htrig)
        as [o' [l' [Hrun [Ho' Hext]]]].
      rewrite Hrun. simpl bind.
      destruct Hext as [H1 [H2 [H3 [H4 Hadd]]]].
      destruct (IH o' l') as [l'' [Hrun' Hext']]; [lia | rewrite H3; lia | lia |].
      exists l''. split; [exact Hrun'|].
      apply (extends_trans l l' l''); [|exact Hext'].
      repeat split; assumption.
Qed.

(** The primary pass over a Text segment that lies in the buffer returns:
    no index or slice of a matcher is out of range and the loop ends. *)
Lemma linkGitHubRefs_total (l : Reflinker) (t : textm.Segment) :
  0 <= textm.Start t -> textm.Stop t <= len (src l) ->
  exists l' : Reflinker, linkGitHubRefs l t = OK l' /\ extends l l'.
Proof.
  intros HS Hstop. unfold linkGitHubRefs.
  apply gitHubRefsLoop_total; [exact HS | exact Hstop | lia].
Qed.

(** ** The walk returns on a well-formed tree *)

Lemma extRefLoop_returns (l : Reflinker) (o Stop' : Z) (exts : list extRef) :
  Forall (fun x => exists alphanumeric : bool, registered x alphanumeric) exts ->
  0 <= o -> o < Stop' -> Stop' <= len (src l) ->
  exists (o' : Z) (l' : Reflinker),
    extRefLoop l (sub (src l) o Stop') o Stop' exts = OK (o', l')
    /\ o < o' <= Stop' /\ extends l l'.
Proof.
  intros Hexts Ho Hlt Hstop.
  induction Hexts as [|x xs [alnum Hreg] Hxs IH]; simpl.
  - exists Stop', l. split; [reflexivity|]. split; [lia | apply extends_refl].
  - destruct (regexp.FindIndex (pat x) (sub (src l) o Stop')) as [[s0 e0]|] eqn:Hfind;
      [|exact IH].
    pose proof Hfind as Hx. unfold registered in Hreg. rewrite Hreg in Hx.
    apply FindIndex_extPattern in Hx as [H0 [H1 [H2 _]]].
    pose proof (len_nonneg (prefix x)) as Hp.
    rewrite len_sub in H2 by lia.
    rewrite slice_sub by (rewrite ?len_sub by lia; lia). simpl bind.
    rewrite slice_sub by (rewrite ?len_sub by (rewrite ?len_sub by lia; lia); lia).
    simpl bind. eexists _, _. split; [reflexivity|].
    split; [lia | apply extends_append].
Qed.

Lemma extRefsLoop_total (Stop' : Z) :
  forall (fuel : nat) (o : Z) (l : Reflinker),
    allRegistered l -> 0 <= o -> Stop' <= len (src l) ->
    (Z.to_nat (Stop' - o) <= fuel)%nat ->
    exists l' : Reflinker, extRefsLoop Stop' fuel o l = OK l' /\ extends l l'.
Proof.
  induction fuel as [|fuel IH]; intros o l Hreg Ho Hstop Hfuel.
  - exists l. simpl.
    replace (o <? Stop' - 1) with false by (symmetry; apply Z.ltb_ge; lia).
    split; [reflexivity | apply extends_refl].
  - simpl. destruct (o <? Stop' - 1) eqn:Hlt;
      [|exists l; split; [reflexivity | apply extends_refl]].
    apply Z.ltb_lt in Hlt. unfold linkExtRef.
    rewrite slice_sub by lia. simpl bind.
    destruct (extRefLoop_returns l o Stop' (ext l) Hreg Ho ltac:(lia) Hstop)
      as [o' [l' [Hrun [Ho' Hext]]]].
    rewrite Hrun. simpl bind.
    pose proof Hext as [H1 [H2 [H3 [H4 Hadd]]]].
    destruct (IH o' l') as [l'' [Hrun' Hext']];
      [unfold allRegistered; rewrite H4; exact Hreg | lia | rewrite H3; lia | lia |].
    exists l''. split; [exact Hrun' | apply (extends_trans l l' l''); assumption].
Qed.

Lemma linkExtRefs_total (l : Reflinker) (t : textm.Segment) :
  allRegistered l -> 0 <= textm.Start t -> textm.Stop t <= len (src l) ->
  exists l' : Reflinker, linkExtRefs l t = OK l' /\ extends l l'.
Proof.
  intros Hreg HS Hstop. unfold linkExtRefs.
  apply extRefsLoop_total; [exact Hreg | exact HS | exact Hstop | lia].
Qed.

(** [linkURL] returns when the previous sibling is a Text node that ends
    in the buffer, or when there is none. *)
Lemma linkURL_total (l : Reflinker) (p : option ast.Node) (u : bytes) (start0 : Z) :
  siblingStop p = Some start0 -> 0 <= start0 <= len (src l) ->
  exists l' : Reflinker, linkURL l p u = OK l' /\ extends l l'.
Proof.
  intros Hp Hs0. unfold linkURL.
  assert (Hstart : match p with
                   | None => OK 0
                   | Some (ast.Text t) => OK (textm.Stop t)
                   | Some _ => Panic TypeAssertion
                   end = OK start0).
  { destruct p as [[t|cs|cs|v|cs]|]; simpl in Hp; try discriminate;
      injection Hp as <-; reflexivity. }
  rewrite Hstart. simpl bind.
  destruct (HasPrefix u (home l)) eqn:Hhome; simpl negb; cbv iota;
    [|exists l; split; [reflexivity | apply extends_refl]].
  rewrite slice_sub by lia. simpl bind.
  set (offset := Index (sub (src l) start0 (len (src l))) u).
  destruct (offset <? 0) eqn:Hoff;
    [exists l; split; [reflexivity | apply extends_refl]|].
  apply Z.ltb_ge in Hoff.
  set (start' := start0 + offset). set (end' := start' + len u).
  destruct ((start' >=? len (src l)) || (end' >? len (src l))) eqn:Hin;
    [exists l; split; [reflexivity | apply extends_refl]|].
  apply orb_false_iff in Hin as [Hin1 Hin2].
  assert (start' < len (src l))
    by (destruct (Z.geb_spec start' (len (src l))); [discriminate | lia]).
  assert (end' <= len (src l))
    by (destruct (Z.gtb_spec end' (len (src l))); [discriminate | lia]).
  pose proof (len_nonneg u).
  rewrite bracket_check by (unfold end', start' in *; lia). simpl bind.
  destruct (bracketed l start' end');
    [exists l; split; [reflexivity | apply extends_refl]|].
  pose proof (length_skipn_prefix _ _ Hhome) as Hlen.
  pose proof (len_nonneg (home l)).
  rewrite slice_sub by (unfold len in *; lia). simpl bind.
  destruct (regexp.FindSubmatch reGitHubCommitPath _) as [m|].
  - unfold linkCommitURL. rewrite short_hash. simpl bind.
    eexists. split; [reflexivity | apply extends_append].
  - destruct (regexp.FindSubmatch reGitHubIssuePath _) as [m|].
    + eexists. split; [reflexivity | apply extends_append].
    + exists l. split; [reflexivity | apply extends_refl].
Qed.

Lemma allRegistered_extends (l l' : Reflinker) :
  extends l l' -> allRegistered l -> allRegistered l'.
Proof. intros [_ [_ [_ [H _]]]] Hreg. unfold allRegistered. rewrite H. exact Hreg. Qed.

(** The walk over a walkable tree returns: the matchers and the URL
    classifier meet no index, slice or type assertion that fails, and
    every scanning loop ends. *)
Lemma Walk_total (s : bytes) :
  forall (n : ast.Node) (p : option ast.Node) (l : Reflinker),
    src l = s -> allRegistered l -> walkable s n p ->
    exists l' : Reflinker, Walk n p l = OK l' /\ extends l l'.
Proof.
  fix IH 1. intros n p l Hsrc Hreg Hwf.
  destruct n as [t|cs|cs|u|cs].
  - (* Text *)
    simpl in Hwf. destruct Hwf as [HS Hstop].
    destruct (linkGitHubRefs_total l t ltac:(lia) ltac:(rewrite Hsrc; lia))
      as [l1 [Hrun1 Hext1]].
    pose proof Hext1 as [_ [_ [Hsrc1 _]]].
    destruct (linkExtRefs_total l1 t (allRegistered_extends l l1 Hext1 Hreg)
                ltac:(lia) ltac:(rewrite Hsrc1, Hsrc; lia))
      as [l2 [Hrun2 Hext2]].
    exists l2. split; [|apply (extends_trans l l1 l2); assumption].
    simpl. rewrite Hrun1. simpl bind. rewrite Hrun2. reflexivity.
  - exists l. split; [reflexivity | apply extends_refl].
  - exists l. split; [reflexivity | apply extends_refl].
  - (* AutoLink *)
    simpl in Hwf.
    assert (Hstop : exists start0, siblingStop p = Some start0 /\ 0 <= start0 <= len (src l)).
    { destruct p as [[t|cs|cs|v|cs]|]; try contradiction.
      - exists (textm.Stop t). split; [reflexivity | rewrite Hsrc; exact Hwf].
      - exists 0. split; [reflexivity | pose proof (len_nonneg (src l)); lia]. }
    destruct Hstop as [start0 [Hp Hs0]].
    destruct (linkURL_total l p u start0 Hp Hs0) as [l' [Hrun Hext]].
    exists l'. split; [|exact Hext]. simpl. rewrite Hrun. reflexivity.
  - (* the other nodes: the children in turn *)
    simpl in Hwf. simpl.
    revert Hwf. generalize (@None ast.Node) as q. revert l Hsrc Hreg.
    induction cs as [|c cs IHcs]; intros l Hsrc Hreg q Hwf.
    + exists l. split; [reflexivity | apply extends_refl].
    + destruct Hwf as [Hc Hrest].
      destruct (IH c q l Hsrc Hreg Hc) as [l1 [Hrun1 Hext1]].
      pose proof Hext1 as [_ [_ [Hsrc1 _]]].
      destruct (IHcs l1 ltac:(congruence) (allRegistered_extends l l1 Hext1 Hreg)
                  (Some c) Hrest) as [l2 [Hrun2 Hext2]].
      exists l2. split; [|apply (extends_trans l l1 l2); assumption].
      rewrite Hrun1. simpl bind. exact Hrun2.
Qed.

Lemma buildLoop_outcome (s : bytes) (rs : list refLink) :
  forall (i : Z) (out : bytes),
    (exists r : bytes, buildLoop s rs i out = OK r)
    \/ buildLoop s rs i out = Panic SliceBounds.
Proof.
  induction rs as [|r rs IH]; intros i out; simpl.
  - unfold slice. destruct ((0 <=? i) && (i <=? len s) && (len s <=? len s));
      [left; eexists; reflexivity | right; reflexivity].
  - unfold slice. destruct ((0 <=? i) && (i <=? start r) && (start r <=? len s));
      [apply IH | right; reflexivity].
Qed.

(** On a walkable tree [Link] ends in one of two ways: it returns a text,
    or the rebuilder slices the source out of bounds. *)
Lemma Link_outcome (l : Reflinker) (t : ast.Node) (input : bytes) :
  allRegistered l -> walkable input t None ->
  (exists out : bytes, Link l t input = OK out)
  \/ Link l t input = Panic SliceBounds.
Proof.
  intros Hreg Hwf. unfold Link.
  destruct (Walk_total input t None (reset l input) eq_refl Hreg Hwf) as [l1 [Hrun _]].
  rewrite Hrun. simpl bind.
  destruct (negb (isLinkDetected l1)); [left; eexists; reflexivity|].
  apply buildLoop_outcome.
Qed.

(** ** The walk and the whole transformation *)

(** C2 does not hold of the code. In the input below the engine
    recognizes no reference: the code span is not read and the URL of
    the AutoLink is not one of the forge. [Link] does not return it: on
    the AutoLink, [linkURL] asserts that the previous sibling, the code
    span, is a Text node, before it looks at the URL. *)
Theorem unrecognized_document_panics :
  let u := B "https://example.com" in
  let input := B "`a`<" ++ u ++ B ">" in
  let tree :=
    ast.Other [ast.Other
      [ ast.CodeSpan [ast.Text {| textm.Start := 1; textm.Stop := 2 |}];
        ast.AutoLink u ]] in
  Forall (unrecognized (reset gh input)) (visibleItems tree None)
  /\ Link gh tree input = Panic TypeAssertion.
Proof.
  intros u input tree. split; [|vm_compute; reflexivity].
  constructor; [left; vm_compute; reflexivity | constructor].
Qed.

Lemma Walk_skips (l : Reflinker) (cs : list ast.Node) (p : option ast.Node) :
  Walk (ast.CodeSpan cs) p l = OK l /\ Walk (ast.Link cs) p l = OK l.
Proof. split; reflexivity. Qed.

(** C7 does not hold of the code. The walker never enters a CodeSpan or a
    Link, so no matcher runs on their text: inline code such as `#123`
    and the text of a link made by an earlier run pass through unchanged.
    But [linkURL] looks for the URL of an AutoLink from the end of the
    previous sibling on, and from the start of the buffer when there is
    no sibling; the first occurrence it finds can lie in a code span of
    an earlier paragraph, and the span it adds then rewrites that code. *)
Theorem code_span_rewritten_by_later_autolink :
  let u := B "https://github.com/o/r/issues/1" in
  let input := B "`" ++ u ++ B "`" ++ nl ++ nl ++ u in
  let tree :=
    ast.Other
      [ ast.Other [ast.CodeSpan [ast.Text {| textm.Start := 1; textm.Stop := 32 |}]];
        ast.Other [ast.AutoLink u] ] in
  Link gh tree input
  = OK (B "`[#1](https://github.com/o/r/issues/1)`" ++ nl ++ nl ++ u)
  /\ (forall (l : Reflinker) (cs : list ast.Node) (p : option ast.Node),
        Walk (ast.CodeSpan cs) p l = OK l /\ Walk (ast.Link cs) p l = OK l)
  /\ Link gh (ast.Other [ast.Other
                [ast.CodeSpan [ast.Text {| textm.Start := 1; textm.Stop := 5 |}]]])
          (B "`#123`")
     = OK (B "`#123`")
  /\ Link gh (ast.Other [ast.Other
                [ ast.Text {| textm.Start := 0; textm.Stop := 6 |};
                  ast.Link [ast.Text {| textm.Start := 7; textm.Stop := 11 |}] ]])
          (B "fixed [#123](https://github.com/o/r/issues/123)")
     = OK (B "fixed [#123](https://github.com/o/r/issues/123)").
Proof.
  intros u input tree. split; [vm_compute; reflexivity|].
  split; [intros; apply Walk_skips|].
  split; vm_compute; reflexivity.
Qed.

(** C9 does not hold of the code. An AutoLink whose previous sibling is
    not a Text node, as after a code span, stops [linkURL] at its type
    assertion. And spans that overlap or repeat -- a mention and an
    external reference over the same bytes, or the same URL found twice
    from the start of the buffer -- make the rebuilder slice the source
    with a start beyond the end. What does hold: on a tree whose Text
    segments lie in the buffer and whose AutoLinks follow a Text node or
    nothing, every matcher returns and every scanning loop ends, so
    [Link] returns a text unless the rebuilder slices out of bounds. *)
Theorem transform_panics :
  let u := B "https://github.com/o/r/issues/1" in
  Link gh (ast.Other [ast.Other
             [ ast.CodeSpan [ast.Text {| textm.Start := 1; textm.Stop := 2 |}];
               ast.AutoLink u ]])
       (B "`a`<" ++ u ++ B ">")
  = Panic TypeAssertion
  /\ Link gh (prose (B "@GH-1")) (B "@GH-1") = Panic SliceBounds
  /\ Link gh (ast.Other [ast.Other [ast.AutoLink u]; ast.Other [ast.AutoLink u]])
          (u ++ nl ++ nl ++ u)
     = Panic SliceBounds
  /\ (forall (l : Reflinker) (t : ast.Node) (input : bytes),
        allRegistered l -> walkable input t None ->
        (exists out : bytes, Link l t input = OK out)
        \/ Link l t input = Panic SliceBounds).
Proof.
  intros u. split; [vm_compute; reflexivity|].
  split; [vm_compute; reflexivity|].
  split; [vm_compute; reflexivity|].
  intros l t input. apply Link_outcome.
Qed.

(** ** What the primary pass records over a segment *)

Lemma withLinks_nil (l : Reflinker) : withLinks l [] = l.
Proof. destruct l. unfold withLinks. simpl. rewrite app_nil_r. reflexivity. Qed.

Lemma withLinks_append (l : Reflinker) (r : refLink) (more : list refLink) :
  withLinks (appendLink l r) more = withLinks l (r :: more).
Proof. unfold withLinks, appendLink. simpl. rewrite <- app_assoc. reflexivity. Qed.



Lemma chain_bounds (i n : Z) (rs : list refLink) : chain i rs n -> i <= n.
Proof.
  revert i. induction rs as [|r rs IH]; intros i H; simpl in H; [exact H|].
  destruct H as [H1 [H2 H3]]. apply IH in H3. lia.
Qed.

Lemma chain_from (i j n : Z) (rs : list refLink) :
  j <= i -> chain i rs n -> chain j rs n.
Proof.
  destruct rs as [|r rs]; simpl; intros Hj H; [lia|].
  destruct H as [H1 H2]. split; [lia | exact H2].
Qed.

(** The bytes before the offset that [IndexAny] returns are none of
    [chars], and none is when it returns -1. *)
Lemma IndexAnyFrom_before (s chars : bytes) :
  forall (i : Z) (j : nat) (b : byte),
    0 <= i -> nth_error s j = Some b ->
    IndexAnyFrom s chars i = -1 \/ i + Z.of_nat j < IndexAnyFrom s chars i ->
    existsb (Byte.eqb b) chars = false.
Proof.
  induction s as [|c s IH]; intros i j b Hi Hj Hbefore; [destruct j; discriminate|].
  simpl in Hbefore. destruct (existsb (Byte.eqb c) chars) eqn:E.
  - destruct Hbefore as [H|H]; lia.
  - destruct j as [|j]; simpl in Hj.
    + injection Hj as <-. exact E.
    + apply (IH (i + 1) j b); [lia | exact Hj |].
      destruct Hbefore as [H|H]; [left; exact H | right; lia].
Qed.

(** The three matchers read the buffer, [l.repo] and [l.home] only. *)
Lemma referenceAt_same (l l' : Reflinker) (p stop : Z) :
  src l' = src l -> repo l' = repo l -> home l' = home l ->
  referenceAt l' p stop = referenceAt l p stop.
Proof.
  destruct l as [r h s e k], l' as [r' h' s' e' k']. simpl.
  intros -> -> ->. reflexivity.
Qed.

Lemma not_trigger (b : byte) :
  existsb (Byte.eqb b) triggers = false ->
  isByte "#" b = false /\ isByte "@" b = false /\ isLowerHex b = false.
Proof. destruct b; vm_compute; intuition congruence. Qed.

Lemma hex_not_marker (b : byte) :
  isLowerHex b = true -> isByte "#" b = false /\ isByte "@" b = false.
Proof. destruct b; vm_compute; intuition congruence. Qed.

(** A commit hash starts with a byte of [0-9a-f]. *)
Lemma commitAccepted_head (l : Reflinker) (p stop : Z) :
  0 <= p -> commitAccepted l p stop = true -> classAt isLowerHex l p = true.
Proof.
  intros Hp H. unfold commitAccepted in H.
  apply andb_true_iff in H as [H _]. apply andb_true_iff in H as [H _].
  apply Z.eqb_eq in H. unfold hexRun, hashLen in H.
  destruct (sub (src l) p stop) as [|b s] eqn:Hsub; [simpl in H; lia|].
  simpl in H. destruct (isLowerHex b) eqn:Hb; [|simpl in H; lia].
  assert (Hnth : nth_error (sub (src l) p stop) 0 = Some b) by (rewrite Hsub; reflexivity).
  assert (Hlt : p < stop).
  { destruct (Z_lt_le_dec p stop) as [Hlt|Hge]; [exact Hlt|].
    rewrite sub_empty in Hsub by lia. discriminate. }
  rewrite nth_error_sub in Hnth by (simpl; lia).
  replace (p + Z.of_nat 0) with p in Hnth by (simpl; lia).
  rewrite (classAt_nth _ l p b) by assumption. exact Hb.
Qed.

(** No reference starts at a byte that is not a trigger. *)
Lemma referenceAt_no_trigger (l : Reflinker) (p stop : Z) :
  0 <= p -> classAt (fun b => existsb (Byte.eqb b) triggers) l p = false ->
  referenceAt l p stop = None.
Proof.
  intros Hp Hno. unfold referenceAt.
  assert (Hcls : classAt (isByte "#") l p = false /\ classAt (isByte "@") l p = false
                 /\ classAt isLowerHex l p = false).
  { unfold classAt in *. destruct (p <? 0); [auto|].
    destruct (nth_error (src l) (Z.to_nat p)) as [b|]; [|auto].
    apply not_trigger. exact Hno. }
  destruct Hcls as [H1 [H2 H3]]. rewrite H1, H2.
  destruct (commitAccepted l p stop) eqn:Hc; [|reflexivity].
  apply commitAccepted_head in Hc; [congruence | exact Hp].
Qed.

(** A mention that is accepted has a name. *)
Lemma userRefAccepted_name (l : Reflinker) (begin stop : Z) :
  0 <= begin -> begin + 1 < stop <= len (src l) ->
  userRefAccepted l begin stop = true -> 1 <= nameRun l begin stop.
Proof.
  intros Hb Hs H. unfold userRefAccepted in H.
  apply andb_true_iff in H as [H _]. apply andb_true_iff in H as [H _].
  apply andb_true_iff in H as [H _]. apply andb_true_iff in H as [_ H].
  destruct (sub_cons (src l) (begin + 1) stop) as [b [Hnth Hsub]]; [lia|lia|].
  rewrite (classAt_nth _ l (begin + 1) b) in H by (lia || assumption).
  unfold nameRun. rewrite Hsub. simpl runLen.
  rewrite isUserNameChar_alnum, H. simpl. lia.
Qed.

Lemma classAt_true (cls : byte -> bool) (l : Reflinker) (i : Z) :
  classAt cls l i = true ->
  0 <= i /\ exists b : byte, nth_error (src l) (Z.to_nat i) = Some b /\ cls b = true.
Proof.
  unfold classAt. destruct (i <? 0) eqn:Hi; [discriminate|].
  apply Z.ltb_ge in Hi.
  destruct (nth_error (src l) (Z.to_nat i)) as [b|]; [|discriminate].
  intros H. split; [exact Hi | exists b; split; [reflexivity | exact H]].
Qed.

(** The bytes of a run are in the class of the run. *)
Lemma run_class (cls : byte -> bool) (l : Reflinker) (lo hi k : Z) :
  0 <= lo -> hi <= len (src l) ->
  0 <= k < Z.of_nat (runLen cls (sub (src l) lo hi)) ->
  classAt cls l (lo + k) = true.
Proof.
  intros Hlo Hhi Hk.
  assert (Hlt : lo < hi).
  { destruct (Z_lt_le_dec lo hi) as [H|H]; [exact H|].
    rewrite sub_empty in Hk by lia. simpl in Hk. lia. }
  pose proof (runLen_le cls (sub (src l) lo hi)) as Hle.
  pose proof (len_sub (src l) lo hi ltac:(lia) Hhi) as Hlen. unfold len in Hlen.
  destruct (nth_error (sub (src l) lo hi) (Z.to_nat k)) as [b|] eqn:Hnth;
    [|apply nth_error_None in Hnth; lia].
  pose proof (runLen_class cls (sub (src l) lo hi) (Z.to_nat k) b ltac:(lia) Hnth) as Hb.
  rewrite nth_error_sub in Hnth by lia.
  rewrite Z2Nat.id in Hnth by lia.
  rewrite (classAt_nth cls l (lo + k) b) by (lia || assumption). exact Hb.
Qed.

(** No reference starts at the last byte of a segment. *)
Lemma referenceAt_last (l : Reflinker) (stop : Z) :
  1 <= stop <= len (src l) -> referenceAt l (stop - 1) stop = None.
Proof.
  intros Hs. unfold referenceAt.
  assert (Hissue : issueRefAccepted l (stop - 1) stop = false).
  { unfold issueRefAccepted, digitRun. rewrite sub_empty by lia. simpl.
    rewrite andb_false_r. reflexivity. }
  assert (Huser : userRefAccepted l (stop - 1) stop = false).
  { unfold userRefAccepted, nameRun. rewrite sub_empty by lia. simpl runLen.
    cbv zeta.
    replace (stop - 1 + 1 + Z.of_nat 0) with stop by (simpl; lia).
    replace (stop - 1 + 1) with stop by lia.
    destruct (classAt isAlnum l stop) eqn:Ha;
      [|rewrite andb_false_r; reflexivity].
    apply classAt_true in Ha as [H0 [b [Hnth Hb]]].
    rewrite (isBoundaryAt_nth l stop b H0 Hnth).
    unfold isAlnum in Hb. apply negb_true_iff in Hb. rewrite Hb.
    rewrite !andb_false_r. reflexivity. }
  assert (Hcommit : commitAccepted l (stop - 1) stop = false).
  { unfold commitAccepted.
    pose proof (hexRun_bounds l (stop - 1) stop ltac:(lia) ltac:(lia)) as Hk.
    replace (hexRun l (stop - 1) stop =? hashLen) with false; [reflexivity|].
    symmetry. apply Z.eqb_neq. unfold hashLen. lia. }
  rewrite Hissue, Huser, Hcommit.
  destruct (classAt (isByte "#") l (stop - 1)), (classAt (isByte "@") l (stop - 1));
    reflexivity.
Qed.

(** No reference starts at a byte of [0-9a-f] that follows another one. *)
Lemma referenceAt_inside_hex (l : Reflinker) (p stop : Z) :
  classAt isLowerHex l (p - 1) = true -> classAt isLowerHex l p = true ->
  referenceAt l p stop = None.
Proof.
  intros Hprev Hcur. unfold referenceAt.
  apply classAt_true in Hcur as [Hp [b [Hnth Hb]]].
  destruct (hex_not_marker b Hb) as [H1 H2].
  rewrite (classAt_nth _ l p b Hp Hnth), H1.
  rewrite (classAt_nth _ l p b Hp Hnth), H2.
  apply classAt_true in Hprev as [Hq [a [Hnth' Ha]]].
  unfold commitAccepted.
  rewrite (isBoundaryAt_nth l (p - 1) a Hq Hnth').
  rewrite (isLowerHex_alnum a Ha), andb_false_r. reflexivity.
Qed.

(** One dispatch of the primary pass records the reference that starts at
    the trigger, if there is one, and moves the cursor past it; without
    one the cursor moves over bytes at which no reference starts. *)
Lemma dispatch_reference (l : Reflinker) (begin Stop' : Z) (c : byte) :
  0 <= begin -> begin + 1 < Stop' <= len (src l) ->
  nth_error (src l) (Z.to_nat begin) = Some c ->
  existsb (Byte.eqb c) triggers = true ->
  exists o' : Z,
    (if Byte.eqb c "#" then linkIssueRef l begin Stop'
     else if Byte.eqb c "@" then linkUserRef l begin Stop'
     else linkCommitSHA l begin Stop')
    = OK (o', match referenceAt l begin Stop' with
              | Some r => appendLink l r
              | None => l
              end)
    /\ begin < o' <= Stop'
    /\ (forall r : refLink, referenceAt l begin Stop' = Some r ->
          start r = begin /\ end_ r = o' /\ begin + 2 <= o')
    /\ (forall p : Z, begin < p < o' -> referenceAt l begin Stop' = None ->
          referenceAt l p Stop' = None).
Proof.
  intros Hb He Hc Htrig. unfold referenceAt at 1 2 3.
  rewrite !(classAt_nth _ l begin c Hb Hc). unfold isByte at 1 2 3 4 5 6.
  destruct (Byte.eqb c "#") eqn:E1; [|destruct (Byte.eqb c "@") eqn:E2].
  - apply Byte.byte_dec_bl in E1. subst c.
    rewrite (linkIssueRef_accepts l begin Stop') by assumption.
    pose proof (digitRun_bounds l begin Stop' Hb ltac:(lia)) as Hk.
    destruct (issueRefAccepted l begin Stop') eqn:Hacc.
    + exists (begin + 1 + digitRun l begin Stop').
      unfold issueRefAccepted in Hacc.
      apply andb_true_iff in Hacc as [Hacc _]. apply andb_true_iff in Hacc as [_ Hacc].
      apply Z.leb_le in Hacc.
      split; [reflexivity|]. split; [lia|]. split.
      * intros r Hr. injection Hr as <-. simpl. lia.
      * intros p Hp Hr. discriminate.
    + exists (begin + 1). split; [reflexivity|]. split; [lia|]. split.
      * intros r Hr. discriminate.
      * intros p Hp _. lia.
  - apply Byte.byte_dec_bl in E2. subst c.
    rewrite (linkUserRef_accepts l begin Stop') by assumption.
    pose proof (nameRun_bounds l begin Stop' Hb ltac:(lia)) as Hk.
    destruct (userRefAccepted l begin Stop') eqn:Hacc.
    + exists (begin + 1 + nameRun l begin Stop').
      pose proof (userRefAccepted_name l begin Stop' Hb He Hacc) as Hname.
      split; [reflexivity|]. split; [lia|]. split.
      * intros r Hr. injection Hr as <-. simpl. lia.
      * intros p Hp Hr. discriminate.
    + exists (begin + 1). split; [reflexivity|]. split; [lia|]. split.
      * intros r Hr. discriminate.
      * intros p Hp _. lia.
  - assert (Hhex : classAt isLowerHex l begin = true).
    { rewrite (classAt_nth _ l begin c) by (lia || assumption).
      apply trigger_hex; assumption. }
    rewrite (linkCommitSHA_accepts l begin Stop') by (lia || assumption).
    pose proof (hexRun_bounds l begin Stop' ltac:(lia) ltac:(lia)) as Hk.
    pose proof (hexRun_positive l begin Stop' ltac:(lia) ltac:(lia) Hhex) as Hpos.
    exists (begin + Z.min (hexRun l begin Stop') hashLen).
    split; [destruct (commitAccepted l begin Stop'); reflexivity|].
    split; [unfold hashLen; lia|]. split.
    + intros r Hr. destruct (commitAccepted l begin Stop') eqn:Hacc; [|discriminate].
      injection Hr as <-. simpl.
      unfold commitAccepted in Hacc.
      apply andb_true_iff in Hacc as [Hacc _]. apply andb_true_iff in Hacc as [Hacc _].
      apply Z.eqb_eq in Hacc. rewrite Hacc. unfold hashLen. lia.
    + intros p Hp _.
      apply referenceAt_inside_hex.
      * replace (p - 1) with (begin + (p - 1 - begin)) by lia.
        apply (run_class isLowerHex l begin Stop');
          [lia | lia | fold (hexRun l begin Stop'); lia].
      * replace p with (begin + (p - begin)) by lia.
        apply (run_class isLowerHex l begin Stop');
          [lia | lia | fold (hexRun l begin Stop'); lia].
Qed.

(** No reference starts before the trigger that [IndexAny] finds in the
    window, nor anywhere in a window without a trigger. *)
Lemma window_no_reference (l : Reflinker) (o Stop' p : Z) :
  0 <= o -> Stop' <= len (src l) -> o <= p < Stop' ->
  IndexAny (sub (src l) o Stop') triggers = -1
  \/ p - o < IndexAny (sub (src l) o Stop') triggers ->
  referenceAt l p Stop' = None.
Proof.
  intros Ho Hstop Hp Hbefore.
  apply referenceAt_no_trigger; [lia|].
  destruct (sub_cons (src l) p Stop') as [b [Hnth _]]; [lia|lia|].
  rewrite (classAt_nth _ l p b) by (lia || assumption).
  apply (IndexAnyFrom_before (sub (src l) o Stop') triggers 0 (Z.to_nat (p - o)) b);
    [lia | | unfold IndexAny in Hbefore; lia].
  rewrite nth_error_sub by lia. rewrite <- Hnth. f_equal. lia.
Qed.

(** The loop of the primary pass from the cursor [o] on: it returns, the
    spans it records are laid out from [o] to the end of the segment, each
    is the reference that starts at its offset, and every offset at which
    a reference starts is in one of them. *)
Lemma gitHubRefsLoop_spans (l0 : Reflinker) (Stop' : Z) :
  Stop' <= len (src l0) ->
  forall (fuel : nat) (o : Z) (l : Reflinker),
    src l = src l0 -> repo l = repo l0 -> home l = home l0 ->
    0 <= o <= Stop' ->
    (Z.to_nat (Stop' - o) <= fuel)%nat ->
    exists added : list refLink,
      gitHubRefsLoop Stop' fuel o l = OK (withLinks l added)
      /\ chain o added Stop'
      /\ Forall (fun r => referenceAt l0 (start r) Stop' = Some r
                          /\ start r + 2 <= end_ r) added
      /\ (forall p : Z, o <= p < Stop' -> referenceAt l0 p Stop' <> None ->
            Exists (fun r => covers r p) added).
Proof.
  intros Hstop.
  assert (Hlast : forall o p : Z, 0 <= o -> Stop' - 1 <= o -> o <= p < Stop' ->
                    referenceAt l0 p Stop' <> None -> False).
  { intros o p Ho Hge Hp Hr. apply Hr.
    replace p with (Stop' - 1) by lia. apply referenceAt_last. lia. }
  induction fuel as [|fuel IH]; intros o l Hsrc Hrepo Hhome Ho Hfuel.
  - exists []. simpl.
    replace (o <? Stop' - 1) with false by (symmetry; apply Z.ltb_ge; lia).
    rewrite withLinks_nil. split; [reflexivity|]. split; [lia|].
    split; [constructor|]. intros p Hp Hr. exfalso. apply (Hlast o p); lia || assumption.
  - simpl. destruct (o <? Stop' - 1) eqn:Hlt.
    2:{ apply Z.ltb_ge in Hlt. exists []. rewrite withLinks_nil.
        split; [reflexivity|]. split; [simpl; lia|]. split; [constructor|].
        intros p Hp Hr. exfalso. apply (Hlast o p); lia || assumption. }
    apply Z.ltb_lt in Hlt.
    rewrite slice_sub by (rewrite ?Hsrc; lia). simpl bind.
    assert (Hwin : len (sub (src l) o Stop') = Stop' - o)
      by (apply len_sub; rewrite ?Hsrc; lia).
    fold triggers.
    pose proof (window_no_reference l0 o Stop') as Hquiet. rewrite <- Hsrc in Hquiet.
    unfold IndexAny in *.
    destruct (IndexAnyFrom_spec (sub (src l) o Stop') triggers 0)
      as [Hnone|[Hi [c [Hc Htrig]]]].
    + rewrite Hnone. simpl. exists []. rewrite withLinks_nil.
      split; [reflexivity|]. split; [simpl; lia|]. split; [constructor|].
      intros p Hp Hr. exfalso. apply Hr.
      apply Hquiet; [lia | rewrite ?Hsrc; lia | lia | left; exact Hnone].
    + set (i := IndexAnyFrom (sub (src l) o Stop') triggers 0) in *.
      rewrite Z.sub_0_r in Hc.
      replace (i <? 0) with false by (symmetry; apply Z.ltb_ge; lia).
      rewrite Hwin. simpl orb.
      destruct (Stop' - o - 1 <=? i) eqn:Hend.
      * apply Z.leb_le in Hend. exists []. rewrite withLinks_nil.
        split; [reflexivity|]. split; [simpl; lia|]. split; [constructor|].
        intros p Hp Hr. destruct (Z_lt_le_dec p (o + i)) as [Hbefore|Hafter].
        -- exfalso. apply Hr.
           apply Hquiet; [lia | rewrite ?Hsrc; lia | lia | right; lia].
        -- exfalso. apply (Hlast (o + i) p); lia || assumption.
      * apply Z.leb_gt in Hend.
        destruct (index_nth (sub (src l) o Stop') i) as [c' [Hc' Hidx]]; [lia|].
        rewrite Hc in Hc'. injection Hc' as <-. rewrite Hidx. simpl bind.
        assert (Hnth : nth_error (src l) (Z.to_nat (o + i)) = Some c).
        { rewrite <- Hc. rewrite nth_error_sub by lia. f_equal. lia. }
        destruct (dispatch_reference l (o + i) Stop' c ltac:(lia)
                    ltac:(rewrite ?Hsrc; lia) Hnth Htrig)
          as [o' [Hrun [Ho' [Hspan Hskip]]]].
        rewrite Hrun. simpl bind.
        assert (Hsame : forall p : Z, referenceAt l p Stop' = referenceAt l0 p Stop')
          by (intros p; apply referenceAt_same; congruence).
        destruct (referenceAt l (o + i) Stop') as [r|] eqn:Href.
        -- destruct (Hspan r eq_refl) as [Hs [He Hlen]].
           destruct (IH o' (appendLink l r)) as [added [Hrun' [Hchain [Hsound Hcomplete]]]];
             [exact Hsrc | exact Hrepo | exact Hhome | lia | lia |].
           exists (r :: added). rewrite <- withLinks_append.
           split; [exact Hrun'|]. split; [simpl; rewrite He; repeat split; [lia|lia|exact Hchain]|].
           split.
           ++ constructor; [|exact Hsound].
              rewrite <- Hsame, Hs, Href. split; [reflexivity | lia].
           ++ intros p Hp Hr. destruct (Z_lt_le_dec p o') as [Hin|Hout].
              ** destruct (Z_lt_le_dec p (o + i)) as [Hbefore|Hafter].
                 --- exfalso. apply Hr.
                     apply Hquiet; [lia | rewrite ?Hsrc; lia | lia | right; lia].
                 --- apply Exists_cons_hd. unfold covers. lia.
              ** apply Exists_cons_tl. apply Hcomplete; [lia | exact Hr].
        -- destruct (IH o' l) as [added [Hrun' [Hchain [Hsound Hcomplete]]]];
             [exact Hsrc | exact Hrepo | exact Hhome | lia | lia |].
           exists added. split; [exact Hrun'|].
           split; [apply (chain_from o'); [lia | exact Hchain]|].
           split; [exact Hsound|].
           intros p Hp Hr. destruct (Z_lt_le_dec p o') as [Hin|Hout].
           ++ exfalso. apply Hr. rewrite <- Hsame.
              destruct (Z_lt_le_dec p (o + i)) as [Hbefore|Hafter].
              ** rewrite Hsame.
                 apply Hquiet; [lia | rewrite ?Hsrc; lia | lia | right; lia].
              ** destruct (Z.eq_dec p (o + i)) as [->|Hne]; [exact Href|].
                 apply Hskip; [lia | reflexivity].
           ++ apply Hcomplete; [lia | exact Hr].
Qed.

Lemma linkGitHubRefs_spans (l : Reflinker) (t : textm.Segment) :
  0 <= textm.Start t <= textm.Stop t -> textm.Stop t <= len (src l) ->
  exists added : list refLink,
    linkGitHubRefs l t = OK (withLinks l added)
    /\ chain (textm.Start t) added (textm.Stop t)
    /\ Forall (fun r => referenceAt l (start r) (textm.Stop t) = Some r
                        /\ start r + 2 <= end_ r) added
    /\ (forall p : Z, textm.Start t <= p < textm.Stop t ->
          referenceAt l p (textm.Stop t) <> None ->
          Exists (fun r => covers r p) added).
Proof.
  intros HS Hstop. unfold linkGitHubRefs.
  apply (gitHubRefsLoop_spans l (textm.Stop t) Hstop); try reflexivity; lia.
Qed.

(** X1. The primary pass over a Text segment that lies in the buffer
    returns: no index or slice of a matcher is out of range and the loop
    ends within one step per byte. It changes the session by appending
    spans only, and the spans it appends are laid out from left to right
    inside the segment, none crossing the one before it, each at least
    two bytes long. *)
Theorem primary_pass_spans_in_order (l : Reflinker) (t : textm.Segment) :
  0 <= textm.Start t <= textm.Stop t -> textm.Stop t <= len (src l) ->
  exists added : list refLink,
    linkGitHubRefs l t = OK (withLinks l added)
    /\ chain (textm.Start t) added (textm.Stop t)
    /\ Forall (fun r => start r + 2 <= end_ r) added.
Proof.
  intros HS Hstop.
  destruct (linkGitHubRefs_spans l t HS Hstop) as [added [Hrun [Hchain [Hsound _]]]].
  exists added. split; [exact Hrun|]. split; [exact Hchain|].
  apply (Forall_impl _ (P := fun r => referenceAt l (start r) (textm.Stop t) = Some r
                                      /\ start r + 2 <= end_ r));
    [intros r [_ H]; exact H | exact Hsound].
Qed.

Lemma primary_pass_spans_in_order_witness :
  let l := reset gh (B "fix #12 by @bob") in
  let t := {| textm.Start := 0; textm.Stop := 15 |} in
  exists added : list refLink,
    linkGitHubRefs l t = OK (withLinks l added)
    /\ chain 0 added 15
    /\ Forall (fun r => start r + 2 <= end_ r) added.
Proof.
  intros l t.
  apply (primary_pass_spans_in_order l t); [simpl; lia | vm_compute; discriminate].
Defined.

(** X2. Every span that the primary pass appends is a reference: the
    byte at its start is [#], [@] or a byte of [0-9a-f], the matcher of
    that byte accepts there, and the span and its text are the ones of
    that issue reference, mention or commit hash. *)
Theorem primary_pass_links_only_references (l : Reflinker) (t : textm.Segment) :
  0 <= textm.Start t <= textm.Stop t -> textm.Stop t <= len (src l) ->
  exists added : list refLink,
    linkGitHubRefs l t = OK (withLinks l added)
    /\ Forall (fun r => referenceAt l (start r) (textm.Stop t) = Some r) added.
Proof.
  intros HS Hstop.
  destruct (linkGitHubRefs_spans l t HS Hstop) as [added [Hrun [_ [Hsound _]]]].
  exists added. split; [exact Hrun|].
  apply (Forall_impl _ (P := fun r => referenceAt l (start r) (textm.Stop t) = Some r
                                      /\ start r + 2 <= end_ r));
    [intros r [H _]; exact H | exact Hsound].
Qed.

Lemma primary_pass_links_only_references_witness :
  let l := reset gh (B "fix #12 by @bob") in
  let t := {| textm.Start := 0; textm.Stop := 15 |} in
  exists added : list refLink,
    linkGitHubRefs l t = OK (withLinks l added)
    /\ Forall (fun r => referenceAt l (start r) 15 = Some r) added.
Proof.
  intros l t.
  apply (primary_pass_links_only_references l t);
    [simpl; lia | vm_compute; discriminate].
Defined.

(** X3. The primary pass misses no reference: every offset of the
    segment at which an issue reference, a mention or a commit hash is
    accepted lies in a span that the pass appends, and that span is
    itself the reference that starts at its own offset: the reference at
    the offset, or one that starts further left and holds the offset. *)
Theorem primary_pass_misses_no_reference (l : Reflinker) (t : textm.Segment) :
  0 <= textm.Start t <= textm.Stop t -> textm.Stop t <= len (src l) ->
  exists added : list refLink,
    linkGitHubRefs l t = OK (withLinks l added)
    /\ forall p : Z, textm.Start t <= p < textm.Stop t ->
         referenceAt l p (textm.Stop t) <> None ->
         Exists (fun r => covers r p
                          /\ referenceAt l (start r) (textm.Stop t) = Some r) added.
Proof.
  intros HS Hstop.
  destruct (linkGitHubRefs_spans l t HS Hstop) as [added [Hrun [_ [Hsound Hcomplete]]]].
  exists added. split; [exact Hrun|].
  intros p Hp Hr. specialize (Hcomplete p Hp Hr).
  rewrite Exists_exists in *. destruct Hcomplete as [r [Hin Hcov]].
  exists r. split; [exact Hin|]. split; [exact Hcov|].
  rewrite Forall_forall in Hsound. destruct (Hsound r Hin) as [H _]. exact H.
Qed.

Lemma primary_pass_misses_no_reference_witness :
  let l := reset gh (B "fix #12 by @bob") in
  let t := {| textm.Start := 0; textm.Stop := 15 |} in
  exists added : list refLink,
    linkGitHubRefs l t = OK (withLinks l added)
    /\ forall p : Z, 0 <= p < 15 ->
         referenceAt l p 15 <> None ->
         Exists (fun r => covers r p /\ referenceAt l (start r) 15 = Some r) added.
Proof.
  intros l t.
  apply (primary_pass_misses_no_reference l t);
    [simpl; lia | vm_compute; discriminate].
Defined.

(** ** What the external pass records over a segment *)

Lemma sub_sub (s : bytes) (o n a b : Z) :
  0 <= o -> 0 <= a <= b -> o + b <= n ->
  sub (sub s o n) a b = sub s (o + a) (o + b).
Proof.
  intros Ho Ha Hb. unfold sub.
  rewrite skipn_firstn_comm, firstn_firstn, skipn_skipn.
  f_equal; [|f_equal]; lia.
Qed.

(** A match of an external pattern ends before a byte that is not of
    [a-zA-Z0-9_], or at the end of the text: the alphanumeric suffix is
    taken whole, the numeric one is followed by [\b]. *)
Lemma extPattern_matchAt_end (text p : bytes) (alnum : bool) (s : nat)
      (m : regexp.found) :
  regexp.matchAt regexp.found text (extPattern p alnum) s []
    (fun e c => Some (s, e, c)) = Some m ->
  exists e : nat, m = (s, e, []) /\ regexp.wordAt text e = false.
Proof.
  destruct alnum.
  - intros H. apply extPattern_matchAt in H as [n [Hm [_ [_ [_ Hmax]]]]].
    specialize (Hmax eq_refl). exists (s + length p + n)%nat.
    split; [exact Hm|]. unfold regexp.wordAt.
    destruct (nth_error text (s + length p + n)) as [b|] eqn:Eb; [|reflexivity].
    apply (runLen_stop regexp.isWord (skipn (s + length p) text)).
    rewrite nth_error_skipn, <- Hmax. exact Eb.
  - cbn [extPattern regexp.matchAt].
    destruct (xorb (regexp.wordBefore text s) (regexp.wordAt text s)); try discriminate.
    destruct (HasPrefix (skipn s text) p); try discriminate.
    set (run := runLen regexp.isDigit (skipn (s + length p) text)).
    destruct (run <? 1)%nat eqn:E; [discriminate|]. apply Nat.ltb_ge in E.
    intros H. apply tryDown_Some in H as [j [Hj Hk]].
    destruct (xorb _ _) eqn:Hb in Hk; [|discriminate].
    injection Hk as <-. exists (s + length p + j)%nat. split; [reflexivity|].
    assert (Hprev : regexp.wordBefore text (s + length p + j) = true).
    { replace (s + length p + j)%nat with (S (s + length p + (j - 1))) by lia.
      unfold regexp.wordBefore, regexp.wordAt.
      pose proof (runLen_le regexp.isDigit (skipn (s + length p) text)) as Hle.
      fold run in Hle.
      destruct (nth_error (skipn (s + length p) text) (j - 1)) as [b|] eqn:Eb;
        [|apply nth_error_None in Eb; lia].
      pose proof (runLen_class regexp.isDigit (skipn (s + length p) text) (j - 1) b
                    ltac:(fold run; lia) Eb) as Hd.
      rewrite nth_error_skipn in Eb. rewrite Eb.
      unfold regexp.isWord. rewrite Hd. reflexivity. }
    rewrite Hprev in Hb. destruct (regexp.wordAt text (s + length p + j));
      [discriminate | reflexivity].
Qed.

Lemma FindIndex_extPattern_end (text p : bytes) (alnum : bool) (s0 e0 : Z) :
  regexp.FindIndex (extPattern p alnum) text = Some (s0, e0) ->
  regexp.wordAt text (Z.to_nat e0) = false.
Proof.
  unfold regexp.FindIndex, regexp.find.
  destruct (regexp.findFrom _ text (length text) 0) as [[[s e] c]|] eqn:E; [|discriminate].
  intros H. injection H as <- <-.
  apply findFrom_Some in E as [s' [_ [Hm _]]].
  apply extPattern_matchAt_end in Hm as [e' [Hm Hend]].
  injection Hm as _ He _. rewrite Nat2Z.id, He. exact Hend.
Qed.

(** One round of [linkExtRef] over the window from the cursor [o] to the
    end of the segment: either no entry matches and the cursor moves to
    the end, or the first entry that matches is linked at its leftmost
    match and the cursor moves past that match. *)
Lemma extRefLoop_result (l : Reflinker) (o Stop' : Z) (exts : list extRef) :
  let s := sub (src l) o Stop' in
  (Forall (fun y => regexp.FindIndex (pat y) s = None) exts
   /\ extRefLoop l s o Stop' exts = OK (Stop', l))
  \/ exists (before after : list extRef) (x : extRef) (s0 e0 : Z),
       exts = before ++ x :: after
       /\ Forall (fun y => regexp.FindIndex (pat y) s = None) before
       /\ regexp.FindIndex (pat x) s = Some (s0, e0).
Proof.
  intros s. induction exts as [|x xs IH].
  - left. split; [constructor | reflexivity].
  - destruct (regexp.FindIndex (pat x) s) as [[s0 e0]|] eqn:Hfind.
    + right. exists [], xs, x, s0, e0. repeat split; [constructor | exact Hfind].
    + destruct IH as [[Hnone Hrun]|[before [after [y [s0 [e0 [Heq [Hnone Hfind']]]]]]]].
      * left. split; [constructor; assumption|]. simpl. rewrite Hfind. exact Hrun.
      * right. exists (x :: before), after, y, s0, e0.
        repeat split; [rewrite Heq; reflexivity | constructor; assumption | exact Hfind'].
Qed.

(** The span of a match of a registered entry in the window that starts
    at the cursor [o]. *)
Lemma extSpan_of_match (l : Reflinker) (o Stop' : Z) (x : extRef) (alnum : bool)
      (s0 e0 : Z) :
  0 <= o -> o < Stop' -> Stop' <= len (src l) ->
  In x (ext l) -> registered x alnum ->
  regexp.FindIndex (pat x) (sub (src l) o Stop') = Some (s0, e0) ->
  let r := {| start := o + s0; end_ := o + e0;
              text := extRefText x (sub (sub (src l) o Stop') (s0 + len (prefix x)) e0) |} in
  extSpan l r /\ o <= start r /\ start r < end_ r /\ end_ r <= Stop'
  /\ (end_ r < Stop' -> classAt regexp.isWord l (end_ r) = false).
Proof.
  intros Ho Hlt Hstop Hin Hreg Hfind r.
  pose proof Hfind as Hx. unfold registered in Hreg. rewrite Hreg in Hx.
  pose proof (FindIndex_extPattern_end _ _ _ _ _ Hx) as Hend.
  apply FindIndex_extPattern in Hx as [H0 [H1 [H2 [_ [Hsplit [Hcls _]]]]]].
  pose proof (len_nonneg (prefix x)) as Hp.
  rewrite len_sub in H2 by lia.
  split; [|simpl; split; [lia|]; split; [lia|]; split; [lia|];
           intros Hin'; simpl in Hin' |- *; rewrite <- Hend; unfold regexp.wordAt;
           replace (o + e0) with (o + Z.of_nat (Z.to_nat e0)) by lia;
           symmetry; apply classAt_window; lia].
  exists x, alnum, (sub (sub (src l) o Stop') (s0 + len (prefix x)) e0).
  split; [exact Hin|]. split; [exact Hreg|].
  split; [unfold covered, r; simpl; rewrite <- (sub_sub (src l) o Stop') by lia; exact Hsplit|].
  split; [simpl; rewrite len_sub by (rewrite ?len_sub by lia; lia); lia|].
  split; [|split; [exact Hcls | reflexivity]].
  intros Hnil.
  assert (Hlen : len (sub (sub (src l) o Stop') (s0 + len (prefix x)) e0)
                 = e0 - (s0 + len (prefix x)))
    by (apply len_sub; rewrite ?len_sub by lia; lia).
  rewrite Hnil in Hlen. unfold len in *. simpl in Hlen. lia.
Qed.

Lemma extSpan_same (l l' : Reflinker) (r : refLink) :
  src l' = src l -> ext l' = ext l -> extSpan l r -> extSpan l' r.
Proof.
  intros Hsrc Hext [x [a [suffix H]]]. exists x, a, suffix.
  rewrite Hsrc, Hext. exact H.
Qed.

(** The loop of the external pass from the cursor [o] on: it returns, and
    the spans it records are laid out from [o] to the end of the segment,
    each over a registered prefix and its suffix. *)
Lemma extRefsLoop_spans (l0 : Reflinker) (Stop' : Z) :
  allRegistered l0 -> Stop' <= len (src l0) ->
  forall (fuel : nat) (o : Z) (l : Reflinker),
    src l = src l0 -> ext l = ext l0 ->
    0 <= o <= Stop' ->
    (Z.to_nat (Stop' - o) <= fuel)%nat ->
    exists added : list refLink,
      extRefsLoop Stop' fuel o l = OK (withLinks l added)
      /\ chain o added Stop'
      /\ Forall (fun r => extSpan l0 r /\ start r < end_ r
                          /\ (end_ r < Stop' ->
                              classAt regexp.isWord l0 (end_ r) = false)) added.
Proof.
  intros Hreg Hstop.
  induction fuel as [|fuel IH]; intros o l Hsrc Hext Ho Hfuel.
  - exists []. simpl.
    replace (o <? Stop' - 1) with false by (symmetry; apply Z.ltb_ge; lia).
    rewrite withLinks_nil. split; [reflexivity|]. split; [simpl; lia | constructor].
  - simpl. destruct (o <? Stop' - 1) eqn:Hlt.
    2:{ exists []. rewrite withLinks_nil.
        split; [reflexivity|]. split; [simpl; lia | constructor]. }
    apply Z.ltb_lt in Hlt. unfold linkExtRef.
    rewrite slice_sub by (rewrite ?Hsrc; lia). simpl bind.
    destruct (extRefLoop_result l o Stop' (ext l))
      as [[Hnone Hrun]|[before [after [x [s0 [e0 [Heq [Hnone Hfind]]]]]]]].
    + rewrite Hrun. simpl bind.
      destruct (IH Stop' l Hsrc Hext ltac:(lia) ltac:(lia)) as [added [Hrun' [Hchain Hspans]]].
      exists added. split; [exact Hrun'|].
      split; [apply (chain_from Stop'); [lia | exact Hchain] | exact Hspans].
    + assert (Hin : In x (ext l)) by (rewrite Heq; apply in_elt).
      assert (Hx : exists alnum : bool, registered x alnum).
      { unfold allRegistered in Hreg. rewrite <- Hext in Hreg.
        rewrite Forall_forall in Hreg. apply Hreg. exact Hin. }
      destruct Hx as [alnum Hx].
      rewrite Heq.
      rewrite (extRefLoop_first l _ o Stop' before after x alnum s0 e0 Hx Hnone Hfind).
      simpl bind.
      destruct (extSpan_of_match l o Stop' x alnum s0 e0 ltac:(lia) ltac:(lia)
                  ltac:(rewrite Hsrc; lia) Hin Hx Hfind) as [Hspan [Hs [Hne [He Hwb]]]].
      simpl in Hs, Hne, He, Hwb.
      match goal with |- context [appendLink l ?r] => set (r0 := r) in * end.
      destruct (IH (o + e0) (appendLink l r0) Hsrc Hext ltac:(lia) ltac:(lia))
        as [added [Hrun' [Hchain Hspans]]].
      exists (r0 :: added). rewrite <- withLinks_append.
      split; [exact Hrun'|].
      split; [simpl; repeat split; [lia | lia | exact Hchain]|].
      constructor; [|exact Hspans].
      split; [apply (extSpan_same l l0); [congruence | congruence | exact Hspan]|].
      split; [simpl; lia|].
      simpl. intros Hin'. rewrite <- (classAt_same_src regexp.isWord l0 l) by exact Hsrc.
      apply Hwb. exact Hin'.
Qed.

Lemma linkExtRefs_spans (l : Reflinker) (t : textm.Segment) :
  allRegistered l ->
  0 <= textm.Start t <= textm.Stop t -> textm.Stop t <= len (src l) ->
  exists added : list refLink,
    linkExtRefs l t = OK (withLinks l added)
    /\ chain (textm.Start t) added (textm.Stop t)
    /\ Forall (fun r => extSpan l r /\ start r < end_ r
                        /\ (end_ r < textm.Stop t ->
                            classAt regexp.isWord l (end_ r) = false)) added.
Proof.
  intros Hreg HS Hstop. unfold linkExtRefs.
  apply (extRefsLoop_spans l (textm.Stop t) Hreg Hstop); try reflexivity; lia.
Qed.




(** [strings.ReplaceAll] of a template whose only [<] starts [<num>]. *)
Lemma replaceAllSkip_skip (s1 s2 old new : bytes) :
  replaceAllSkip (s1 ++ s2) old new (length s1) = replaceAllSkip s2 old new 0.
Proof.
  induction s1 as [|c s1 IH]; simpl; [|exact IH].
  destruct s2; reflexivity.
Qed.


Lemma ReplaceAll_template (pre post num : bytes) :
  free "<" pre ->
  ReplaceAll (pre ++ B "<num>" ++ post) (B "<num>") num
  = pre ++ num ++ ReplaceAll post (B "<num>") num.
Proof.
  unfold free, ReplaceAll. induction pre as [|c pre IH]; intros H.
  - change ([] ++ B "<num>" ++ post) with ("<"%byte :: (B "num>" ++ post)).
    cbn [replaceAllSkip].
    change ("<"%byte :: B "num>" ++ post) with (B "<num>" ++ post).
    rewrite HasPrefix_app.
    change (length (B "<num>") - 1)%nat with (length (B "num>")).
    rewrite replaceAllSkip_skip. reflexivity.
  - simpl in H. apply andb_true_iff in H as [Hc Hs]. apply negb_true_iff in Hc.
    change ((c :: pre) ++ B "<num>" ++ post) with (c :: (pre ++ B "<num>" ++ post)).
    cbn [replaceAllSkip].
    change (B "<num>") with ("<"%byte :: B "num>") at 2.
    rewrite (HasPrefix_head c "<" _ (B "num>") Hc).
    simpl app. f_equal. apply IH. exact Hs.
Qed.

(** X4. The external pass over a Text segment that lies in the buffer
    returns when [AddExtRef] has made every entry of [l.ext] from a
    literal prefix: each round moves the cursor forward, so the loop
    ends. It changes the session by appending spans only, and the spans
    it appends are not empty and are laid out from left to right inside
    the segment, none crossing the one before it. *)
Theorem external_pass_spans_in_order (l : Reflinker) (t : textm.Segment) :
  literalEntries l ->
  0 <= textm.Start t <= textm.Stop t -> textm.Stop t <= len (src l) ->
  exists added : list refLink,
    linkExtRefs l t = OK (withLinks l added)
    /\ chain (textm.Start t) added (textm.Stop t)
    /\ Forall (fun r => start r < end_ r) added.
Proof.
  intros Hlit HS Hstop.
  destruct (linkExtRefs_spans l t (literalEntries_allRegistered l Hlit) HS Hstop)
    as [added [Hrun [Hchain Hspans]]].
  exists added. split; [exact Hrun|]. split; [exact Hchain|].
  eapply Forall_impl; [|exact Hspans]. intros r [_ [H _]]. exact H.
Qed.

Lemma external_pass_spans_in_order_witness :
  let l := reset gh (B "GH-1, GH-22 and GH-333") in
  let t := {| textm.Start := 0; textm.Stop := 22 |} in
  exists added : list refLink,
    linkExtRefs l t = OK (withLinks l added)
    /\ chain 0 added 22
    /\ Forall (fun r => start r < end_ r) added.
Proof.
  intros l t.
  apply (external_pass_spans_in_order l t);
    [apply literalEntries_gh | simpl; lia | vm_compute; discriminate].
Defined.

(** X5. When [AddExtRef] has made every entry of [l.ext] from a
    literal prefix, every span that the external pass appends covers the
    prefix of an entry followed by a suffix that is not empty and is made
    of digits, or of bytes of [a-zA-Z0-9_] for an alphanumeric entry;
    its text is [[prefix+suffix](url)] with the URL of that entry,
    [<num>] replaced by the suffix. *)
Theorem external_pass_links_only_registered (l : Reflinker) (t : textm.Segment) :
  literalEntries l ->
  0 <= textm.Start t <= textm.Stop t -> textm.Stop t <= len (src l) ->
  exists added : list refLink,
    linkExtRefs l t = OK (withLinks l added)
    /\ Forall (extSpan l) added.
Proof.
  intros Hlit HS Hstop.
  destruct (linkExtRefs_spans l t (literalEntries_allRegistered l Hlit) HS Hstop)
    as [added [Hrun [_ Hspans]]].
  exists added. split; [exact Hrun|].
  eapply Forall_impl; [|exact Hspans]. intros r [H _]. exact H.
Qed.

Lemma external_pass_links_only_registered_witness :
  let l := reset gh (B "GH-1, GH-22 and GH-333") in
  let t := {| textm.Start := 0; textm.Stop := 22 |} in
  exists added : list refLink,
    linkExtRefs l t = OK (withLinks l added) /\ Forall (extSpan l) added.
Proof.
  intros l t.
  apply (external_pass_links_only_registered l t);
    [apply literalEntries_gh | simpl; lia | vm_compute; discriminate].
Defined.





Lemma free_app (c : byte) (a b : bytes) : free c a -> free c b -> free c (a ++ b).
Proof.
  unfold free. intros Ha Hb. rewrite forallb_app, Ha, Hb. reflexivity.
Qed.



(** X9. The session that [NewReflinker] returns for a repository URL
    without [<] links [GH-N] to the issue N of that repository: whenever
    the pattern of [GH-] matches in the window, the span recorded has the
    text [[GH-N](repoURL/issues/N)]. *)
Theorem default_ext_ref_links_issue (repoURL input : bytes) (l0 : Reflinker)
        (start' end' s0 e0 : Z) :
  NewReflinker repoURL = OK l0 ->
  free "<" repoURL ->
  0 <= start' <= end' -> end' <= len input ->
  regexp.FindIndex (extPattern (B "GH-") false) (sub input start' end')
  = Some (s0, e0) ->
  let l := reset l0 input in
  let digits := sub (sub input start' end') (s0 + 3) e0 in
  linkExtRef l start' end'
  = OK (start' + e0,
        appendLink l {| start := start' + s0; end_ := start' + e0;
                        text := B "[GH-" ++ digits ++ B "](" ++ repoURL
                                  ++ B "/issues/" ++ digits ++ B ")" |})
  /\ digits <> [] /\ forallb isDecimal digits = true.
Proof.
  rewrite NewReflinker_returns. intros Hnew Hfree Hs He Hfind. injection Hnew as <-.
  intros l digits.
  set (x := {| prefix := B "GH-"; pat := extPattern (B "GH-") false;
               url := repoURL ++ B "/issues/<num>" |}).
  split.
  - change (linkExtRef l start' end')
      with (s <- slice input start' end' ;;
            extRefLoop l s start' end' ([] ++ x :: [])).
    rewrite slice_sub by lia. cbn [bind].
    rewrite (extRefLoop_first l _ start' end' [] [] x false s0 e0
               ltac:(intros s; reflexivity) ltac:(constructor) Hfind).
    assert (Hurl : forall d : bytes,
               ReplaceAll (repoURL ++ B "/issues/<num>") (B "<num>") d
               = repoURL ++ B "/issues/" ++ d).
    { intros d.
      change (repoURL ++ B "/issues/<num>")
        with (repoURL ++ (B "/issues/" ++ B "<num>" ++ [])).
      rewrite app_assoc.
      rewrite (ReplaceAll_template (repoURL ++ B "/issues/") [] d
                 (free_app "<" repoURL (B "/issues/") Hfree eq_refl)).
      change (ReplaceAll [] (B "<num>") d) with (@nil byte).
      rewrite app_nil_r, <- app_assoc. reflexivity. }
    unfold extRefText. cbn [url prefix x]. rewrite Hurl.
    rewrite <- !app_assoc. reflexivity.
  - apply FindIndex_extPattern in Hfind as [H0 [H1 [H2 [_ [_ [Hcls _]]]]]].
    change (len (B "GH-")) with 3 in *. fold digits in Hcls.
    split; [|exact Hcls].
    intros Hnil.
    assert (Hlen : len digits = e0 - (s0 + 3)) by (apply len_sub; lia).
    rewrite Hnil in Hlen. unfold len in Hlen. simpl in Hlen. lia.
Qed.

Lemma default_ext_ref_links_issue_witness :
  let input := B "closes GH-42." in
  exists l0 : Reflinker,
    NewReflinker (B "https://example.org/team/project") = OK l0
    /\ linkExtRef (reset l0 input) 0 13
       = OK (12, appendLink (reset l0 input)
                   {| start := 7; end_ := 12;
                      text := B "[GH-42](https://example.org/team/project/issues/42)" |}).
Proof.
  intros input. eexists. split; [reflexivity|].
  match goal with
  | |- linkExtRef (reset ?l0 _) _ _ = _ =>
      pose proof (default_ext_ref_links_issue (B "https://example.org/team/project")
                    input l0 0 13 7 12 eq_refl eq_refl ltac:(lia)
                    ltac:(vm_compute; discriminate)
                    ltac:(vm_compute; reflexivity)) as [H _]
  end.
  exact H.
Defined.



(** ** What the URL classifier records *)

Lemma IndexFrom_found (s sep : bytes) :
  forall i : Z,
    0 <= i ->
    (IndexFrom s sep i = -1 /\ forall k : nat, HasPrefix (skipn k s) sep = false)
    \/ (i <= IndexFrom s sep i
        /\ HasPrefix (skipn (Z.to_nat (IndexFrom s sep i - i)) s) sep = true
        /\ forall k : nat, (k < Z.to_nat (IndexFrom s sep i - i))%nat ->
             HasPrefix (skipn k s) sep = false).
Proof.
  induction s as [|c s IH]; intros i Hi; simpl IndexFrom.
  - destruct (HasPrefix [] sep) eqn:E.
    + right. rewrite Z.sub_diag. split; [lia|]. split; [exact E | intros k Hk; simpl in Hk; lia].
    + left. split; [reflexivity|]. intros k. rewrite skipn_nil. exact E.
  - destruct (HasPrefix (c :: s) sep) eqn:E.
    + right. rewrite Z.sub_diag. split; [lia|]. split; [exact E | intros k Hk; simpl in Hk; lia].
    + destruct (IH (i + 1) ltac:(lia)) as [[Hnone Hall]|[Hle [Hat Hbefore]]].
      * left. split; [exact Hnone|]. intros [|k]; [exact E | apply Hall].
      * right. split; [lia|].
        replace (Z.to_nat (IndexFrom s sep (i + 1) - i))
          with (S (Z.to_nat (IndexFrom s sep (i + 1) - (i + 1)))) by lia.
        split; [exact Hat|]. intros [|k] Hk; [exact E | apply Hbefore; lia].
Qed.

Lemma sub_to_end (s : bytes) (lo : Z) : sub s lo (len s) = skipn (Z.to_nat lo) s.
Proof.
  unfold sub. apply firstn_all2. rewrite length_skipn. unfold len. lia.
Qed.

(** Where [bytes.Index] finds the URL after the previous sibling. *)
Lemma Index_firstOccurrence (s u : bytes) (start0 : Z) :
  0 <= start0 <= len s ->
  0 <= Index (sub s start0 (len s)) u ->
  firstOccurrence s u start0 (start0 + Index (sub s start0 (len s)) u).
Proof.
  intros Hs Hoff. rewrite sub_to_end in *.
  pose proof (Index_bounds _ _ Hoff) as Hfit. unfold Index in *.
  set (tail := skipn (Z.to_nat start0) s) in *.
  assert (Htail : len tail = len s - start0)
    by (unfold tail, len in *; rewrite length_skipn; lia).
  destruct (IndexFrom_found tail u 0 ltac:(lia)) as [[Hnone _]|[_ [Hat Hbefore]]]; [lia|].
  set (offset := IndexFrom tail u 0) in *. rewrite Z.sub_0_r in *.
  assert (Hskip : forall k : nat, skipn k tail = skipn (Z.to_nat (start0 + Z.of_nat k)) s).
  { intros k. unfold tail. rewrite skipn_skipn. f_equal. lia. }
  rewrite Hskip in Hat. rewrite Z2Nat.id in Hat by lia.
  unfold firstOccurrence. split; [lia|]. split; [lia|]. split.
  - apply HasPrefix_split in Hat.
    apply (sub_at s u (skipn (length u) (skipn (Z.to_nat (start0 + offset)) s)));
      [lia | exact Hat | lia].
  - intros j Hj.
    replace (Z.to_nat j) with (Z.to_nat (start0 + Z.of_nat (Z.to_nat (j - start0)))) by lia.
    rewrite <- Hskip. apply Hbefore. lia.
Qed.

Lemma no_path_unmatched :
  regexp.FindSubmatch reGitHubCommitPath [] = None
  /\ regexp.FindSubmatch reGitHubIssuePath [] = None.
Proof. split; reflexivity. Qed.

(** What [linkURL] does when the previous sibling is a Text node or is
    missing: nothing, or one span over the first occurrence of the URL
    from the end of that sibling on. *)
Lemma linkURL_result (l : Reflinker) (p : option ast.Node) (u : bytes) (start0 : Z) :
  siblingStop p = Some start0 -> 0 <= start0 <= len (src l) ->
  linkURL l p u = OK l
  \/ exists r : refLink,
       linkURL l p u = OK (appendLink l r)
       /\ HasPrefix u (home l) = true
       /\ start r = start0 + Index (sub (src l) start0 (len (src l))) u
       /\ firstOccurrence (src l) u start0 (start r)
       /\ end_ r = start r + len u
       /\ start r < end_ r
       /\ bracketed l (start r) (end_ r) = false.
Proof.
  intros Hp Hs0. unfold linkURL.
  assert (Hstart : match p with
                   | None => OK 0
                   | Some (ast.Text t) => OK (textm.Stop t)
                   | Some _ => Panic TypeAssertion
                   end = OK start0).
  { destruct p as [[t|cs|cs|v|cs]|]; simpl in Hp; try discriminate;
      injection Hp as <-; reflexivity. }
  rewrite Hstart. simpl bind.
  destruct (HasPrefix u (home l)) eqn:Hhome; simpl negb; cbv iota; [|left; reflexivity].
  rewrite slice_sub by lia. simpl bind.
  pose proof (Index_firstOccurrence (src l) u start0 Hs0) as Hfirst.
  set (offset := Index (sub (src l) start0 (len (src l))) u) in *.
  destruct (offset <? 0) eqn:Hoff; [left; reflexivity|].
  apply Z.ltb_ge in Hoff. specialize (Hfirst Hoff).
  set (start' := start0 + offset) in *. set (end' := start' + len u).
  destruct ((start' >=? len (src l)) || (end' >? len (src l))) eqn:Hin;
    [left; reflexivity|].
  apply orb_false_iff in Hin as [Hin1 Hin2].
  assert (start' < len (src l))
    by (destruct (Z.geb_spec start' (len (src l))); [discriminate | lia]).
  assert (end' <= len (src l))
    by (destruct (Z.gtb_spec end' (len (src l))); [discriminate | lia]).
  pose proof (len_nonneg u).
  rewrite bracket_check by (unfold end', start' in *; lia). simpl bind.
  destruct (bracketed l start' end') eqn:Hbr; [left; reflexivity|].
  pose proof (length_skipn_prefix _ _ Hhome) as Hlen.
  pose proof (len_nonneg (home l)).
  rewrite slice_sub by (unfold len in *; lia). simpl bind.
  assert (Hne : sub u (len (home l)) (len u) <> [] -> start' < end').
  { intros Hpath. unfold end'. destruct u as [|b u']; [|unfold len; simpl; lia].
    exfalso. apply Hpath. unfold sub. rewrite skipn_nil, firstn_nil. reflexivity. }
  destruct (regexp.FindSubmatch reGitHubCommitPath _) as [m|] eqn:Hc.
  - unfold linkCommitURL. rewrite short_hash. simpl bind.
    right. eexists. split; [reflexivity|]. simpl.
    split; [reflexivity|]. split; [reflexivity|]. split; [exact Hfirst|].
    split; [reflexivity|]. split; [|exact Hbr].
    apply Hne. intros E. rewrite E in Hc.
    destruct no_path_unmatched as [Hc0 _]. congruence.
  - destruct (regexp.FindSubmatch reGitHubIssuePath _) as [m|] eqn:Hi; [|left; reflexivity].
    right. eexists. split; [reflexivity|]. simpl.
    split; [reflexivity|]. split; [reflexivity|]. split; [exact Hfirst|].
    split; [reflexivity|]. split; [|exact Hbr].
    apply Hne. intros E. rewrite E in Hi.
    destruct no_path_unmatched as [_ Hi0]. congruence.
Qed.

(** X10. The URL classifier, called on an AutoLink whose previous sibling
    is a Text node that ends in the buffer or is missing, returns. It
    records nothing, or one span: then the URL starts with the home of
    the session, the span is not empty and covers the first occurrence of
    the text of the URL at or after the end of the sibling, and that
    occurrence is not written between [<] and [>]. *)
Theorem autolink_span_is_first_occurrence (l : Reflinker) (p : option ast.Node)
        (u : bytes) (start0 : Z) :
  siblingStop p = Some start0 -> 0 <= start0 <= len (src l) ->
  linkURL l p u = OK l
  \/ exists r : refLink,
       linkURL l p u = OK (appendLink l r)
       /\ HasPrefix u (home l) = true
       /\ firstOccurrence (src l) u start0 (start r)
       /\ covered (src l) r = u
       /\ start r < end_ r
       /\ bracketed l (start r) (end_ r) = false.
Proof.
  intros Hp Hs0.
  destruct (linkURL_result l p u start0 Hp Hs0)
    as [H|[r [Hrun [Hhome [_ [Hfirst [Hend [Hne Hbr]]]]]]]]; [left; exact H|].
  right. exists r. split; [exact Hrun|]. split; [exact Hhome|].
  split; [exact Hfirst|]. split; [|split; assumption].
  unfold covered. rewrite Hend. destruct Hfirst as [_ [_ [H _]]]. exact H.
Qed.

Lemma autolink_span_is_first_occurrence_witness :
  let u := B "https://github.com/o/r/pull/3" in
  let l := reset gh (B "see " ++ u ++ B " and " ++ u) in
  let p := Some (ast.Text {| textm.Start := 0; textm.Stop := 4 |}) in
  linkURL l p u = OK l
  \/ exists r : refLink,
       linkURL l p u = OK (appendLink l r)
       /\ HasPrefix u (home l) = true
       /\ firstOccurrence (src l) u 4 (start r)
       /\ covered (src l) r = u
       /\ start r < end_ r
       /\ bracketed l (start r) (end_ r) = false.
Proof.
  intros u l p.
  apply (autolink_span_is_first_occurrence l p u 4);
    [reflexivity | vm_compute; split; discriminate].
Defined.











(** X13. Whether a URL is of the session's own repository is decided by
    [bytes.HasPrefix(url, l.repo)] alone, not by the [owner/repo] that
    the pattern captured: the issue of a repository whose name begins
    with the name of the session's repository is written in the short
    form [#N] of the session's own issues. *)
Theorem sibling_repository_shown_as_own (l : Reflinker) (p : option ast.Node)
        (u : bytes) (start0 : Z) (owner rp more kind num frag : bytes) :
  siblingStop p = Some start0 -> 0 <= start0 <= len (src l) ->
  repo l = home l ++ B "/" ++ owner ++ B "/" ++ rp ->
  u = home l ++ issuePath owner (rp ++ more) kind num frag ->
  segmentName owner -> segmentName (rp ++ more) ->
  kind = B "pull" \/ kind = B "issues" ->
  num <> [] -> forallb regexp.isDigit num = true -> fragment frag ->
  let offset := Index (sub (src l) start0 (len (src l))) u in
  let start' := start0 + offset in
  let end' := start' + len u in
  0 <= offset -> bracketed l start' end' = false ->
  linkURL l p u
  = OK (appendLink l {| start := start'; end_ := end';
                        text := B "[#" ++ num ++ fragmentNote frag ++ B "]("
                                  ++ u ++ B ")" |}).
Proof.
  intros Hp Hs0 Hrepo Hu Ho Hr Hkind Hne Hnum Hfrag offset start' end' Hoff Hbr.
  rewrite (linkURL_classifies l p u (issuePath owner (rp ++ more) kind num frag)
             start0 Hp Hs0 Hu) by (assumption || discriminate).
  fold offset. fold start'. fold end'.
  destruct (issue_path_found owner (rp ++ more) kind num frag Ho Hr Hkind Hne Hnum Hfrag)
    as [Hc [m [Hm [H1 [H2 H3]]]]].
  rewrite Hc, Hm. unfold linkIssueURL. rewrite H2, H3, note_of_fragment.
  replace (HasPrefix u (repo l)) with true; [reflexivity|].
  symmetry. rewrite Hu, Hrepo. unfold issuePath. rewrite <- !app_assoc.
  apply (own_repo_prefix (home l) owner rp).
Qed.

Lemma sibling_repository_shown_as_own_witness :
  let u := B "https://github.com/o/r-docs/issues/7" in
  let l := reset gh (B "see " ++ u) in
  linkURL l (Some (ast.Text {| textm.Start := 0; textm.Stop := 4 |})) u
  = OK (appendLink l {| start := 4; end_ := 40;
                        text := B "[#7](https://github.com/o/r-docs/issues/7)" |}).
Proof.
  intros u l.
  exact (sibling_repository_shown_as_own l
           (Some (ast.Text {| textm.Start := 0; textm.Stop := 4 |}))
           u 4 (B "o") (B "r") (B "-docs") (B "issues") (B "7") []
           ltac:(reflexivity)
           ltac:(vm_compute; split; discriminate)
           ltac:(reflexivity) ltac:(reflexivity)
           ltac:(split; [discriminate | reflexivity])
           ltac:(split; [discriminate | reflexivity])
           ltac:(right; reflexivity)
           ltac:(discriminate) ltac:(reflexivity) ltac:(left; reflexivity)
           ltac:(vm_compute; discriminate)
           ltac:(vm_compute; reflexivity)).
Defined.

(** ** When the rebuilder returns *)

Lemma insertByStart_perm (r : refLink) (acc : list refLink) :
  Permutation (insertByStart r acc) (r :: acc).
Proof.
  induction acc as [|x xs IH]; simpl; [reflexivity|].
  destruct (Less r x); [reflexivity|].
  rewrite IH. apply perm_swap.
Qed.

Lemma sortByStart_perm (links : list refLink) : Permutation (sortByStart links) links.
Proof.
  unfold sortByStart.
  assert (H : forall rest acc : list refLink,
             Permutation (fold_left (fun acc r => insertByStart r acc) rest acc)
                         (acc ++ rest)).
  { induction rest as [|r rest IH]; intros acc; simpl.
    - rewrite app_nil_r. reflexivity.
    - rewrite IH, insertByStart_perm. apply Permutation_middle. }
  apply (H links []).
Qed.

Lemma pairwise_perm (a b : list refLink) :
  Permutation a b -> ForallOrdPairs disjoint a -> ForallOrdPairs disjoint b.
Proof.
  induction 1 as [|x a b Hab IH|x y a|a b c Hab IHab Hbc IHbc]; intros H.
  - constructor.
  - inversion H as [|? ? Hx Ha]; subst.
    constructor; [apply (Permutation_Forall Hab); exact Hx | apply IH; exact Ha].
  - inversion H as [|? ? Hy Hxa]; subst.
    inversion Hxa as [|? ? Hx Ha]; subst.
    inversion Hy as [|? ? Hyx Hya]; subst.
    constructor; [|constructor; assumption].
    constructor; [apply disjoint_sym; exact Hyx | exact Hx].
  - apply IHbc, IHab, H.
Qed.

(** A rebuild that returns has taken its slices along a chain. *)
Lemma buildLoop_OK_chain (s : bytes) (rs : list refLink) :
  forall (i : Z) (out r : bytes),
    buildLoop s rs i out = OK r -> chain i rs (len s) \/ Exists (fun x => end_ x < start x) rs.
Proof.
  induction rs as [|x rs IH]; intros i out r; simpl.
  - unfold slice. destruct ((0 <=? i) && (i <=? len s) && (len s <=? len s)) eqn:E;
      [|discriminate].
    intros _. left. apply andb_true_iff in E as [E _]. apply andb_true_iff in E as [_ E].
    apply Z.leb_le. exact E.
  - unfold slice. destruct ((0 <=? i) && (i <=? start x) && (start x <=? len s)) eqn:E;
      [|discriminate].
    simpl bind. intros H.
    apply andb_true_iff in E as [E _]. apply andb_true_iff in E as [_ E].
    apply Z.leb_le in E.
    destruct (Z_le_gt_dec (start x) (end_ x)) as [Hle|Hgt];
      [|right; apply Exists_cons_hd; lia].
    destruct (IH _ _ _ H) as [Hchain|Hbad];
      [left; repeat split; assumption | right; apply Exists_cons_tl; exact Hbad].
Qed.

Lemma chain_inBuffer (s : bytes) (rs : list refLink) :
  forall i : Z,
    0 <= i -> chain i rs (len s) -> Forall (fun r => start r < end_ r) rs ->
    Forall (inBuffer s) rs /\ ForallOrdPairs disjoint rs
    /\ Forall (fun r => i <= start r) rs.
Proof.
  induction rs as [|r rs IH]; intros i Hi Hchain Hne.
  - repeat split; constructor.
  - simpl in Hchain. destruct Hchain as [H1 [H2 H3]].
    inversion Hne as [|? ? Hr Hrs]; subst.
    destruct (IH (end_ r) ltac:(lia) H3 Hrs) as [Hin [Hpair Hafter]].
    pose proof (chain_bounds _ _ _ H3) as Hend.
    split; [constructor; [unfold inBuffer; lia | exact Hin]|].
    split.
    + constructor; [|exact Hpair].
      apply (Forall_impl _ (P := fun r' => end_ r <= start r'));
        [intros r' Hr'; left; exact Hr' | exact Hafter].
    + constructor; [exact H1|].
      apply (Forall_impl _ (P := fun r' => end_ r <= start r'));
        [intros r' Hr'; lia | exact Hafter].
Qed.

Lemma sortByStart_nonempty (links : list refLink) :
  Forall (fun r => start r < end_ r) links ->
  Forall (fun r => start r < end_ r) (sortByStart links).
Proof.
  intros H. apply (Permutation_Forall (Permutation_sym (sortByStart_perm links))).
  exact H.
Qed.

Lemma buildLinkedText_returns_iff (l : Reflinker) :
  Forall (fun r => start r < end_ r) (links l) ->
  ((exists out : bytes, buildLinkedText l = OK out)
   <-> Forall (inBuffer (src l)) (links l) /\ ForallOrdPairs disjoint (links l))
  /\ (buildLinkedText l = Panic SliceBounds
      <-> ~ (Forall (inBuffer (src l)) (links l)
             /\ ForallOrdPairs disjoint (links l))).
Proof.
  intros Hne.
  assert (Hto : Forall (inBuffer (src l)) (links l) /\ ForallOrdPairs disjoint (links l) ->
                exists out : bytes, buildLinkedText l = OK out).
  { intros [Hin Hpair].
    destruct (sortByStart_invariant (src l) (links l) [] Hin ltac:(constructor) Hpair
                ltac:(constructor)
                ltac:(apply Forall_forall; intros; constructor)
                ltac:(constructor)) as [H1 [H2 [H3 _]]].
    pose proof (len_nonneg (src l)) as Hlen.
    assert (Hfrom : Forall (fun r => 0 <= start r) (sortByStart (links l))).
    { eapply Forall_impl; [|exact H1]. unfold inBuffer. intros; lia. }
    pose proof (sorted_disjoint_chain (src l) _ H1 H2 H3 0 Hlen Hfrom) as Hchain.
    destruct (buildLoop_chain (src l) _ 0 [] ltac:(lia) Hchain) as [_ Hrun].
    eexists. exact Hrun. }
  assert (Hfrom : (exists out : bytes, buildLinkedText l = OK out) ->
                  Forall (inBuffer (src l)) (links l)
                  /\ ForallOrdPairs disjoint (links l)).
  { intros [out Hrun]. unfold buildLinkedText in Hrun.
    pose proof (sortByStart_nonempty _ Hne) as Hne'.
    destruct (buildLoop_OK_chain _ _ _ _ _ Hrun) as [Hchain|Hbad].
    - destruct (chain_inBuffer (src l) _ 0 ltac:(lia) Hchain Hne') as [Hin [Hpair _]].
      split.
      + apply (Permutation_Forall (sortByStart_perm (links l))). exact Hin.
      + apply (pairwise_perm _ _ (sortByStart_perm (links l))). exact Hpair.
    - exfalso. rewrite Exists_exists in Hbad. destruct Hbad as [x [Hx Hlt]].
      rewrite Forall_forall in Hne'. specialize (Hne' x Hx). lia. }
  split; [split; assumption|].
  split.
  - intros Hpanic Hok. destruct (Hto Hok) as [out Hrun]. congruence.
  - intros Hnot.
    destruct (buildLoop_outcome (src l) (sortByStart (links l)) 0 [])
      as [Hok|Hpanic]; [|exact Hpanic].
    exfalso. apply Hnot, Hfrom. exact Hok.
Qed.

(** X14. For spans that are not empty, as all the spans of the engine
    are, [buildLinkedText] returns exactly when every span lies in the
    buffer and no two spans share a byte; in every other case it stops
    in a slice out of bounds. *)
Theorem rebuild_returns_iff_disjoint (l : Reflinker) :
  Forall (fun r => start r < end_ r) (links l) ->
  ((exists out : bytes, buildLinkedText l = OK out)
   <-> Forall (inBuffer (src l)) (links l) /\ ForallOrdPairs disjoint (links l))
  /\ (buildLinkedText l = Panic SliceBounds
      <-> ~ (Forall (inBuffer (src l)) (links l)
             /\ ForallOrdPairs disjoint (links l))).
Proof. intros Hne. apply buildLinkedText_returns_iff. exact Hne. Qed.

Lemma rebuild_returns_iff_disjoint_witness :
  let l := {| repo := repo gh; home := home gh; ext := ext gh;
              src := B "@GH-1";
              links := [ {| start := 0; end_ := 5; text := B "[@GH-1](u1)" |};
                         {| start := 1; end_ := 5; text := B "[GH-1](u2)" |} ] |} in
  ((exists out : bytes, buildLinkedText l = OK out)
   <-> Forall (inBuffer (src l)) (links l) /\ ForallOrdPairs disjoint (links l))
  /\ (buildLinkedText l = Panic SliceBounds
      <-> ~ (Forall (inBuffer (src l)) (links l)
             /\ ForallOrdPairs disjoint (links l))).
Proof.
  intros l. apply (rebuild_returns_iff_disjoint l).
  repeat constructor.
Defined.

(** ** What the walk records over a tree *)

Lemma chain_within (i n : Z) (rs : list refLink) :
  chain i rs n -> Forall (fun r => i <= start r /\ end_ r <= n) rs.
Proof.
  revert i. induction rs as [|r rs IH]; intros i H; [constructor|].
  simpl in H. destruct H as [H1 [H2 H3]].
  pose proof (chain_bounds _ _ _ H3) as Hend.
  constructor; [lia|].
  apply IH in H3. apply (Forall_impl _ (P := fun r' => end_ r <= start r' /\ end_ r' <= n));
    [intros r' Hr'; lia | exact H3].
Qed.
















(** ** What the matchers leave to the scanner *)

Lemma sub_one (s : bytes) (i : Z) (b : byte) :
  0 <= i -> nth_error s (Z.to_nat i) = Some b -> sub s i (i + 1) = [b].
Proof.
  intros Hi Hnth.
  assert (Hlen : i < len s).
  { unfold len. assert (Z.to_nat i < length s)%nat; [|lia].
    apply nth_error_Some. congruence. }
  destruct (sub_cons s i (i + 1) ltac:(lia) ltac:(lia)) as [c [Hc Hsub]].
  rewrite Hsub, sub_empty by lia. congruence.
Qed.

(** X18. The matchers rely on the scanner for a byte after the trigger.
    Called on an [@] that is the last byte of the buffer, the mention
    matcher reads [l.src[begin+1]] past the end and panics; called on a
    [#] that ends the segment before a boundary, the issue matcher
    accepts the empty number and links [[#](repo/issues/)]. The scanner
    never makes such a call: over a segment that ends with that byte it
    returns, and no span starts at the last byte. *)
Theorem matchers_rely_on_last_byte_guard (l : Reflinker) (begin : Z) :
  0 <= begin < len (src l) ->
  isBoundaryAt l (begin - 1) = true ->
  (begin + 1 = len (src l) ->
   forall end' : Z, linkUserRef l begin end' = Panic IndexOutOfRange)
  /\ (classAt (isByte "#") l begin = true -> isBoundaryAt l (begin + 1) = true ->
      linkIssueRef l begin (begin + 1)
      = OK (begin + 1,
            appendLink l {| start := begin; end_ := begin + 1;
                            text := B "[#](" ++ repo l ++ B "/issues/)" |}))
  /\ (forall t : textm.Segment,
        0 <= textm.Start t <= begin -> textm.Stop t = begin + 1 ->
        exists added : list refLink,
          linkGitHubRefs l t = OK (withLinks l added)
          /\ Forall (fun r => start r < begin) added).
Proof.
  intros Hb Hbefore. split; [|split].
  - intros Hlast end'. unfold linkUserRef, lastIndexUserRef.
    rewrite Hbefore. simpl negb. cbv iota.
    unfold index.
    replace ((0 <=? begin + 1) && (begin + 1 <? len (src l))) with false
      by (symmetry; apply andb_false_iff; right; apply Z.ltb_ge; lia).
    reflexivity.
  - intros Hhash Hafter. apply classAt_true in Hhash as [_ [b [Hnth Hbyte]]].
    apply isByte_eq in Hbyte. subst b.
    unfold linkIssueRef, lastIndexIssueRef.
    rewrite Hbefore. simpl negb. cbv iota.
    replace (Z.to_nat (begin + 1 - begin)) with 1%nat by lia.
    cbn [issueRefLoop].
    replace (begin + 1 <? begin + 1) with false by (symmetry; apply Z.ltb_ge; lia).
    rewrite Hafter. simpl negb. cbv iota. cbn [bind].
    replace (begin + 1 <? 0) with false by (symmetry; apply Z.ltb_ge; lia).
    rewrite slice_sub by lia. cbn [bind].
    rewrite (sub_one (src l) begin "#"%byte) by (lia || exact Hnth).
    reflexivity.
  - intros t HS Hstop.
    destruct (linkGitHubRefs_spans l t ltac:(lia) ltac:(lia))
      as [added [Hrun [Hchain [Hsound _]]]].
    exists added. split; [exact Hrun|].
    apply chain_within in Hchain.
    rewrite Forall_forall in *. intros r Hr.
    destruct (Hchain r Hr) as [_ Hend]. destruct (Hsound r Hr) as [_ Hlen]. lia.
Qed.

Lemma matchers_rely_on_last_byte_guard_witness :
  linkUserRef (reset gh (B "hi @")) 3 4 = Panic IndexOutOfRange.
Proof.
  destruct (matchers_rely_on_last_byte_guard (reset gh (B "hi @")) 3
              ltac:(vm_compute; split; [discriminate | reflexivity])
              ltac:(reflexivity)) as [H _].
  exact (H eq_refl 4).
Defined.

(** ** The text of a span and the bytes it replaces *)





(** ** The walk as a run over the items it meets *)

Lemma runItems_app (a b : list item) (l : Reflinker) :
  runItems (a ++ b) l = (l' <- runItems a l ;; runItems b l').
Proof.
  revert l. induction a as [|[t|p u] a IH]; intros l; simpl; [reflexivity| |].
  - destruct (linkGitHubRefs l t) as [l1| |]; simpl; try reflexivity.
    destruct (linkExtRefs l1 t) as [l2| |]; simpl; [apply IH | reflexivity | reflexivity].
  - destruct (linkURL l p u) as [l'| |]; simpl; [apply IH | reflexivity | reflexivity].
Qed.

(** The walk is the run of its handlers over the items it meets. *)
Lemma Walk_runItems :
  forall (n : ast.Node) (p : option ast.Node) (l : Reflinker),
    Walk n p l = runItems (visibleItems n p) l.
Proof.
  fix IH 1. intros n p l.
  destruct n as [t|cs|cs|u|cs].
  - simpl. destruct (linkGitHubRefs l t) as [l1| |]; simpl; try reflexivity.
    destruct (linkExtRefs l1 t) as [l2| |]; reflexivity.
  - reflexivity.
  - reflexivity.
  - simpl. destruct (linkURL l p u) as [l'| |]; reflexivity.
  - simpl. generalize (@None ast.Node) as q. revert l.
    induction cs as [|c cs IHcs]; intros l q; [reflexivity|].
    rewrite runItems_app, <- IH.
    destruct (Walk c q l) as [l'| |]; simpl; [apply IHcs | reflexivity | reflexivity].
Qed.

(** X20. The walk of [Link] is the run of its handlers over the Text
    nodes and AutoLinks outside code spans and links, in document order,
    each AutoLink with its previous sibling. Whatever the handlers
    return or panic with, [Link] depends on the tree through that
    sequence only: two trees with the same sequence give the same
    result, so the nesting of the nodes and everything below a code span
    or a link play no part. *)
Theorem link_depends_on_visible_items_only :
  (forall (n : ast.Node) (p : option ast.Node) (l : Reflinker),
     Walk n p l = runItems (visibleItems n p) l)
  /\ (forall (l : Reflinker) (t t' : ast.Node) (input : bytes),
        visibleItems t None = visibleItems t' None ->
        Link l t input = Link l t' input)
  /\ (forall (l : Reflinker) (cs : list ast.Node) (input : bytes),
        Link l (ast.Other [ast.CodeSpan cs]) input = OK input
        /\ Link l (ast.Other [ast.Link cs]) input = OK input).
Proof.
  split; [exact Walk_runItems|]. split.
  - intros l t t' input Hsame. unfold Link.
    rewrite !Walk_runItems, Hsame. reflexivity.
  - intros l cs input. split; reflexivity.
Qed.













(** ** Documents without a reference, and the registration of a prefix *)

Lemma walkable_placed (s : bytes) :
  forall (n : ast.Node) (p : option ast.Node),
    walkable s n p -> Forall (placed s) (visibleItems n p).
Proof.
  fix IH 1. intros n p Hwf.
  destruct n as [t|cs|cs|u|cs].
  - constructor; [exact Hwf | constructor].
  - constructor.
  - constructor.
  - constructor; [|constructor]. simpl in Hwf. simpl.
    destruct p as [[t|cs|cs|v|cs]|]; try contradiction.
    + exists (textm.Stop t). split; [reflexivity | exact Hwf].
    + exists 0. split; [reflexivity | pose proof (len_nonneg s); lia].
  - simpl in Hwf. simpl.
    revert Hwf. generalize (@None ast.Node) as q.
    induction cs as [|c cs IHcs]; intros q Hwf; [constructor|].
    destruct Hwf as [Hc Hrest].
    apply Forall_app. split; [apply IH; exact Hc | apply IHcs; exact Hrest].
Qed.

(** The external pass over a segment in which no pattern matches. *)
Lemma linkExtRefs_none (l : Reflinker) (t : textm.Segment) :
  0 <= textm.Start t <= textm.Stop t -> textm.Stop t <= len (src l) ->
  Forall (fun x => regexp.FindIndex (pat x)
                     (sub (src l) (textm.Start t) (textm.Stop t)) = None) (ext l) ->
  linkExtRefs l t = OK l.
Proof.
  intros HS Hstop Hnone. unfold linkExtRefs.
  destruct (Z.to_nat (textm.Stop t - textm.Start t)) as [|fuel] eqn:Hfuel.
  - simpl. replace (textm.Start t <? textm.Stop t - 1) with false
      by (symmetry; apply Z.ltb_ge; lia).
    reflexivity.
  - cbn [extRefsLoop]. destruct (textm.Start t <? textm.Stop t - 1) eqn:Hlt;
      [|reflexivity].
    unfold linkExtRef. rewrite slice_sub by lia. simpl bind.
    rewrite extRefLoop_none by exact Hnone. simpl bind.
    destruct fuel; simpl;
      replace (textm.Stop t <? textm.Stop t - 1) with false
        by (symmetry; apply Z.ltb_ge; lia);
      reflexivity.
Qed.

(** The handlers of the walk leave the session as it is at an item at
    which the engine recognizes nothing. *)
Lemma runItems_unrecognized (l : Reflinker) (items : list item) :
  Forall (placed (src l)) items -> Forall (unrecognized l) items ->
  runItems items l = OK l.
Proof.
  intros Hplaced. induction Hplaced as [|i items Hi Hitems IH]; intros Hquiet;
    [reflexivity|].
  inversion Hquiet as [|? ? Hq Hqs]; subst.
  destruct i as [t|p u].
  - (* Text *)
    destruct Hi as [HS Hstop]. destruct Hq as [Hnone Hext].
    destruct (linkGitHubRefs_spans l t HS Hstop) as [a1 [Hrun1 [Hchain1 [Hsound1 _]]]].
    assert (Hnil : a1 = []).
    { destruct a1 as [|r a1]; [reflexivity|]. exfalso.
      apply chain_within in Hchain1.
      pose proof (Forall_inv Hchain1) as [Hs He].
      pose proof (Forall_inv Hsound1) as [Hr Hlen].
      rewrite (Hnone (start r)) in Hr by lia. discriminate. }
    subst a1. rewrite withLinks_nil in Hrun1.
    cbn [runItems]. rewrite Hrun1. cbn [bind].
    rewrite (linkExtRefs_none l t HS Hstop Hext). cbn [bind].
    apply IH. exact Hqs.
  - (* AutoLink *)
    destruct Hi as [start0 [Hp Hs0]].
    assert (Hrun : linkURL l p u = OK l).
    { unfold linkURL.
      assert (Hstart : match p with
                       | None => OK 0
                       | Some (ast.Text t) => OK (textm.Stop t)
                       | Some _ => Panic TypeAssertion
                       end = OK start0).
      { destruct p as [[t|cs|cs|v|cs]|]; simpl in Hp; try discriminate;
          injection Hp as <-; reflexivity. }
      rewrite Hstart. simpl bind.
      destruct (HasPrefix u (home l)) eqn:Hhome; simpl negb; cbv iota; [|reflexivity].
      destruct Hq as [Hq|[Hc Hi]]; [congruence|].
      rewrite slice_sub by lia. simpl bind.
      set (offset := Index (sub (src l) start0 (len (src l))) u) in *.
      destruct (offset <? 0) eqn:Hoff; [reflexivity|].
      apply Z.ltb_ge in Hoff.
      set (start' := start0 + offset) in *. set (end' := start' + len u).
      destruct ((start' >=? len (src l)) || (end' >? len (src l))) eqn:Hin;
        [reflexivity|].
      apply orb_false_iff in Hin as [Hin1 Hin2].
      assert (start' < len (src l))
        by (destruct (Z.geb_spec start' (len (src l))); [discriminate | lia]).
      assert (end' <= len (src l))
        by (destruct (Z.gtb_spec end' (len (src l))); [discriminate | lia]).
      pose proof (len_nonneg u).
      rewrite bracket_check by (unfold end', start' in *; lia). simpl bind.
      destruct (bracketed l start' end'); [reflexivity|].
      pose proof (length_skipn_prefix _ _ Hhome) as Hlen.
      pose proof (len_nonneg (home l)).
      rewrite slice_sub by (unfold len in *; lia). simpl bind.
      rewrite Hc, Hi. reflexivity. }
    cbn [runItems]. rewrite Hrun. cbn [bind]. apply IH. exact Hqs.
Qed.

(** X24. The identity of C2 on the trees that the walk gets through:
    when the Text segments outside code spans and links lie in the input
    and every AutoLink there follows a Text node or nothing, and the
    engine recognizes no reference -- no issue reference, mention or
    commit hash starts in a Text segment, no pattern of the session
    matches in one, and no AutoLink has a URL of the forge with a commit
    or issue path -- [Link] returns its input, byte for byte. This holds
    for every session, whatever its patterns are. *)
Theorem unrecognized_document_unchanged (l : Reflinker) (t : ast.Node)
        (input : bytes) :
  walkable input t None ->
  Forall (unrecognized (reset l input)) (visibleItems t None) ->
  Link l t input = OK input.
Proof.
  intros Hwf Hquiet. unfold Link.
  rewrite Walk_runItems.
  rewrite (runItems_unrecognized (reset l input) _ (walkable_placed input t None Hwf)
             Hquiet).
  reflexivity.
Qed.

Lemma unrecognized_document_unchanged_witness :
  let u := B "https://example.com" in
  let input := B "see <" ++ u ++ B ">" in
  let t := ast.Other [ast.Other
             [ ast.Text {| textm.Start := 0; textm.Stop := 4 |};
               ast.AutoLink u ]] in
  Link gh t input = OK input.
Proof.
  intros u input t.
  apply (unrecognized_document_unchanged gh t input).
  - simpl. repeat split; try lia; vm_compute; discriminate.
  - constructor; [|constructor; [left; vm_compute; reflexivity | constructor]].
    split; [|repeat constructor].
    intros p Hp. simpl in Hp.
    assert (Hcases : p = 0 \/ p = 1 \/ p = 2 \/ p = 3) by lia.
    repeat (destruct Hcases as [->|Hcases]; [reflexivity|]). subst p. reflexivity.
Defined.

(** X25. [AddExtRef] with a literal prefix -- at most 900 bytes of
    ASCII, none of them an operator of the pattern syntax -- returns: it
    appends one entry to [l.ext] and changes nothing else. Every match
    of the pattern of that entry starts at a word boundary, is the
    prefix followed by a suffix that is not empty and is made of digits,
    or of bytes of [a-zA-Z0-9_] for an alphanumeric entry, and ends
    where the text ends or before a byte that is not of [a-zA-Z0-9_]. *)
Theorem add_ext_ref_literal_prefix (l : Reflinker) (p u : bytes) (alnum : bool) :
  literalPrefix p = true ->
  exists r : regexp.Regexp,
    AddExtRef l p u alnum
    = OK {| repo := repo l; home := home l; src := src l;
            ext := ext l ++ [{| prefix := p; pat := r; url := u |}];
            links := links l |}
    /\ forall (text : bytes) (s0 e0 : Z),
         regexp.FindIndex r text = Some (s0, e0) ->
         0 <= s0 /\ s0 + len p < e0 /\ e0 <= len text
         /\ wordBoundary text s0 = true
         /\ sub text s0 e0 = p ++ sub text (s0 + len p) e0
         /\ forallb (suffixClass alnum) (sub text (s0 + len p) e0) = true
         /\ regexp.wordAt text (Z.to_nat e0) = false.
Proof.
  intros Hlit.
  destruct (AddExtRef_literal l p u alnum Hlit) as [r [_ [Hadd Hreg]]].
  exists r. split; [exact Hadd|].
  intros text s0 e0 Hfind. unfold registered in Hreg. cbn [prefix pat] in Hreg.
  rewrite Hreg in Hfind.
  pose proof (FindIndex_extPattern_end _ _ _ _ _ Hfind) as Hend.
  apply FindIndex_extPattern in Hfind as [H0 [H1 [H2 [Hwb [Hsplit [Hcls _]]]]]].
  repeat split; assumption.
Qed.

Lemma add_ext_ref_literal_prefix_witness :
  exists r : regexp.Regexp,
    AddExtRef gh (B "JIRA-") (B "https://jira.example/browse/<num>") true
    = OK {| repo := repo gh; home := home gh; src := src gh;
            ext := ext gh ++ [{| prefix := B "JIRA-"; pat := r;
                                 url := B "https://jira.example/browse/<num>" |}];
            links := links gh |}
    /\ forall (text : bytes) (s0 e0 : Z),
         regexp.FindIndex r text = Some (s0, e0) ->
         0 <= s0 /\ s0 + len (B "JIRA-") < e0 /\ e0 <= len text
         /\ wordBoundary text s0 = true
         /\ sub text s0 e0 = B "JIRA-" ++ sub text (s0 + len (B "JIRA-")) e0
         /\ forallb (suffixClass true) (sub text (s0 + len (B "JIRA-")) e0) = true
         /\ regexp.wordAt text (Z.to_nat e0) = false.
Proof.
  apply (add_ext_ref_literal_prefix gh (B "JIRA-")
           (B "https://jira.example/browse/<num>") true).
  reflexivity.
Defined.

(** X26. A prefix is not always a pattern: after literal text, a closing
    parenthesis that nothing opens makes [regexp.MustCompile] panic, and
    [AddExtRef] with it returns no session. *)
Theorem add_ext_ref_unopened_parenthesis_panics (l : Reflinker) (p u : bytes)
        (alnum : bool) :
  literalPrefix p = true ->
  AddExtRef l (p ++ B ")") u alnum = Panic RegexpSyntax.
Proof.
  intros Hlit. pose proof (literalPrefix_length p Hlit) as Hlen.
  unfold literalPrefix in Hlit. apply andb_true_iff in Hlit as [_ Hlit].
  assert (Hc : regexp.Compile (extRefPattern (p ++ B ")") alnum) = regexp.Invalid).
  { unfold regexp.Compile. destruct alnum; cbn [extRefPattern].
    - replace (1000 <? length (B "\b" ++ (p ++ B ")") ++ B "[a-zA-Z0-9_]+"))%nat
        with false
        by (symmetry; apply Nat.ltb_ge; rewrite !length_app; simpl; lia).
      rewrite <- app_assoc.
      change (B "\b" ++ p ++ B ")" ++ B "[a-zA-Z0-9_]+")
        with ("\"%byte :: "b"%byte :: (p ++ B ")[a-zA-Z0-9_]+")).
      cbn [length]. rewrite length_app.
      change (length (B ")[a-zA-Z0-9_]+")) with 14%nat.
      change (regexp.lex (S (S (length p + 14)))
                ("\"%byte :: "b"%byte :: (p ++ B ")[a-zA-Z0-9_]+")))
        with (regexp.andToken (regexp.TEmpty regexp.WordB)
                (regexp.lex (S (length p + 14)) (p ++ B ")[a-zA-Z0-9_]+"))).
      rewrite <- Nat.add_succ_r, (lex_literal p 15 _ Hlit).
      change (regexp.lex 15 (B ")[a-zA-Z0-9_]+"))
        with (regexp.andToken regexp.TClose (regexp.lex 14 (B "[a-zA-Z0-9_]+"))).
      change (regexp.lex 14 (B "[a-zA-Z0-9_]+"))
        with (regexp.Lexed
                [regexp.TClass
                   (regexp.either
                      (regexp.either
                         (regexp.either
                            (regexp.either regexp.none (regexp.range "a" "z"))
                            (regexp.range "A" "Z"))
                         (regexp.range "0" "9"))
                      (regexp.only "_"));
                 regexp.TPlus] []).
      cbn [regexp.andToken regexp.parse].
      rewrite parse_literal. reflexivity.
    - replace (1000 <? length (B "\b" ++ (p ++ B ")") ++ B "\d+\b"))%nat with false
        by (symmetry; apply Nat.ltb_ge; rewrite !length_app; simpl; lia).
      rewrite <- app_assoc.
      change (B "\b" ++ p ++ B ")" ++ B "\d+\b")
        with ("\"%byte :: "b"%byte :: (p ++ B ")\d+\b")).
      cbn [length]. rewrite length_app.
      change (length (B ")\d+\b")) with 6%nat.
      change (regexp.lex (S (S (length p + 6)))
                ("\"%byte :: "b"%byte :: (p ++ B ")\d+\b")))
        with (regexp.andToken (regexp.TEmpty regexp.WordB)
                (regexp.lex (S (length p + 6)) (p ++ B ")\d+\b"))).
      rewrite <- Nat.add_succ_r, (lex_literal p 7 _ Hlit).
      change (regexp.lex 7 (B ")\d+\b"))
        with (regexp.Lexed
                [regexp.TClose; regexp.TClass regexp.isDigit; regexp.TPlus;
                 regexp.TEmpty regexp.WordB] []).
      cbn [regexp.andToken regexp.parse].
      rewrite parse_literal. reflexivity. }
  unfold AddExtRef, regexp.MustCompile. rewrite Hc. reflexivity.
Qed.

Lemma add_ext_ref_unopened_parenthesis_panics_witness :
  AddExtRef gh (B "PR)") (B "https://example.org/<num>") false
  = Panic RegexpSyntax.
Proof.
  apply (add_ext_ref_unopened_parenthesis_panics gh (B "PR")
           (B "https://example.org/<num>") false).
  reflexivity.
Defined.
